(** * The blog post service of [server/index.js]

    A shallow embedding of the Express handlers of [server/index.js]
    (list, by-slug, create, update and delete of blog posts, with their tag
    associations) and of the string operations they apply to titles and tag
    lists.

    Conventions of the model.
    - A JavaScript string is a [string]: a sequence of 8-bit characters, read
      as the code units U+0000..U+00FF.
    - A request is a multipart form as [multer] hands it to the handler: every
      body field is an optional string, [req.file] an optional stored file
      name.  The identifier of a path is the number that the store compares
      with its keys.
    - [JSON.parse] belongs to the runtime and is a parameter of the handlers.
    - The module [./db] is not part of the sources: the three tables and the
      SQL statements that [index.js] sends to it are modelled from the
      specification (sections 3 and 6), without constraints on the rows.  A
      statement always succeeds: failures of the storage are not modelled, so
      the only exceptions are those that the handler bodies raise themselves.
    - The handlers run one at a time, each from the first statement to the
      answer. *)

From Stdlib Require Import String Ascii List Bool Arith NArith ZArith Lia.
From Stdlib Require Import Permutation Sorted.
Import ListNotations.
Local Open Scope string_scope.
Local Open Scope list_scope.

(** ** Characters and strings *)

Definition in_range (lo hi : N) (c : ascii) : bool :=
  (N.leb lo (N_of_ascii c) && N.leb (N_of_ascii c) hi)%bool.

(** [[0-9]], [[a-z]] and [[A-Z]]. *)
Definition is_digit (c : ascii) : bool := in_range 48 57 c.
Definition is_lower (c : ascii) : bool := in_range 97 122 c.
Definition is_upper (c : ascii) : bool := in_range 65 90 c.

(** The character class [[a-z0-9]] of the slug expression. *)
Definition is_lower_alnum (c : ascii) : bool := (is_lower c || is_digit c)%bool.

(** The alphabets in the words of the specification, written out. *)
Definition small_letters : string := "abcdefghijklmnopqrstuvwxyz".
Definition capital_letters : string := "ABCDEFGHIJKLMNOPQRSTUVWXYZ".
Definition digits : string := "0123456789".

(** The letters U+00C0..U+00DE and U+00E0..U+00FE, which come in pairs of a
    capital and a small letter; U+00D7 and U+00F7 are signs, not letters. *)
Definition latin1_capitals : string :=
  string_of_list_ascii
    (map ascii_of_N
       [192; 193; 194; 195; 196; 197; 198; 199; 200; 201; 202; 203; 204; 205;
        206; 207; 208; 209; 210; 211; 212; 213; 214; 216; 217; 218; 219; 220;
        221; 222]%N).

Definition latin1_smalls : string :=
  string_of_list_ascii
    (map ascii_of_N
       [224; 225; 226; 227; 228; 229; 230; 231; 232; 233; 234; 235; 236; 237;
        238; 239; 240; 241; 242; 243; 244; 245; 246; 248; 249; 250; 251; 252;
        253; 254]%N).

(** The character occurs in the string. *)
Fixpoint in_string (c : ascii) (s : string) : bool :=
  match s with
  | EmptyString => false
  | String k r => (Ascii.eqb c k || in_string c r)%bool
  end.

(** An alphanumeric character in the words of the specification: an ASCII
    letter of either case or a digit. *)
Definition is_alnum (c : ascii) : bool :=
  in_string c (small_letters ++ capital_letters ++ digits).

Definition hyphen : ascii := "-"%char.
Definition comma : ascii := ","%char.

(** [String.prototype.toLowerCase] on one code unit below U+0100: the ASCII
    capitals and the Latin-1 capitals U+00C0..U+00DE, U+00D7 (the
    multiplication sign) apart, move up by 32.  Below U+0100 the mapping is
    one code unit for one; beyond, it is not, and the slug of such titles is
    [slug_of_units] below. *)
Definition lower_char (c : ascii) : ascii :=
  if (is_upper c || (in_range 192 222 c && negb (N.eqb (N_of_ascii c) 215)))%bool
  then ascii_of_N (N_of_ascii c + 32)
  else c.

Fixpoint toLowerCase (s : string) : string :=
  match s with
  | EmptyString => EmptyString
  | String c r => String (lower_char c) (toLowerCase r)
  end.

(** [s.replace(/[^a-z0-9]+/g, '-')]: outside a match a character of the
    class is copied and any other character opens a match, which writes one
    hyphen; [skip_run] is the scan inside a match, which the greedy [+]
    extends over every following character outside the class. *)
Fixpoint replace_runs (s : string) : string :=
  match s with
  | EmptyString => EmptyString
  | String c r =>
      if is_lower_alnum c then String c (replace_runs r)
      else String hyphen (skip_run r)
  end
with skip_run (s : string) : string :=
  match s with
  | EmptyString => EmptyString
  | String c r =>
      if is_lower_alnum c then String c (replace_runs r)
      else skip_run r
  end.

(** [s.replace(/(^-|-$)/g, '')]: the alternative [^-] can only match at
    index 0 and [-$] only at the last index, so the expression removes a
    hyphen that is the first character and a hyphen that is the last one. *)
Definition strip_leading_hyphen (s : string) : string :=
  match s with
  | String c r => if Ascii.eqb c hyphen then r else s
  | EmptyString => EmptyString
  end.

Fixpoint strip_trailing_hyphen (s : string) : string :=
  match s with
  | EmptyString => EmptyString
  | String c EmptyString => if Ascii.eqb c hyphen then EmptyString else s
  | String c r => String c (strip_trailing_hyphen r)
  end.

Definition replace_edge_hyphens (s : string) : string :=
  strip_trailing_hyphen (strip_leading_hyphen s).

(** The slug of the create handler:
    [title.toLowerCase().replace(/[^a-z0-9]+/g, '-').replace(/(^-|-$)/g, '')]. *)
Definition slug_of_title (title : string) : string :=
  replace_edge_hyphens (replace_runs (toLowerCase title)).

(** *** The slug in the words of the specification *)

(** The maximal runs of a string: its decomposition into blocks of
    characters that are all alphanumeric ([true]) or all not ([false]),
    neighbouring blocks being of different kinds. *)
Fixpoint runs (s : string) : list (bool * string) :=
  match s with
  | EmptyString => []
  | String c r =>
      match runs r with
      | (b, w) :: rest =>
          if Bool.eqb b (is_alnum c) then (b, String c w) :: rest
          else (is_alnum c, String c EmptyString) :: (b, w) :: rest
      | [] => [(is_alnum c, String c EmptyString)]
      end
  end.

Definition hyphen_for_run (r : bool * string) : string :=
  if fst r then snd r else String hyphen EmptyString.

Fixpoint concat_strings (l : list string) : string :=
  match l with
  | [] => EmptyString
  | w :: r => w ++ concat_strings r
  end.

Fixpoint drop_leading_hyphens (s : string) : string :=
  match s with
  | String c r => if Ascii.eqb c hyphen then drop_leading_hyphens r else s
  | EmptyString => EmptyString
  end.

Fixpoint drop_trailing_hyphens (s : string) : string :=
  match s with
  | EmptyString => EmptyString
  | String c r =>
      match drop_trailing_hyphens r with
      | EmptyString => if Ascii.eqb c hyphen then EmptyString else String c EmptyString
      | r' => String c r'
      end
  end.

(** Lowercasing in the words of the specification: a capital letter gives
    way to the small letter at the same place of the alphabet, and every
    other character stays. *)
Fixpoint small_of (c : ascii) (capitals smalls : string) : ascii :=
  match capitals, smalls with
  | String k ks, String m ms => if Ascii.eqb c k then m else small_of c ks ms
  | _, _ => c
  end.

Fixpoint lowercased (s : string) : string :=
  match s with
  | EmptyString => EmptyString
  | String c r =>
      String (small_of c (capital_letters ++ latin1_capitals)
                         (small_letters ++ latin1_smalls))
             (lowercased r)
  end.

(** Lowercase, replace each maximal run of non-alphanumeric characters with
    a single hyphen, trim the leading and trailing hyphens. *)
Definition spec_slug (title : string) : string :=
  drop_trailing_hyphens
    (drop_leading_hyphens
       (concat_strings (map hyphen_for_run (runs (lowercased title))))).

(** The characters of a slug in the words of the specification: lowercase
    alphanumerics and the hyphen. *)
Definition slug_alphabet : string := small_letters ++ digits ++ "-".

(** Shape of a slug. *)
Fixpoint all_chars (P : ascii -> bool) (s : string) : bool :=
  match s with
  | EmptyString => true
  | String c r => (P c && all_chars P r)%bool
  end.

Definition slug_char (c : ascii) : bool :=
  (is_lower_alnum c || Ascii.eqb c hyphen)%bool.

Fixpoint has_double_hyphen (s : string) : bool :=
  match s with
  | String c r =>
      match r with
      | String d _ => (Ascii.eqb c hyphen && Ascii.eqb d hyphen) || has_double_hyphen r
      | EmptyString => false
      end
  | EmptyString => false
  end%bool.

Definition starts_with_hyphen (s : string) : bool :=
  match s with
  | String c _ => Ascii.eqb c hyphen
  | EmptyString => false
  end.

Fixpoint ends_with_hyphen (s : string) : bool :=
  match s with
  | EmptyString => false
  | String c EmptyString => Ascii.eqb c hyphen
  | String _ r => ends_with_hyphen r
  end.

(** ** The slug over 16-bit code units *)

(** A string of JavaScript is a sequence of 16-bit code units, and the
    strings above hold the code units below U+0100. The two [replace] calls
    are given here over code units of any value: the expressions have no
    [u] flag, so they scan code unit by code unit. The table of
    [toLowerCase] beyond U+0100 is the engine's; a title can get longer
    under it (U+0130 gives two code units) and a character outside ASCII can
    give an ASCII letter (U+212A gives [k]), so the lowercasing is the
    parameter [lower] of the slug. *)
Definition unit_lower_alnum (u : N) : bool :=
  ((N.leb 97 u && N.leb u 122) || (N.leb 48 u && N.leb u 57))%bool.

Definition hyphen_unit : N := 45.

Fixpoint replace_runs_units (s : list N) : list N :=
  match s with
  | [] => []
  | u :: r =>
      if unit_lower_alnum u then u :: replace_runs_units r
      else hyphen_unit :: skip_run_units r
  end
with skip_run_units (s : list N) : list N :=
  match s with
  | [] => []
  | u :: r =>
      if unit_lower_alnum u then u :: replace_runs_units r
      else skip_run_units r
  end.

Definition strip_leading_hyphen_units (s : list N) : list N :=
  match s with
  | u :: r => if N.eqb u hyphen_unit then r else s
  | [] => []
  end.

Fixpoint strip_trailing_hyphen_units (s : list N) : list N :=
  match s with
  | [] => []
  | [u] => if N.eqb u hyphen_unit then [] else s
  | u :: r => u :: strip_trailing_hyphen_units r
  end.

Definition replace_edge_hyphens_units (s : list N) : list N :=
  strip_trailing_hyphen_units (strip_leading_hyphen_units s).

Definition slug_of_units (lower : list N -> list N) (title : list N) : list N :=
  replace_edge_hyphens_units (replace_runs_units (lower title)).

(** The code units of a string of code units below U+0100. *)
Definition units (s : string) : list N :=
  map N_of_ascii (list_ascii_of_string s).

Definition slug_unit (u : N) : bool :=
  (unit_lower_alnum u || N.eqb u hyphen_unit)%bool.

Fixpoint has_double_hyphen_units (s : list N) : bool :=
  match s with
  | u :: r =>
      match r with
      | v :: _ => (N.eqb u hyphen_unit && N.eqb v hyphen_unit)
                  || has_double_hyphen_units r
      | [] => false
      end
  | [] => false
  end%bool.

Definition starts_with_hyphen_units (s : list N) : bool :=
  match s with
  | u :: _ => N.eqb u hyphen_unit
  | [] => false
  end.

Fixpoint ends_with_hyphen_units (s : list N) : bool :=
  match s with
  | [] => false
  | [u] => N.eqb u hyphen_unit
  | _ :: r => ends_with_hyphen_units r
  end.

(** *** The slug over code units in the words of the specification *)

(** Alphanumeric code units and capitals: the code units of the alphabets
    written out above. *)
Definition unit_alnum (u : N) : bool :=
  existsb (N.eqb u) (units (small_letters ++ capital_letters ++ digits)).

Definition unit_capital (u : N) : bool :=
  existsb (N.eqb u) (units capital_letters).

Fixpoint runs_units (s : list N) : list (bool * list N) :=
  match s with
  | [] => []
  | u :: r =>
      match runs_units r with
      | (b, w) :: rest =>
          if Bool.eqb b (unit_alnum u) then (b, u :: w) :: rest
          else (unit_alnum u, [u]) :: (b, w) :: rest
      | [] => [(unit_alnum u, [u])]
      end
  end.

Definition hyphen_for_run_units (r : bool * list N) : list N :=
  if fst r then snd r else [hyphen_unit].

Fixpoint drop_leading_hyphens_units (s : list N) : list N :=
  match s with
  | u :: r => if N.eqb u hyphen_unit then drop_leading_hyphens_units r else s
  | [] => []
  end.

Fixpoint drop_trailing_hyphens_units (s : list N) : list N :=
  match s with
  | [] => []
  | u :: r =>
      match drop_trailing_hyphens_units r with
      | [] => if N.eqb u hyphen_unit then [] else [u]
      | r' => u :: r'
      end
  end.

(** Lowercase, replace each maximal run of non-alphanumeric code units with
    a single hyphen, trim the leading and trailing hyphens. *)
Definition spec_slug_units (lower : list N -> list N) (title : list N) : list N :=
  drop_trailing_hyphens_units
    (drop_leading_hyphens_units
       (concat (map hyphen_for_run_units (runs_units (lower title))))).

(** ** Tag lists as strings *)

(** [s.split(',')]: the pieces between the commas; a string without comma,
    the empty one included, is a single piece. *)
Fixpoint split_comma (s : string) : list string :=
  match s with
  | EmptyString => [EmptyString]
  | String c r =>
      if Ascii.eqb c comma then EmptyString :: split_comma r
      else match split_comma r with
           | w :: rest => String c w :: rest
           | [] => [String c EmptyString]
           end
  end.

(** White space of [String.prototype.trim] below U+0100: TAB, LF, VT, FF,
    CR, SPACE and the no-break space U+00A0. *)
Definition is_space (c : ascii) : bool :=
  (in_range 9 13 c || N.eqb (N_of_ascii c) 32 || N.eqb (N_of_ascii c) 160)%bool.

Fixpoint trim_start (s : string) : string :=
  match s with
  | String c r => if is_space c then trim_start r else s
  | EmptyString => EmptyString
  end.

Fixpoint trim_end (s : string) : string :=
  match s with
  | EmptyString => EmptyString
  | String c r =>
      match trim_end r with
      | EmptyString => if is_space c then EmptyString else String c EmptyString
      | r' => String c r'
      end
  end.

Definition trim (s : string) : string := trim_end (trim_start s).

(** Truthiness of a string: [t => t] keeps the non-empty ones. *)
Definition truthy (s : string) : bool :=
  match s with
  | EmptyString => false
  | String _ _ => true
  end.

(** [s.split(',').map(t => t.trim()).filter(t => t)], the fallback of the
    tag parsing. *)
Definition comma_list (s : string) : list string :=
  filter truthy (map trim (split_comma s)).

(** *** The fallback in the words of the specification *)

(** The white space that trimming removes, listed by code. *)
Definition white_space : list N := [9; 10; 11; 12; 13; 32; 160]%N.

Definition is_white (c : ascii) : bool :=
  existsb (N.eqb (N_of_ascii c)) white_space.

Fixpoint drop_white (l : list ascii) : list ascii :=
  match l with
  | c :: r => if is_white c then drop_white r else l
  | [] => []
  end.

(** A string trimmed: without the white space at its start and, by the
    same scan of the reversed string, at its end. *)
Definition trimmed (s : string) : string :=
  string_of_list_ascii
    (rev (drop_white (rev (drop_white (list_ascii_of_string s))))).

(** The pieces of a text between its commas, by a scan that collects the
    characters of the current piece, last character first, in [piece]. *)
Fixpoint pieces (piece : list ascii) (l : list ascii) : list string :=
  match l with
  | [] => [string_of_list_ascii (rev piece)]
  | c :: r =>
      if Ascii.eqb c ","%char
      then string_of_list_ascii (rev piece) :: pieces [] r
      else pieces (c :: piece) r
  end.

(** Split on commas, each piece trimmed, the empty pieces dropped. *)
Definition spec_comma_list (s : string) : list string :=
  filter (fun t => negb (String.eqb t EmptyString))
         (map trimmed (pieces [] (list_ascii_of_string s))).

(** Neither the first nor the last character of the string is white
    space. *)
Definition no_white_edges (t : string) : Prop :=
  (forall c, hd_error (list_ascii_of_string t) = Some c -> is_white c = false)
  /\ (forall c, hd_error (rev (list_ascii_of_string t)) = Some c -> is_white c = false).

(** The text that [GROUP_CONCAT] builds from the values of a group: the
    values separated by commas. *)
Fixpoint join_comma (l : list string) : string :=
  match l with
  | [] => EmptyString
  | [w] => w
  | w :: r => w ++ String comma (join_comma r)
  end.

(** [GROUP_CONCAT(t.name)]: NULL when the group has no non-NULL value. *)
Definition GROUP_CONCAT (names : list string) : option string :=
  match names with
  | [] => None
  | _ :: _ => Some (join_comma names)
  end.

(** [row.tags ? row.tags.split(',') : []], applied to the aggregate of every
    row read: NULL and the empty string are both falsy. *)
Definition tags_of_aggregate (agg : option string) : list string :=
  match agg with
  | None => []
  | Some s => if truthy s then split_comma s else []
  end.

Fixpoint has_comma (s : string) : bool :=
  match s with
  | EmptyString => false
  | String c r => (Ascii.eqb c comma || has_comma r)%bool
  end.

(** The characters of a string, one string each: what [for ... of] visits. *)
Fixpoint chars (s : string) : list string :=
  match s with
  | EmptyString => []
  | String c r => String c EmptyString :: chars r
  end.

(** ** Values of the tags field *)

(** What [JSON.parse] can give for the tags field, as far as the handlers
    tell the values apart: an array of strings, a string, [null], or a value
    without [length], that is a number or a boolean.  Arrays with elements
    that are not strings are outside the model.  Objects are not represented
    either: an object whose [length] is greater than 0 makes the loop over
    the tags throw before its first statement, as [null] does, and any other
    object is skipped as a number is. *)
Inductive jsval : Type :=
| JArr (items : list string)
| JStr (s : string)
| JNull
| JScalar.

(** ** The store *)

(** Modelled from the spec: the tables [posts], [tags] and [post_tags] of
    the module [./db], which is not among the sources (section 3: a post has
    an identifier, title, slug, content, excerpt, optional image reference,
    status and created timestamp; a tag an identifier and a name; an
    association a post identifier and a tag identifier).  A table is the list
    of its rows in insertion order. *)
Record post : Type := mkPost {
  p_id : nat;
  p_title : string;
  p_slug : string;
  p_content : option string;
  p_excerpt : option string;
  p_featured_image : option string;
  p_status : string;
  p_created_at : nat
}.

Record tag : Type := mkTag { t_id : nat; t_name : string }.

Record post_tag : Type := mkPostTag { pt_post_id : nat; pt_tag_id : nat }.

Record DB : Type := mkDB {
  posts : list post;
  tags : list tag;
  post_tags : list post_tag
}.

Definition empty_db : DB := mkDB [] [] [].

(** Modelled from the spec: the identifier that the store assigns to a new
    row ([lastID]), one more than the largest identifier in the table. *)
Definition next_id (ids : list nat) : nat := S (fold_right Nat.max 0 ids).

(** *** The statements of [index.js] *)

(** The names that the two LEFT JOINs attach to the post [pid]: for every
    association of the post, in table order, the name of every tag with the
    associated identifier.  An association without tag joins a NULL name,
    which the aggregate ignores.  The order of the names within a group is
    the store's choice: the statements do not fix it, and the table order
    taken here is one choice among the permutations of the list (see
    [reads_tags] below for the reads under any of them). *)
Definition joined_names (d : DB) (pid : nat) : list string :=
  flat_map
    (fun pt => map t_name (filter (fun t => Nat.eqb (t_id t) (pt_tag_id pt)) (tags d)))
    (filter (fun pt => Nat.eqb (pt_post_id pt) pid) (post_tags d)).

(** A row of [SELECT p.*, GROUP_CONCAT(t.name) as tags ... GROUP BY p.id]. *)
Record row : Type := mkRow { row_post : post; row_tags : option string }.

Definition select_row (d : DB) (p : post) : row :=
  mkRow p (GROUP_CONCAT (joined_names d (p_id p))).

(** [ORDER BY p.created_at DESC]: insertion into a list that is already in
    descending order, behind the rows that are more recent. *)
Fixpoint insert_desc (r : row) (l : list row) : list row :=
  match l with
  | [] => [r]
  | x :: rest =>
      if Nat.ltb (p_created_at (row_post r)) (p_created_at (row_post x))
      then x :: insert_desc r rest
      else r :: x :: rest
  end.

Fixpoint order_by_created_desc (l : list row) : list row :=
  match l with
  | [] => []
  | r :: rest => insert_desc r (order_by_created_desc rest)
  end.

(** [SELECT p.*, GROUP_CONCAT(t.name) as tags FROM posts p LEFT JOIN
    post_tags pt ON p.id = pt.post_id LEFT JOIN tags t ON pt.tag_id = t.id
    GROUP BY p.id ORDER BY p.created_at DESC]. *)
Definition select_posts (d : DB) : list row :=
  order_by_created_desc (map (select_row d) (posts d)).

(** The same join with [WHERE p.slug = ?], read with [db.get]: the first
    row, if any. *)
Definition select_post_by_slug (d : DB) (slug : string) : option row :=
  option_map (select_row d)
    (find (fun p => String.eqb (p_slug p) slug) (posts d)).

(** The same join with [WHERE p.id = ?], read with [db.get]. *)
Definition select_post_by_id (d : DB) (id : nat) : option row :=
  option_map (select_row d) (find (fun p => Nat.eqb (p_id p) id) (posts d)).

(** [INSERT INTO posts (title, slug, content, excerpt, featured_image,
    status) VALUES (?, ?, ?, ?, ?, ?)], at the time [now] of the store's
    clock, which fills [created_at]; the result is [lastID]. *)
Definition insert_post (d : DB) (now : nat) (title slug : string)
    (content excerpt featured_image : option string) (status : string)
    : nat * DB :=
  let id := next_id (map p_id (posts d)) in
  (id,
   mkDB (posts d ++ [mkPost id title slug content excerpt featured_image status now])
        (tags d) (post_tags d)).

(** [SELECT id FROM tags WHERE name = ?], read with [db.get]. *)
Definition select_tag_id (d : DB) (name : string) : option nat :=
  option_map t_id (find (fun t => String.eqb (t_name t) name) (tags d)).

(** [INSERT INTO tags (name) VALUES (?)]; the result is [lastID]. *)
Definition insert_tag (d : DB) (name : string) : nat * DB :=
  let id := next_id (map t_id (tags d)) in
  (id, mkDB (posts d) (tags d ++ [mkTag id name]) (post_tags d)).

(** [INSERT INTO post_tags (post_id, tag_id) VALUES (?, ?)]. *)
Definition insert_post_tag (d : DB) (post_id tag_id : nat) : DB :=
  mkDB (posts d) (tags d) (post_tags d ++ [mkPostTag post_id tag_id]).

(** [UPDATE posts SET title = ?, content = ?, excerpt = ?, status = ?
    [, featured_image = ?] WHERE id = ?]: the image column is set only when
    the request carries a file. *)
Definition update_row (title : string) (content excerpt : option string)
    (status : string) (image : option string) (p : post) : post :=
  mkPost (p_id p) title (p_slug p) content excerpt
         (match image with Some path => Some path | None => p_featured_image p end)
         status (p_created_at p).

Definition update_post (d : DB) (id : nat) (title : string)
    (content excerpt : option string) (status : string) (image : option string)
    : DB :=
  mkDB (map (fun p => if Nat.eqb (p_id p) id
                      then update_row title content excerpt status image p
                      else p) (posts d))
       (tags d) (post_tags d).

(** [DELETE FROM post_tags WHERE post_id = ?]. *)
Definition delete_post_tags (d : DB) (id : nat) : DB :=
  mkDB (posts d) (tags d)
       (filter (fun pt => negb (Nat.eqb (pt_post_id pt) id)) (post_tags d)).

(** [DELETE FROM posts WHERE id = ?]; the result is [changes], the number
    of rows deleted. *)
Definition delete_post (d : DB) (id : nat) : nat * DB :=
  (length (filter (fun p => Nat.eqb (p_id p) id) (posts d)),
   mkDB (filter (fun p => negb (Nat.eqb (p_id p) id)) (posts d))
        (tags d) (post_tags d)).

(** ** Handlers *)

(** The statements sent to the store, in the order of their execution. *)
Inductive stmt : Type :=
| SelectPosts
| SelectPostBySlug (slug : string)
| SelectPostById (id : nat)
| InsertPost (title slug : string)
| UpdatePost (id : nat)
| DeletePost (id : nat)
| SelectTagByName (name : string)
| InsertTag (name : string)
| InsertPostTag (post_id tag_id : nat)
| DeletePostTags (post_id : nat).

(** The store and the statements it has executed so far. *)
Record world : Type := mkWorld { w_db : DB; w_log : list stmt }.

(** The exceptions that the handler bodies raise themselves: reading a
    property of [undefined] or [null]. *)
Inductive exn : Type := TypeError.

Inductive result (A : Type) : Type :=
| Ok (a : A)
| Throw (e : exn).
Arguments Ok {A} a.
Arguments Throw {A} e.

(** A computation of a handler body: it changes the world and returns or
    throws; what it did to the store before throwing stays done. *)
Definition M (A : Type) : Type := world -> result A * world.

Definition ret {A} (a : A) : M A := fun w => (Ok a, w).

Definition throw {A} (e : exn) : M A := fun w => (Throw e, w).

Definition bind {A B} (m : M A) (k : A -> M B) : M B :=
  fun w =>
    match m w with
    | (Ok a, w') => k a w'
    | (Throw e, w') => (Throw e, w')
    end.

Notation "x <- m ;; k" := (bind m (fun x => k))
  (at level 61, m at next level, right associativity).
Notation "m ;;; k" := (bind m (fun _ => k))
  (at level 61, right associativity).

(** A statement that reads the store. *)
Definition db_read {A} (s : stmt) (q : DB -> A) : M A :=
  fun w => (Ok (q (w_db w)), mkWorld (w_db w) (w_log w ++ [s])).

(** A statement that writes the store and returns a value. *)
Definition db_write {A} (s : stmt) (q : DB -> A * DB) : M A :=
  fun w => let (a, d) := q (w_db w) in (Ok a, mkWorld d (w_log w ++ [s])).

Fixpoint for_each {A} (f : A -> M unit) (l : list A) : M unit :=
  match l with
  | [] => ret tt
  | x :: r => f x ;;; for_each f r
  end.

(** The JSON bodies of the responses.  The [details] member of an error
    body, the message of the exception, is left out. *)
Record post_json : Type := mkPostJson { j_post : post; j_tags : list string }.

Inductive json_body : Type :=
| JPosts (l : list post_json)
| JPost (p : post_json)
| JError (error : string)
| JSuccess.

Record response : Type := mkResponse { status : nat; body : json_body }.

(** [try { ... } catch (error) { res.status(500).json(...) }]. *)
Definition try_catch (m : M response) (handler : exn -> response)
    : world -> response * world :=
  fun w =>
    match m w with
    | (Ok r, w') => (r, w')
    | (Throw e, w') => (handler e, w')
    end.

(** [post.tags = post.tags ? post.tags.split(',') : []]. *)
Definition with_tags (r : row) : post_json :=
  mkPostJson (row_post r) (tags_of_aggregate (row_tags r)).

(** The text fields of [req.body]. *)
Record form : Type := mkForm {
  f_title : option string;
  f_content : option string;
  f_excerpt : option string;
  f_status : option string;
  f_tags : option string
}.

(** Truthiness of a field: [undefined] and the empty string are falsy. *)
Definition field_truthy (f : option string) : bool :=
  match f with
  | Some s => truthy s
  | None => false
  end.

(** [status = 'draft'] in the destructuring of [req.body]. *)
Definition status_of (f : form) : string :=
  match f_status f with
  | Some s => s
  | None => "draft"
  end.

Section Service.

(** [JSON.parse] on a string: [None] when it throws a SyntaxError. *)
Variable JSON_parse : string -> option jsval.

(** The tag parsing that opens the create and the update handler:
    [try { tags = req.body.tags ? JSON.parse(req.body.tags) : [] }
     catch (e) { tags = req.body.tags
       ? req.body.tags.split(',').map(t => t.trim()).filter(t => t) : [] }]. *)
Definition parse_tags (f : form) : jsval :=
  match (match f_tags f with
         | Some s => if truthy s then JSON_parse s else Some (JArr [])
         | None => Some (JArr [])
         end) with
  | Some v => v
  | None =>
      match f_tags f with
      | Some s => if truthy s then JArr (comma_list s) else JArr []
      | None => JArr []
      end
  end.

(** The body of the loop over the tags: look the tag up by name, insert it
    when there is none, associate it with the post. *)
Definition link_tag (post_id : nat) (tagName : string) : M unit :=
  tag <- db_read (SelectTagByName tagName) (fun d => select_tag_id d tagName) ;;
  tag_id <- match tag with
            | Some id => ret id
            | None => db_write (InsertTag tagName) (fun d => insert_tag d tagName)
            end ;;
  db_write (InsertPostTag post_id tag_id)
           (fun d => (tt, insert_post_tag d post_id tag_id)).

(** [if (tags.length > 0) { for (const tagName of tags) { ... } }]:
    reading [length] of [null] throws, a number or a boolean has none, and
    the loop over a string visits its characters. *)
Definition link_tags (post_id : nat) (tags : jsval) : M unit :=
  match tags with
  | JArr items =>
      if Nat.ltb 0 (List.length items) then for_each (link_tag post_id) items
      else ret tt
  | JStr s =>
      if Nat.ltb 0 (String.length s) then for_each (link_tag post_id) (chars s)
      else ret tt
  | JNull => throw TypeError
  | JScalar => ret tt
  end.

(** The row that the write handlers read back: [post.tags] of [undefined]
    throws when the row is missing. *)
Definition refetch (id : nat) (code : nat) : M response :=
  r <- db_read (SelectPostById id) (fun d => select_post_by_id d id) ;;
  match r with
  | Some r => ret (mkResponse code (JPost (with_tags r)))
  | None => throw TypeError
  end.

(** [app.get('/api/posts')]. *)
Definition GET_posts : world -> response * world :=
  try_catch
    (rows <- db_read SelectPosts select_posts ;;
     ret (mkResponse 200 (JPosts (map with_tags rows))))
    (fun _ => mkResponse 500 (JError "Failed to fetch posts")).

(** [app.get('/api/posts/slug/:slug')]. *)
Definition GET_post_by_slug (slug : string) : world -> response * world :=
  try_catch
    (r <- db_read (SelectPostBySlug slug) (fun d => select_post_by_slug d slug) ;;
     match r with
     | None => ret (mkResponse 404 (JError "Post not found"))
     | Some r => ret (mkResponse 200 (JPost (with_tags r)))
     end)
    (fun _ => mkResponse 500 (JError "Failed to fetch post")).

(** [app.post('/api/posts')], for a request that passed the upload
    middleware, at the time [now] of the store's clock. *)
Definition POST_posts (now : nat) (f : form) (file : option string)
    : world -> response * world :=
  try_catch
    (let tags := parse_tags f in
     title <- match f_title f with
              | Some t => ret t
              | None => throw TypeError
              end ;;
     let slug := slug_of_title title in
     let featured_image := option_map (String.append "/uploads/") file in
     lastID <- db_write (InsertPost title slug)
                 (fun d => insert_post d now title slug (f_content f)
                             (f_excerpt f) featured_image (status_of f)) ;;
     link_tags lastID tags ;;;
     refetch lastID 201)
    (fun _ => mkResponse 500 (JError "Failed to create post")).

(** [app.put('/api/posts/:id')], for a request that passed the upload
    middleware. *)
Definition PUT_post (id : nat) (f : form) (file : option string)
    : world -> response * world :=
  try_catch
    (let tags := parse_tags f in
     match f_title f with
     | Some title =>
         if truthy title then
           let image := option_map (String.append "/uploads/") file in
           db_write (UpdatePost id)
             (fun d => (tt, update_post d id title (f_content f) (f_excerpt f)
                              (status_of f) image)) ;;;
           db_write (DeletePostTags id) (fun d => (tt, delete_post_tags d id)) ;;;
           link_tags id tags ;;;
           refetch id 200
         else ret (mkResponse 400 (JError "Title is required"))
     | None => ret (mkResponse 400 (JError "Title is required"))
     end)
    (fun _ => mkResponse 500 (JError "Failed to update post")).

(** [app.delete('/api/posts/:id')]. *)
Definition DELETE_post (id : nat) : world -> response * world :=
  try_catch
    (db_write (DeletePostTags id) (fun d => (tt, delete_post_tags d id)) ;;;
     changes <- db_write (DeletePost id) (fun d => delete_post d id) ;;
     if Nat.eqb changes 0
     then ret (mkResponse 404 (JError "Post not found"))
     else ret (mkResponse 200 JSuccess))
    (fun _ => mkResponse 500 (JError "Failed to delete post")).

End Service.

(** ** A reader for JSON arrays of plain strings *)

(** The handlers are stated for any [JSON.parse].  To run them on concrete
    requests, [json_string_array] reads the JSON texts that are an array of
    string literals without escape sequences, with optional white space
    between the tokens, as [JSON.parse] reads them, and answers [None] on
    every other text.  That is what [JSON.parse] does on a text that is not
    JSON, such as [x, y], but not on the other JSON texts (numbers, literals,
    strings, objects, other arrays): the examples below apply it to arrays of
    plain strings and to texts that are not JSON only. *)
Definition dquote : ascii := ascii_of_N 34.
Definition backslash : ascii := ascii_of_N 92.

Definition is_json_space (c : ascii) : bool :=
  (N.eqb (N_of_ascii c) 32 || N.eqb (N_of_ascii c) 9
   || N.eqb (N_of_ascii c) 10 || N.eqb (N_of_ascii c) 13)%bool.

Fixpoint skip_json_space (s : string) : string :=
  match s with
  | String c r => if is_json_space c then skip_json_space r else s
  | EmptyString => EmptyString
  end.

(** The characters of a string literal after its opening quote, and the
    text behind its closing quote. *)
Fixpoint json_literal (s : string) : option (string * string) :=
  match s with
  | EmptyString => None
  | String c r =>
      if Ascii.eqb c dquote then Some (EmptyString, r)
      else if (Ascii.eqb c backslash || N.ltb (N_of_ascii c) 32)%bool then None
      else match json_literal r with
           | Some (w, rest) => Some (String c w, rest)
           | None => None
           end
  end.

(** The elements of an array from its first literal on. *)
Fixpoint json_elements (fuel : nat) (s : string) : option (list string) :=
  match fuel with
  | 0 => None
  | S fuel' =>
      match skip_json_space s with
      | String q r =>
          if Ascii.eqb q dquote then
            match json_literal r with
            | Some (w, rest) =>
                match skip_json_space rest with
                | String c rest' =>
                    if Ascii.eqb c comma
                    then option_map (cons w) (json_elements fuel' rest')
                    else if Ascii.eqb c "]"%char
                    then match skip_json_space rest' with
                         | EmptyString => Some [w]
                         | String _ _ => None
                         end
                    else None
                | EmptyString => None
                end
            | None => None
            end
          else None
      | EmptyString => None
      end
  end.

Definition json_string_array (s : string) : option jsval :=
  match skip_json_space s with
  | String c r =>
      if Ascii.eqb c "["%char then
        match skip_json_space r with
        | String d r' =>
            if Ascii.eqb d "]"%char
            then match skip_json_space r' with
                 | EmptyString => Some (JArr [])
                 | String _ _ => None
                 end
            else option_map JArr (json_elements (String.length s) r)
        | EmptyString => None
        end
      else None
  | EmptyString => None
  end.

(** The JSON text of an array of plain strings. *)
Definition quoted (s : string) : string :=
  String dquote (s ++ String dquote EmptyString).

Definition json_text (items : list string) : string :=
  "[" ++ join_comma (map quoted items) ++ "]".

(** A form with a title and a tags field only. *)
Definition form_of (title tags : option string) : form :=
  mkForm title None None None tags.

Definition start : world := mkWorld empty_db [].

Definition run {A} (h : world -> A * world) (w : world) : world := snd (h w).

(** ** Notions of the statements below *)

(** The first character is white space for [trim]. *)
Definition starts_with_space (s : string) : bool :=
  match s with
  | String c _ => is_space c
  | EmptyString => false
  end.

(** The store after the body of the loop has run for one name. *)
Definition link_db (d : DB) (post_id : nat) (name : string) : DB :=
  match select_tag_id d name with
  | Some tag_id => insert_post_tag d post_id tag_id
  | None => insert_post_tag (snd (insert_tag d name)) post_id (fst (insert_tag d name))
  end.

(** The statements that it has sent. *)
Definition link_log (d : DB) (post_id : nat) (name : string) : list stmt :=
  match select_tag_id d name with
  | Some tag_id => [SelectTagByName name; InsertPostTag post_id tag_id]
  | None => [SelectTagByName name; InsertTag name;
             InsertPostTag post_id (fst (insert_tag d name))]
  end.

(** The store after the loop over the names, and the statements sent. *)
Fixpoint link_all_db (d : DB) (post_id : nat) (names : list string) : DB :=
  match names with
  | [] => d
  | n :: r => link_all_db (link_db d post_id n) post_id r
  end.

Fixpoint link_all_log (d : DB) (post_id : nat) (names : list string) : list stmt :=
  match names with
  | [] => []
  | n :: r => link_log d post_id n ++ link_all_log (link_db d post_id n) post_id r
  end.

(** A statement of the tag loop. *)
Definition tag_stmt (s : stmt) : bool :=
  match s with
  | SelectTagByName _ | InsertTag _ | InsertPostTag _ _ => true
  | _ => false
  end.

(** The associations that a sequence of statements inserts. *)
Fixpoint links_of (log : list stmt) : list post_tag :=
  match log with
  | [] => []
  | InsertPostTag p t :: r => mkPostTag p t :: links_of r
  | _ :: r => links_of r
  end.

(** The identifier is a key of the tag table; so is the name. *)
Definition unique_tag_ids (d : DB) : Prop := NoDup (map t_id (tags d)).

Definition unique_tag_names (d : DB) : Prop := NoDup (map t_name (tags d)).

(** The order of the listing: a row is not followed by a more recent one. *)
Definition created (r : row) : nat := p_created_at (row_post r).

Definition desc (x y : row) : Prop := created y <= created x.

(** The names that the loop visits for a value of the tags field. *)
Definition items_of (v : jsval) : list string :=
  match v with
  | JArr items => items
  | JStr s => chars s
  | JNull | JScalar => []
  end.

(** The row that a write handler reads back, or the answer of its [catch]. *)
Definition answer (code : nat) (failure : string) (v : jsval) (d : DB) (id : nat)
    : response :=
  match v with
  | JNull => mkResponse 500 (JError failure)
  | _ => match select_post_by_id d id with
         | Some r => mkResponse code (JPost (with_tags r))
         | None => mkResponse 500 (JError failure)
         end
  end.

(** The statement of the re-fetch, when the loop has not thrown. *)
Definition refetch_log (v : jsval) (id : nat) : list stmt :=
  match v with
  | JNull => []
  | _ => [SelectPostById id]
  end.

(** The tag rows of [d'] are those of [d] followed by new rows, one for each
    of the [names] that [d] did not hold, and none else. *)
Definition extends_tags (d d' : DB) (names : list string) : Prop :=
  exists ext,
    tags d' = tags d ++ ext
    /\ NoDup (map t_name ext)
    /\ (forall t, In t ext ->
          In (t_name t) names /\ ~ In (t_name t) (map t_name (tags d)))
    /\ (forall n, In n names -> In n (map t_name (tags d'))).

(** [json_string_array], and besides it the texts [null], which
    [JSON.parse] reads as [null], and the texts that are one string literal
    without escape sequences, which it reads as that string. *)
Definition json_null_or_array (s : string) : option jsval :=
  if String.eqb s "null" then Some JNull
  else match s with
       | String q r =>
           if Ascii.eqb q dquote then
             match json_literal r with
             | Some (t, EmptyString) => Some (JStr t)
             | _ => None
             end
           else json_string_array s
       | EmptyString => None
       end.

(** ** The upload middleware and the error handler *)

(** The errors that reach the error-handling middleware: an instance of
    [multer.MulterError] with its [code], or any other error. *)
Inductive error : Type :=
| MulterError (code : string)
| OtherError.

(** [app.use((err, req, res, next) => { ... })], the [details] member of
    the bodies left out as in the handlers. *)
Definition error_handler (err : error) : response :=
  match err with
  | MulterError code =>
      if String.eqb code "LIMIT_FILE_SIZE"
      then mkResponse 400 (JError "File size too large. Maximum size is 5MB.")
      else mkResponse 400 (JError "File upload error")
  | OtherError => mkResponse 500 (JError "Internal server error")
  end.

(** What [upload.single('featured_image')] makes of a request: it passes
    the request on, with the stored file if there is one, or it passes an
    error on, which takes the request past the route handler to the error
    handler. *)
Inductive upload : Type :=
| Uploaded (file : option string)
| Rejected (err : error).

(** [app.post('/api/posts', upload.single('featured_image'), handler)] and
    [app.put('/api/posts/:id', upload.single('featured_image'), handler)]. *)
Definition route_POST_posts (JSON_parse : string -> option jsval) (now : nat)
    (f : form) (u : upload) (w : world) : response * world :=
  match u with
  | Uploaded file => POST_posts JSON_parse now f file w
  | Rejected err => (error_handler err, w)
  end.

Definition route_PUT_post (JSON_parse : string -> option jsval) (id : nat)
    (f : form) (u : upload) (w : world) : response * world :=
  match u with
  | Uploaded file => PUT_post JSON_parse id f file w
  | Rejected err => (error_handler err, w)
  end.

(** What an update leaves of a row [p] of the store in the row [q] that
    takes its place: identifier, slug and created timestamp stay; a row of
    another post stays as a whole; the row of the post takes the title,
    content, excerpt and status of the request, and the path of the uploaded
    file when there is one. *)
Definition updated_row (id : nat) (title : string) (f : form) (file : option string)
    (p q : post) : Prop :=
  p_id q = p_id p /\ p_slug q = p_slug p /\ p_created_at q = p_created_at p
  /\ (p_id p <> id -> q = p)
  /\ (p_id p = id ->
      p_title q = title /\ p_content q = f_content f /\ p_excerpt q = f_excerpt f
      /\ p_status q = status_of f
      /\ (file = None -> p_featured_image q = p_featured_image p)
      /\ (forall name, file = Some name ->
            p_featured_image q = Some (String.append "/uploads/" name))).

(** The statements of the reads have no ORDER BY inside the aggregate, so
    that the store is free in the order in which it concatenates the names
    of a group; the order of the association table, which [joined_names]
    takes, is one of these orders. [reads_tags d pid ts]: the tag array [ts]
    is what a read makes of the post [pid] under some order of its names. *)
Definition reads_tags (d : DB) (pid : nat) (ts : list string) : Prop :=
  exists order,
    Permutation order (joined_names d pid)
    /\ ts = tags_of_aggregate (GROUP_CONCAT order).

(** A row of the posts table, its image column left out. *)
Definition without_image (p : post) : post :=
  mkPost (p_id p) (p_title p) (p_slug p) (p_content p) (p_excerpt p) None
         (p_status p) (p_created_at p).

(** The row is not a row of the post [id]. *)
Definition keeps_row (id : nat) (r : row) : bool := negb (Nat.eqb (p_id (row_post r)) id).

(** ** The post page *)

(** The computations of the effect and of [getCategoryBreadcrumbs] in the
    component [BlogPost], on the posts as the list operation gives them. *)

(** [posts.filter(p => p?.status === 'published')]. *)
Definition publishedPosts (posts : list post_json) : list post_json :=
  filter (fun p => String.eqb (p_status (j_post p)) "published") posts.

(** [l.findIndex(g)]: the index of the first element that satisfies [g],
    counted from [i] for the head, or -1. *)
Fixpoint findIndex_from {A} (g : A -> bool) (i : Z) (l : list A) : Z :=
  match l with
  | [] => (-1)%Z
  | x :: r => if g x then i else findIndex_from g (i + 1)%Z r
  end.

Definition findIndex {A} (g : A -> bool) (l : list A) : Z := findIndex_from g 0%Z l.

(** [l[i]] for an integer index: [undefined] outside the list. *)
Definition at_index {A} (l : list A) (i : Z) : option A :=
  if (i <? 0)%Z then None else nth_error l (Z.to_nat i).

Record adjacent : Type := mkAdjacent {
  previous : option post_json;
  next : option post_json
}.

(** [currentIndex = publishedPosts.findIndex(p => p.slug === slug)] and
    [{ previous: currentIndex > 0 ? publishedPosts[currentIndex - 1] : null,
       next: currentIndex < publishedPosts.length - 1
             ? publishedPosts[currentIndex + 1] : null }]. *)
Definition currentIndex (slug : string) (posts : list post_json) : Z :=
  findIndex (fun p => String.eqb (p_slug (j_post p)) slug) (publishedPosts posts).

Definition adjacentPosts (slug : string) (posts : list post_json) : adjacent :=
  let published := publishedPosts posts in
  let i := currentIndex slug posts in
  mkAdjacent
    (if (0 <? i)%Z then at_index published (i - 1)%Z else None)
    (if (i <? Z.of_nat (List.length published) - 1)%Z
     then at_index published (i + 1)%Z else None).

Section Related.

(** The relevance score is a floating-point number and the order that
    [sort] gives depends on it: the sort is a parameter, of which the
    statements assume that it permutes its argument. *)
Variable sort_by_relevance : list post_json -> list post_json.

(** [publishedPosts.filter(p => p.slug !== slug && ...).map(score)
    .sort(by score).slice(0, 3).map(({ post }) => post)]; the tags of a post
    of the listing are an array. *)
Definition related (slug : string) (posts : list post_json) : list post_json :=
  firstn 3
    (sort_by_relevance
       (filter (fun p => negb (String.eqb (p_slug (j_post p)) slug))
               (publishedPosts posts))).

End Related.

Section Breadcrumbs.

(** The type [Category] is declared outside the sources: a category has an
    identifier, a name and the identifier of its parent, if any.  The type of
    the identifiers, [===] on them and their text in a template literal are
    parameters. *)
Variable K : Type.
Variable K_eqb : K -> K -> bool.
Variable K_text : K -> string.

Record category : Type := mkCategory {
  c_id : K;
  c_name : string;
  c_parent_id : option K
}.

Record crumb : Type := mkCrumb { label : string; path : string }.

Variable categories : list category.

(** [{ label: currentCategory.name,
       path: `/blog?category=${currentCategory.id}` }]. *)
Definition crumb_of (c : category) : crumb :=
  mkCrumb (c_name c) (String.append "/blog?category=" (K_text (c_id c))).

(** [categories.find(c => c.id === currentCategory?.parent_id)]. *)
Definition parent_of (c : category) : option category :=
  match c_parent_id c with
  | Some pid => find (fun c' => K_eqb (c_id c') pid) categories
  | None => None
  end.

(** The loop [while (currentCategory) { breadcrumbs.unshift(...);
    currentCategory = categories.find(...) }], for [fuel] rounds at most:
    [None] when the loop has not ended by then. *)
Fixpoint breadcrumbs_loop (fuel : nat) (currentCategory : option category)
    (breadcrumbs : list crumb) : option (list crumb) :=
  match currentCategory with
  | None => Some breadcrumbs
  | Some c =>
      match fuel with
      | 0 => None
      | S fuel' => breadcrumbs_loop fuel' (parent_of c) (crumb_of c :: breadcrumbs)
      end
  end.

Definition getCategoryBreadcrumbs (fuel : nat) (category : category)
    : option (list crumb) :=
  breadcrumbs_loop fuel (Some category) [].

(** The category that the loop holds after [n] rounds, if it has not ended. *)
Fixpoint nth_parent (n : nat) (c : category) : option category :=
  match n with
  | 0 => Some c
  | S n' => match parent_of c with
            | Some p => nth_parent n' p
            | None => None
            end
  end.

(** The ancestors of a category as the loop meets them, the last one met,
    which has no parent in the list, first. *)
Inductive lineage : list category -> category -> Prop :=
| lineage_root (c : category) : parent_of c = None -> lineage [] c
| lineage_step (c p : category) (l : list category) :
    parent_of c = Some p -> lineage l p -> lineage (l ++ [p]) c.

End Breadcrumbs.

Arguments mkCategory {K} _ _ _.
Arguments c_id {K} _.
Arguments c_name {K} _.
Arguments c_parent_id {K} _.
Arguments lineage {K} _ _ _ _.

(** Some character of the string satisfies [P]. *)
Fixpoint any_char (P : ascii -> bool) (s : string) : bool :=
  match s with
  | EmptyString => false
  | String c r => (P c || any_char P r)%bool
  end.

(** * Properties *)

(** ** Some runs *)

Example slug_of_greeting : slug_of_title "  Hello, World! 2x " = "hello-world-2x".
Proof. reflexivity. Qed.

Example spec_slug_of_greeting : spec_slug "  Hello, World! 2x " = "hello-world-2x".
Proof. reflexivity. Qed.

Example slug_of_symbols : slug_of_title "?!" = EmptyString.
Proof. reflexivity. Qed.

Example slug_keeps_digits : slug_of_title "--Node 18.2--" = "node-18-2".
Proof. reflexivity. Qed.

Example split_of_nothing : split_comma EmptyString = [EmptyString].
Proof. reflexivity. Qed.

Example comma_list_of_fields : comma_list " news, , rocq ,x" = ["news"; "rocq"; "x"].
Proof. reflexivity. Qed.

Example read_array : json_string_array (json_text ["a,b"; "c"]) = Some (JArr ["a,b"; "c"]).
Proof. reflexivity. Qed.

Example read_fields : json_string_array "x, y" = None.
Proof. reflexivity. Qed.

Example create_with_fields :
  POST_posts json_string_array 5 (form_of (Some "First post") (Some "x, y")) None start
  = (mkResponse 201
       (JPost (mkPostJson (mkPost 1 "First post" "first-post" None None None "draft" 5)
                          ["x"; "y"])),
     mkWorld (mkDB [mkPost 1 "First post" "first-post" None None None "draft" 5]
                   [mkTag 1 "x"; mkTag 2 "y"] [mkPostTag 1 1; mkPostTag 1 2])
             [InsertPost "First post" "first-post";
              SelectTagByName "x"; InsertTag "x"; InsertPostTag 1 1;
              SelectTagByName "y"; InsertTag "y"; InsertPostTag 1 2;
              SelectPostById 1]).
Proof. reflexivity. Qed.

(** ** The slug *)

Ltac all_ascii c :=
  destruct c as [[] [] [] [] [] [] [] []]; vm_compute; try reflexivity; try discriminate.

Lemma lower_char_not_upper (c : ascii) : is_upper (lower_char c) = false.
Proof. all_ascii c. Qed.

Lemma lower_alnum_not_hyphen (c : ascii) :
  is_lower_alnum c = true -> Ascii.eqb c hyphen = false.
Proof. all_ascii c. Qed.

Lemma alnum_without_upper (c : ascii) :
  is_upper c = false -> is_alnum c = is_lower_alnum c.
Proof. all_ascii c. Qed.

Lemma small_of_lower_char (c : ascii) :
  small_of c (capital_letters ++ latin1_capitals) (small_letters ++ latin1_smalls)
  = lower_char c.
Proof. all_ascii c. Qed.

(** The lowercasing of the specification is that of the code. *)
Lemma lowercased_toLowerCase (s : string) : lowercased s = toLowerCase s.
Proof.
  induction s as [|c r IH]; [reflexivity|].
  cbn [lowercased toLowerCase]. now rewrite small_of_lower_char, IH.
Qed.

Lemma slug_char_alphabet (c : ascii) : in_string c slug_alphabet = slug_char c.
Proof. all_ascii c. Qed.

Lemma toLowerCase_no_upper (s : string) :
  all_chars (fun c => negb (is_upper c)) (toLowerCase s) = true.
Proof.
  induction s as [|c r IH]; simpl; [reflexivity|].
  now rewrite lower_char_not_upper, IH.
Qed.

Lemma has_double_hyphen_cons (c : ascii) (r : string) :
  has_double_hyphen (String c r)
  = ((Ascii.eqb c hyphen && starts_with_hyphen r) || has_double_hyphen r)%bool.
Proof. destruct r; simpl; [now rewrite andb_false_r|reflexivity]. Qed.

(** Both scans write characters of the slug alphabet only. *)
Lemma replace_runs_chars (s : string) :
  all_chars slug_char (replace_runs s) = true
  /\ all_chars slug_char (skip_run s) = true.
Proof.
  induction s as [|c r [IH1 IH2]]; simpl; [now split|].
  destruct (is_lower_alnum c) eqn:E; simpl.
  - unfold slug_char at 1 3. rewrite E. simpl. now split.
  - now split.
Qed.

(** A match writes one hyphen and the scan behind it writes none first. *)
Lemma replace_runs_single (s : string) :
  has_double_hyphen (replace_runs s) = false
  /\ has_double_hyphen (skip_run s) = false
  /\ starts_with_hyphen (skip_run s) = false.
Proof.
  induction s as [|c r (IH1 & IH2 & IH3)]; [now repeat split|].
  cbn [replace_runs skip_run].
  destruct (is_lower_alnum c) eqn:E.
  - rewrite has_double_hyphen_cons, IH1. cbn [starts_with_hyphen].
    now rewrite (lower_alnum_not_hyphen c E).
  - rewrite has_double_hyphen_cons, IH2, IH3. now rewrite andb_false_r.
Qed.

Lemma runs_nil (s : string) : runs s = [] -> s = EmptyString.
Proof.
  destruct s as [|c r]; [reflexivity|]. simpl.
  destruct (runs r) as [|[b w] rest]; [discriminate|].
  destruct (Bool.eqb b (is_alnum c)); discriminate.
Qed.

(** The kind of the first run is the kind of the first character. *)
Lemma runs_head (s : string) (b : bool) (w : string) (rest : list (bool * string)) :
  runs s = (b, w) :: rest ->
  exists c r, s = String c r /\ is_alnum c = b.
Proof.
  destruct s as [|c r]; [discriminate|]. simpl. intros H.
  exists c, r. split; [reflexivity|].
  destruct (runs r) as [|[b' w'] rest'].
  - now inversion H.
  - destruct (Bool.eqb b' (is_alnum c)) eqn:E.
    + apply eqb_prop in E. now inversion H; subst.
    + now inversion H.
Qed.

(** On a string without capitals, replacing each maximal run of
    non-alphanumeric characters with a hyphen is what the expression does. *)
Lemma runs_replace (s : string) :
  all_chars (fun c => negb (is_upper c)) s = true ->
  concat_strings (map hyphen_for_run (runs s)) = replace_runs s.
Proof.
  induction s as [|c r IH]; [reflexivity|].
  cbn [all_chars]. intros H. apply andb_prop in H as [Hc Hr].
  apply negb_true_iff in Hc. specialize (IH Hr).
  cbn [runs replace_runs]. rewrite <- (alnum_without_upper c Hc).
  destruct (runs r) as [|[b w] rest] eqn:Er.
  - apply runs_nil in Er. subst r.
    unfold hyphen_for_run. simpl. now destruct (is_alnum c).
  - destruct (runs_head _ _ _ _ Er) as (c' & r' & -> & Hb).
    cbn [all_chars] in Hr. apply andb_prop in Hr as [Hc' _].
    apply negb_true_iff in Hc'.
    cbn [replace_runs skip_run] in *.
    rewrite <- (alnum_without_upper c' Hc') in *. rewrite Hb in *.
    cbn [map concat_strings] in IH.
    destruct b, (is_alnum c); cbn [Bool.eqb map concat_strings];
      unfold hyphen_for_run in *; cbn [fst snd] in *; simpl in *;
      now rewrite ?IH.
Qed.

Lemma drop_leading_none (s : string) :
  starts_with_hyphen s = false -> drop_leading_hyphens s = s.
Proof. destruct s as [|c r]; simpl; [reflexivity|]. now intros ->. Qed.

(** On a string without two hyphens in a row, trimming all the leading
    hyphens removes at most the first character. *)
Lemma drop_leading_strip (s : string) :
  has_double_hyphen s = false ->
  drop_leading_hyphens s = strip_leading_hyphen s.
Proof.
  destruct s as [|c r]; [reflexivity|].
  rewrite has_double_hyphen_cons. cbn [drop_leading_hyphens strip_leading_hyphen].
  destruct (Ascii.eqb c hyphen); [|reflexivity].
  intros H. apply orb_false_elim in H as [H _]. simpl in H.
  now apply drop_leading_none.
Qed.

Lemma strip_trailing_empty (c : ascii) (r : string) :
  strip_trailing_hyphen (String c r) = EmptyString ->
  Ascii.eqb c hyphen = true /\ r = EmptyString.
Proof.
  destruct r; simpl.
  - destruct (Ascii.eqb c hyphen); [now split|discriminate].
  - discriminate.
Qed.

(** Likewise at the end of the string. *)
Lemma drop_trailing_strip (s : string) :
  has_double_hyphen s = false ->
  drop_trailing_hyphens s = strip_trailing_hyphen s.
Proof.
  induction s as [|c r IH]; [reflexivity|].
  rewrite has_double_hyphen_cons. intros H.
  apply orb_false_elim in H as [Hc Hr]. specialize (IH Hr).
  cbn [drop_trailing_hyphens]. rewrite IH.
  destruct r as [|d r']; [reflexivity|].
  change (strip_trailing_hyphen (String c (String d r')))
    with (String c (strip_trailing_hyphen (String d r'))).
  destruct (strip_trailing_hyphen (String d r')) eqn:E; [|reflexivity].
  apply strip_trailing_empty in E as [Hd ->].
  cbn [starts_with_hyphen] in Hc. rewrite Hd, andb_true_r in Hc.
  now rewrite Hc.
Qed.

Lemma strip_leading_chars (P : ascii -> bool) (s : string) :
  all_chars P s = true -> all_chars P (strip_leading_hyphen s) = true.
Proof.
  destruct s as [|c r]; [reflexivity|]. simpl.
  intros H. destruct (Ascii.eqb c hyphen); [|exact H].
  now apply andb_prop in H.
Qed.

Lemma strip_trailing_chars (P : ascii -> bool) (s : string) :
  all_chars P s = true -> all_chars P (strip_trailing_hyphen s) = true.
Proof.
  induction s as [|c r IH]; [reflexivity|].
  intros H. cbn [all_chars] in H. apply andb_prop in H as [Hc Hr].
  destruct r as [|d r'].
  - simpl. destruct (Ascii.eqb c hyphen); simpl; [reflexivity|now rewrite Hc].
  - change (strip_trailing_hyphen (String c (String d r')))
      with (String c (strip_trailing_hyphen (String d r'))).
    cbn [all_chars]. now rewrite Hc, IH.
Qed.

Lemma strip_leading_single (s : string) :
  has_double_hyphen s = false ->
  has_double_hyphen (strip_leading_hyphen s) = false
  /\ starts_with_hyphen (strip_leading_hyphen s) = false.
Proof.
  destruct s as [|c r]; [now split|].
  rewrite has_double_hyphen_cons. intros H.
  apply orb_false_elim in H as [Hc Hr].
  cbn [strip_leading_hyphen]. destruct (Ascii.eqb c hyphen) eqn:E.
  - now split.
  - rewrite has_double_hyphen_cons, Hr, E. cbn [starts_with_hyphen]. now split.
Qed.

Lemma strip_trailing_starts (s : string) :
  starts_with_hyphen s = false ->
  starts_with_hyphen (strip_trailing_hyphen s) = false.
Proof.
  destruct s as [|c [|d r]]; simpl; try easy.
  intros H. rewrite H. exact H.
Qed.

Lemma strip_trailing_single (s : string) :
  has_double_hyphen s = false ->
  has_double_hyphen (strip_trailing_hyphen s) = false
  /\ ends_with_hyphen (strip_trailing_hyphen s) = false.
Proof.
  induction s as [|c r IH]; [now split|].
  rewrite has_double_hyphen_cons. intros H.
  apply orb_false_elim in H as [Hc Hr]. destruct (IH Hr) as [I1 I2].
  destruct r as [|d r'].
  - simpl. destruct (Ascii.eqb c hyphen) eqn:E; simpl; now rewrite ?E.
  - change (strip_trailing_hyphen (String c (String d r')))
      with (String c (strip_trailing_hyphen (String d r'))).
    rewrite has_double_hyphen_cons, I1.
    destruct (Ascii.eqb c hyphen) eqn:E.
    + cbn [andb] in Hc.
      rewrite (strip_trailing_starts _ Hc). split; [reflexivity|].
      destruct (strip_trailing_hyphen (String d r')) eqn:Es; [|exact I2].
      apply strip_trailing_empty in Es as [Hd _].
      cbn [starts_with_hyphen] in Hc. congruence.
    + split; [reflexivity|].
      destruct (strip_trailing_hyphen (String d r')) eqn:Es; [|exact I2].
      simpl. exact E.
Qed.

Lemma all_chars_ext (P Q : ascii -> bool) (s : string) :
  (forall c, P c = Q c) -> all_chars P s = all_chars Q s.
Proof.
  intros H. induction s as [|c r IH]; [reflexivity|]. simpl. now rewrite H, IH.
Qed.

(** What the two expressions make of any string. *)
Lemma replace_shape (s : string) :
  let r := replace_edge_hyphens (replace_runs s) in
  all_chars (fun c => in_string c slug_alphabet) r = true
  /\ has_double_hyphen r = false
  /\ starts_with_hyphen r = false
  /\ ends_with_hyphen r = false.
Proof.
  unfold replace_edge_hyphens.
  assert (Hs : has_double_hyphen (replace_runs s) = false) by apply replace_runs_single.
  destruct (strip_leading_single _ Hs) as [H1 H2].
  destruct (strip_trailing_single _ H1) as [H3 H4].
  cbv zeta. split; [|split; [|split]].
  - rewrite (all_chars_ext _ slug_char) by apply slug_char_alphabet.
    apply strip_trailing_chars, strip_leading_chars, replace_runs_chars.
  - exact H3.
  - now apply strip_trailing_starts.
  - exact H4.
Qed.

Lemma slug_shape (title : string) :
  all_chars slug_char (slug_of_title title) = true
  /\ has_double_hyphen (slug_of_title title) = false
  /\ starts_with_hyphen (slug_of_title title) = false
  /\ ends_with_hyphen (slug_of_title title) = false.
Proof.
  unfold slug_of_title, replace_edge_hyphens.
  set (s := replace_runs (toLowerCase title)).
  assert (Hs : has_double_hyphen s = false) by apply replace_runs_single.
  destruct (strip_leading_single s Hs) as [H1 H2].
  destruct (strip_trailing_single _ H1) as [H3 H4].
  repeat split; auto.
  - apply strip_trailing_chars, strip_leading_chars, replace_runs_chars.
  - now apply strip_trailing_starts.
Qed.

(** The slug of the code is the slug of the specification. *)
Lemma slug_refines (title : string) : slug_of_title title = spec_slug title.
Proof.
  unfold slug_of_title, spec_slug, replace_edge_hyphens.
  rewrite lowercased_toLowerCase.
  rewrite (runs_replace _ (toLowerCase_no_upper title)).
  set (s := replace_runs (toLowerCase title)).
  assert (Hs : has_double_hyphen s = false) by apply replace_runs_single.
  destruct (strip_leading_single s Hs) as [H1 H2].
  now rewrite (drop_leading_strip s Hs), (drop_trailing_strip _ H1).
Qed.

(** *** Over 16-bit code units *)

Lemma unit_alnum_not_hyphen (u : N) :
  unit_lower_alnum u = true -> N.eqb u hyphen_unit = false.
Proof.
  intros H. destruct (N.eqb_spec u hyphen_unit) as [->|]; [|reflexivity].
  vm_compute in H. discriminate.
Qed.

Lemma has_double_hyphen_units_cons (u : N) (r : list N) :
  has_double_hyphen_units (u :: r)
  = ((N.eqb u hyphen_unit && starts_with_hyphen_units r)
     || has_double_hyphen_units r)%bool.
Proof. destruct r; simpl; [now rewrite andb_false_r|reflexivity]. Qed.

Lemma strip_trailing_units_cons (u v : N) (r : list N) :
  strip_trailing_hyphen_units (u :: v :: r)
  = u :: strip_trailing_hyphen_units (v :: r).
Proof. reflexivity. Qed.

Lemma replace_runs_units_chars (s : list N) :
  forallb slug_unit (replace_runs_units s) = true
  /\ forallb slug_unit (skip_run_units s) = true.
Proof.
  induction s as [|u r [IH1 IH2]]; [now split|].
  cbn [replace_runs_units skip_run_units].
  destruct (unit_lower_alnum u) eqn:E; cbn [forallb].
  - unfold slug_unit at 1 3. rewrite E, IH1. now split.
  - rewrite IH2. now split.
Qed.

Lemma replace_runs_units_single (s : list N) :
  has_double_hyphen_units (replace_runs_units s) = false
  /\ has_double_hyphen_units (skip_run_units s) = false
  /\ starts_with_hyphen_units (skip_run_units s) = false.
Proof.
  induction s as [|u r (IH1 & IH2 & IH3)]; [now repeat split|].
  cbn [replace_runs_units skip_run_units].
  destruct (unit_lower_alnum u) eqn:E.
  - rewrite has_double_hyphen_units_cons, IH1. cbn [starts_with_hyphen_units].
    now rewrite (unit_alnum_not_hyphen u E).
  - rewrite has_double_hyphen_units_cons, IH2, IH3. now rewrite andb_false_r.
Qed.

Lemma strip_trailing_units_empty (u : N) (r : list N) :
  strip_trailing_hyphen_units (u :: r) = [] ->
  N.eqb u hyphen_unit = true /\ r = [].
Proof.
  destruct r; simpl.
  - destruct (N.eqb u hyphen_unit); [now split|discriminate].
  - discriminate.
Qed.

Lemma strip_leading_units_chars (P : N -> bool) (s : list N) :
  forallb P s = true -> forallb P (strip_leading_hyphen_units s) = true.
Proof.
  destruct s as [|u r]; [reflexivity|]. simpl.
  intros H. destruct (N.eqb u hyphen_unit); [|exact H].
  now apply andb_prop in H.
Qed.

Lemma strip_trailing_units_chars (P : N -> bool) (s : list N) :
  forallb P s = true -> forallb P (strip_trailing_hyphen_units s) = true.
Proof.
  induction s as [|u r IH]; [reflexivity|].
  intros H. cbn [forallb] in H. apply andb_prop in H as [Hu Hr].
  destruct r as [|v r'].
  - simpl. destruct (N.eqb u hyphen_unit); simpl; [reflexivity|now rewrite Hu].
  - rewrite strip_trailing_units_cons. cbn [forallb]. now rewrite Hu, IH.
Qed.

Lemma strip_leading_units_single (s : list N) :
  has_double_hyphen_units s = false ->
  has_double_hyphen_units (strip_leading_hyphen_units s) = false
  /\ starts_with_hyphen_units (strip_leading_hyphen_units s) = false.
Proof.
  destruct s as [|u r]; [now split|].
  rewrite has_double_hyphen_units_cons. intros H.
  apply orb_false_elim in H as [Hu Hr].
  cbn [strip_leading_hyphen_units]. destruct (N.eqb u hyphen_unit) eqn:E.
  - now split.
  - rewrite has_double_hyphen_units_cons, Hr, E.
    cbn [starts_with_hyphen_units]. now split.
Qed.

Lemma strip_trailing_units_starts (s : list N) :
  starts_with_hyphen_units s = false ->
  starts_with_hyphen_units (strip_trailing_hyphen_units s) = false.
Proof.
  destruct s as [|u [|v r]]; simpl; try easy.
  intros H. rewrite H. exact H.
Qed.

Lemma strip_trailing_units_single (s : list N) :
  has_double_hyphen_units s = false ->
  has_double_hyphen_units (strip_trailing_hyphen_units s) = false
  /\ ends_with_hyphen_units (strip_trailing_hyphen_units s) = false.
Proof.
  induction s as [|u r IH]; [now split|].
  rewrite has_double_hyphen_units_cons. intros H.
  apply orb_false_elim in H as [Hu Hr]. destruct (IH Hr) as [I1 I2].
  destruct r as [|v r'].
  - simpl. destruct (N.eqb u hyphen_unit) eqn:E; simpl; now rewrite ?E.
  - rewrite strip_trailing_units_cons, has_double_hyphen_units_cons, I1.
    destruct (N.eqb u hyphen_unit) eqn:E.
    + cbn [andb] in Hu.
      rewrite (strip_trailing_units_starts _ Hu). split; [reflexivity|].
      destruct (strip_trailing_hyphen_units (v :: r')) eqn:Es; [|exact I2].
      apply strip_trailing_units_empty in Es as [Hv _].
      cbn [starts_with_hyphen_units] in Hu. congruence.
    + split; [reflexivity|].
      destruct (strip_trailing_hyphen_units (v :: r')) eqn:Es; [|exact I2].
      simpl. exact E.
Qed.

(** What the two expressions make of any sequence of code units. *)
Lemma replace_units_shape (s : list N) :
  let r := replace_edge_hyphens_units (replace_runs_units s) in
  forallb slug_unit r = true
  /\ has_double_hyphen_units r = false
  /\ starts_with_hyphen_units r = false
  /\ ends_with_hyphen_units r = false.
Proof.
  unfold replace_edge_hyphens_units.
  assert (Hs : has_double_hyphen_units (replace_runs_units s) = false)
    by apply replace_runs_units_single.
  destruct (strip_leading_units_single _ Hs) as [H1 H2].
  destruct (strip_trailing_units_single _ H1) as [H3 H4].
  cbv zeta. split; [|split; [|split]].
  - apply strip_trailing_units_chars, strip_leading_units_chars,
      replace_runs_units_chars.
  - exact H3.
  - now apply strip_trailing_units_starts.
  - exact H4.
Qed.

(** On code units below U+0100 the scans are those of the strings above. *)
Lemma unit_lower_alnum_ascii (c : ascii) :
  unit_lower_alnum (N_of_ascii c) = is_lower_alnum c.
Proof. reflexivity. Qed.

Lemma hyphen_unit_ascii (c : ascii) :
  N.eqb (N_of_ascii c) hyphen_unit = Ascii.eqb c hyphen.
Proof. all_ascii c. Qed.

Lemma units_replace_runs (s : string) :
  replace_runs_units (units s) = units (replace_runs s)
  /\ skip_run_units (units s) = units (skip_run s).
Proof.
  induction s as [|c r [IH1 IH2]]; [now split|].
  change (units (String c r)) with (N_of_ascii c :: units r).
  cbn [replace_runs_units skip_run_units replace_runs skip_run].
  rewrite unit_lower_alnum_ascii, IH1, IH2.
  now destruct (is_lower_alnum c).
Qed.

Lemma units_strip_leading (s : string) :
  strip_leading_hyphen_units (units s) = units (strip_leading_hyphen s).
Proof.
  destruct s as [|c r]; [reflexivity|].
  change (units (String c r)) with (N_of_ascii c :: units r).
  cbn [strip_leading_hyphen_units strip_leading_hyphen].
  rewrite hyphen_unit_ascii. now destruct (Ascii.eqb c hyphen).
Qed.

Lemma units_strip_trailing (s : string) :
  strip_trailing_hyphen_units (units s) = units (strip_trailing_hyphen s).
Proof.
  induction s as [|c r IH]; [reflexivity|].
  destruct r as [|d r'].
  - change (units (String c EmptyString)) with [N_of_ascii c].
    cbn [strip_trailing_hyphen_units strip_trailing_hyphen].
    rewrite hyphen_unit_ascii. now destruct (Ascii.eqb c hyphen).
  - change (units (String c (String d r')))
      with (N_of_ascii c :: units (String d r')).
    change (units (String d r')) with (N_of_ascii d :: units r') at 1.
    rewrite strip_trailing_units_cons.
    change (N_of_ascii d :: units r') with (units (String d r')).
    rewrite IH. reflexivity.
Qed.

Lemma units_slug (lower : list N -> list N) (title : string) :
  lower (units title) = units (toLowerCase title) ->
  slug_of_units lower (units title) = units (slug_of_title title).
Proof.
  intros H. unfold slug_of_units, slug_of_title, replace_edge_hyphens_units,
    replace_edge_hyphens.
  rewrite H. destruct (units_replace_runs (toLowerCase title)) as [-> _].
  now rewrite units_strip_leading, units_strip_trailing.
Qed.

(** *** The slug over code units against the words of the specification *)

Lemma unit_alnum_ascii (c : ascii) : unit_alnum (N_of_ascii c) = is_alnum c.
Proof. all_ascii c. Qed.

Lemma unit_capital_ascii (c : ascii) : unit_capital (N_of_ascii c) = is_upper c.
Proof. all_ascii c. Qed.

Lemma units_below (l : string) (u : N) :
  (256 <= u)%N -> existsb (N.eqb u) (units l) = false.
Proof.
  intros H. induction l as [|c r IH]; [reflexivity|].
  change (units (String c r)) with (N_of_ascii c :: units r).
  cbn [existsb]. rewrite IH, orb_false_r.
  pose proof (N_ascii_bounded c) as B.
  destruct (N.eqb_spec u (N_of_ascii c)); [lia|reflexivity].
Qed.

Lemma unit_alnum_without_capital (u : N) :
  unit_capital u = false -> unit_alnum u = unit_lower_alnum u.
Proof.
  destruct (N.lt_ge_cases u 256) as [H|H].
  - rewrite <- (N_ascii_embedding u H).
    rewrite unit_alnum_ascii, unit_capital_ascii, unit_lower_alnum_ascii.
    apply alnum_without_upper.
  - intros _. unfold unit_alnum. rewrite (units_below _ u H).
    unfold unit_lower_alnum.
    destruct (N.leb_spec u 122), (N.leb_spec u 57); try lia;
      now rewrite !andb_false_r.
Qed.

Lemma runs_units_nil (s : list N) : runs_units s = [] -> s = [].
Proof.
  destruct s as [|u r]; [reflexivity|]. simpl.
  destruct (runs_units r) as [|[b w] rest]; [discriminate|].
  destruct (Bool.eqb b (unit_alnum u)); discriminate.
Qed.

Lemma runs_units_head (s : list N) (b : bool) (w : list N)
    (rest : list (bool * list N)) :
  runs_units s = (b, w) :: rest ->
  exists u r, s = u :: r /\ unit_alnum u = b.
Proof.
  destruct s as [|u r]; [discriminate|]. simpl. intros H.
  exists u, r. split; [reflexivity|].
  destruct (runs_units r) as [|[b' w'] rest'].
  - now inversion H.
  - destruct (Bool.eqb b' (unit_alnum u)) eqn:E.
    + apply eqb_prop in E. now inversion H; subst.
    + now inversion H.
Qed.

(** On code units without capitals, replacing each maximal run of
    non-alphanumeric code units with a hyphen is what the expression does. *)
Lemma runs_units_replace (s : list N) :
  forallb (fun u => negb (unit_capital u)) s = true ->
  concat (map hyphen_for_run_units (runs_units s)) = replace_runs_units s.
Proof.
  induction s as [|u r IH]; [reflexivity|].
  cbn [forallb]. intros H. apply andb_prop in H as [Hu Hr].
  apply negb_true_iff in Hu. specialize (IH Hr).
  cbn [runs_units replace_runs_units]. rewrite <- (unit_alnum_without_capital u Hu).
  destruct (runs_units r) as [|[b w] rest] eqn:Er.
  - apply runs_units_nil in Er. subst r.
    unfold hyphen_for_run_units. simpl. now destruct (unit_alnum u).
  - destruct (runs_units_head _ _ _ _ Er) as (u' & r' & -> & Hb).
    cbn [forallb] in Hr. apply andb_prop in Hr as [Hu' _].
    apply negb_true_iff in Hu'.
    cbn [replace_runs_units skip_run_units] in *.
    rewrite <- (unit_alnum_without_capital u' Hu') in *. rewrite Hb in *.
    cbn [map concat] in IH.
    destruct b, (unit_alnum u); cbn [Bool.eqb map concat];
      unfold hyphen_for_run_units in *; cbn [fst snd] in *; simpl in *;
      now rewrite ?IH.
Qed.

Lemma drop_leading_units_none (s : list N) :
  starts_with_hyphen_units s = false -> drop_leading_hyphens_units s = s.
Proof. destruct s as [|u r]; simpl; [reflexivity|]. now intros ->. Qed.

Lemma drop_leading_units_strip (s : list N) :
  has_double_hyphen_units s = false ->
  drop_leading_hyphens_units s = strip_leading_hyphen_units s.
Proof.
  destruct s as [|u r]; [reflexivity|].
  rewrite has_double_hyphen_units_cons.
  cbn [drop_leading_hyphens_units strip_leading_hyphen_units].
  destruct (N.eqb u hyphen_unit); [|reflexivity].
  intros H. apply orb_false_elim in H as [H _]. simpl in H.
  now apply drop_leading_units_none.
Qed.

Lemma drop_trailing_units_strip (s : list N) :
  has_double_hyphen_units s = false ->
  drop_trailing_hyphens_units s = strip_trailing_hyphen_units s.
Proof.
  induction s as [|u r IH]; [reflexivity|].
  rewrite has_double_hyphen_units_cons. intros H.
  apply orb_false_elim in H as [Hu Hr]. specialize (IH Hr).
  cbn [drop_trailing_hyphens_units]. rewrite IH.
  destruct r as [|v r']; [reflexivity|].
  rewrite strip_trailing_units_cons.
  destruct (strip_trailing_hyphen_units (v :: r')) eqn:E; [|reflexivity].
  apply strip_trailing_units_empty in E as [Hv ->].
  cbn [starts_with_hyphen_units] in Hu. rewrite Hv, andb_true_r in Hu.
  now rewrite Hu.
Qed.

(** Under a lowercasing that leaves no ASCII capital, the slug over code
    units is the slug of the specification. *)
Lemma units_slug_refines (lower : list N -> list N) (title : list N) :
  forallb (fun u => negb (unit_capital u)) (lower title) = true ->
  slug_of_units lower title = spec_slug_units lower title.
Proof.
  intros H. unfold slug_of_units, spec_slug_units, replace_edge_hyphens_units.
  rewrite (runs_units_replace _ H).
  set (s := replace_runs_units (lower title)).
  assert (Hs : has_double_hyphen_units s = false) by apply replace_runs_units_single.
  destruct (strip_leading_units_single s Hs) as [H1 H2].
  now rewrite (drop_leading_units_strip s Hs), (drop_trailing_units_strip _ H1).
Qed.

(** C2. For every title, the slug that the create handler derives is the
    title lowercased, with each maximal run of non-alphanumeric characters
    replaced by a single hyphen and the leading and trailing hyphens trimmed,
    the lowercasing, the alphanumerics and the trimming being those of the
    specification; it consists of lowercase letters, digits and hyphens, no
    two hyphens are adjacent, and it neither begins nor ends with a hyphen.
    The shape is that of whatever the two expressions are applied to: it does
    not rest on the lowercasing, and it holds as well of a title of 16-bit
    code units of any value under any lowercasing; there too the slug is
    that of the specification, when the lowercasing leaves no ASCII capital,
    and it is the slug above when the title and its lowercasing stay below
    U+0100. *)
Theorem slug_of_title_spec (title : string) :
  slug_of_title title = spec_slug title
  /\ all_chars slug_char (slug_of_title title) = true
  /\ has_double_hyphen (slug_of_title title) = false
  /\ starts_with_hyphen (slug_of_title title) = false
  /\ ends_with_hyphen (slug_of_title title) = false
  /\ all_chars (fun c => in_string c slug_alphabet) (slug_of_title title) = true
  /\ (forall s : string,
       let r := replace_edge_hyphens (replace_runs s) in
       all_chars (fun c => in_string c slug_alphabet) r = true
       /\ has_double_hyphen r = false
       /\ starts_with_hyphen r = false
       /\ ends_with_hyphen r = false)
  /\ (forall (lower : list N -> list N) (t : list N),
       let r := slug_of_units lower t in
       forallb slug_unit r = true
       /\ has_double_hyphen_units r = false
       /\ starts_with_hyphen_units r = false
       /\ ends_with_hyphen_units r = false)
  /\ (forall (lower : list N -> list N) (t : list N),
       forallb (fun u => negb (unit_capital u)) (lower t) = true ->
       slug_of_units lower t = spec_slug_units lower t)
  /\ (forall lower : list N -> list N,
       lower (units title) = units (toLowerCase title) ->
       slug_of_units lower (units title) = units (slug_of_title title)).
Proof.
  destruct (slug_shape title) as (A & B & C & D).
  split; [apply slug_refines|].
  split; [exact A|]. split; [exact B|]. split; [exact C|]. split; [exact D|].
  split; [apply (replace_shape (toLowerCase title))|].
  split; [apply replace_shape|].
  split; [intros lower t; apply replace_units_shape|].
  split; [intros lower t; apply units_slug_refines|].
  intros lower. apply units_slug.
Qed.

(** ** Splitting and joining at commas *)

Lemma split_comma_cons (s : string) : exists w rest, split_comma s = w :: rest.
Proof.
  destruct s as [|c r]; simpl; [now eexists _, _|].
  destruct (Ascii.eqb c comma); [now eexists _, _|].
  destruct (split_comma r); now eexists _, _.
Qed.

(** The pieces of a split, put together again with commas, are the string. *)
Lemma join_split_comma (s : string) : join_comma (split_comma s) = s.
Proof.
  induction s as [|c r IH]; [reflexivity|]. simpl.
  destruct (split_comma_cons r) as (w & rest & E). rewrite E in *.
  destruct (Ascii.eqb c comma) eqn:Ec.
  - apply Ascii.eqb_eq in Ec. subst c.
    change (join_comma (EmptyString :: w :: rest))
      with (String comma (join_comma (w :: rest))).
    now rewrite IH.
  - destruct rest; simpl in *; now rewrite IH.
Qed.

(** No piece of a split holds a comma. *)
Lemma split_comma_pieces (s : string) :
  Forall (fun w => has_comma w = false) (split_comma s).
Proof.
  induction s as [|c r IH]; simpl; [now repeat constructor|].
  destruct (Ascii.eqb c comma) eqn:Ec; [now constructor|].
  destruct (split_comma r); inversion IH; subst; constructor; simpl;
    rewrite ?Ec; auto.
Qed.

Lemma split_comma_plain (w : string) :
  has_comma w = false -> split_comma w = [w].
Proof.
  induction w as [|c r IH]; [reflexivity|]. simpl.
  intros H. apply orb_false_elim in H as [Hc Hr].
  now rewrite Hc, (IH Hr).
Qed.

Lemma split_comma_app (w r : string) :
  has_comma w = false ->
  split_comma (w ++ String comma r)%string = w :: split_comma r.
Proof.
  induction w as [|c w IH]; simpl.
  - intros _. reflexivity.
  - intros H. apply orb_false_elim in H as [Hc Hw].
    now rewrite Hc, (IH Hw).
Qed.

(** Joining names that hold no comma and splitting the text gives the
    names back, provided there is a name at all. *)
Lemma split_join_comma (l : list string) :
  l <> [] ->
  Forall (fun w => has_comma w = false) l ->
  split_comma (join_comma l) = l.
Proof.
  induction l as [|w r IH]; [congruence|].
  intros _ H. inversion H as [|? ? Hw Hr]; subst.
  destruct r as [|w' r'].
  - simpl. now apply split_comma_plain.
  - change (join_comma (w :: w' :: r'))
      with (w ++ String comma (join_comma (w' :: r')))%string.
    rewrite (split_comma_app _ _ Hw), IH; [reflexivity|congruence|exact Hr].
Qed.

Lemma join_comma_empty (l : list string) :
  join_comma l = EmptyString -> l = [] \/ l = [EmptyString].
Proof.
  destruct l as [|w [|w' r]]; simpl; auto.
  - intros ->. now right.
  - destruct w; discriminate.
Qed.

Lemma truthy_false (s : string) : truthy s = false -> s = EmptyString.
Proof. destruct s; [reflexivity|discriminate]. Qed.

(** What a read makes of the names associated with a post. *)
Lemma tags_of_aggregate_names (names : list string) :
  tags_of_aggregate (GROUP_CONCAT names)
  = match names with
    | [] => []
    | _ :: _ => if truthy (join_comma names) then split_comma (join_comma names) else []
    end.
Proof. now destruct names. Qed.

(** The names come back from the aggregate exactly when none of them holds
    a comma and they are not the empty name alone. *)
Lemma aggregate_roundtrip (names : list string) :
  tags_of_aggregate (GROUP_CONCAT names) = names
  <-> Forall (fun w => has_comma w = false) names /\ names <> [EmptyString].
Proof.
  rewrite tags_of_aggregate_names.
  destruct names as [|w r]; [split; [split; [constructor|discriminate]|reflexivity]|].
  destruct (truthy (join_comma (w :: r))) eqn:T.
  - split.
    + intros E. split.
      * rewrite <- E. apply split_comma_pieces.
      * intros E'. rewrite E' in T. discriminate.
    + intros [H _]. apply split_join_comma; [discriminate|exact H].
  - apply truthy_false, join_comma_empty in T as [T|T]; [discriminate|].
    rewrite T. split; [discriminate|]. now intros [_ H].
Qed.

(** *** The aggregate under another order of the names *)

Lemma split_comma_append (w r : string) :
  split_comma (w ++ String comma r)%string = split_comma w ++ split_comma r.
Proof.
  induction w as [|c w IH]; [reflexivity|]. simpl.
  destruct (Ascii.eqb c comma); [now rewrite IH|].
  rewrite IH. now destruct (split_comma_cons w) as (h & t & ->).
Qed.

Lemma split_join_pieces (l : list string) :
  l <> [] -> split_comma (join_comma l) = flat_map split_comma l.
Proof.
  induction l as [|w r IH]; [congruence|]. intros _.
  destruct r as [|w' r'].
  - simpl. now rewrite app_nil_r.
  - change (join_comma (w :: w' :: r'))
      with (w ++ String comma (join_comma (w' :: r')))%string.
    rewrite split_comma_append, IH; [reflexivity|congruence].
Qed.

Lemma permutation_of_empty_join (l l' : list string) :
  Permutation l l' -> l = [] \/ l = [EmptyString] ->
  l' = [] \/ l' = [EmptyString].
Proof.
  intros P [->| ->].
  - left. now apply Permutation_nil.
  - right. now apply Permutation_length_1_inv.
Qed.

Lemma truthy_join (l : list string) :
  truthy (join_comma l) = false <-> l = [] \/ l = [EmptyString].
Proof.
  split.
  - intros T. now apply join_comma_empty, truthy_false.
  - now intros [->| ->].
Qed.

(** Two orders of the same names give the same tags, up to their order,
    whatever the names are. *)
Lemma aggregate_permutation (l l' : list string) :
  Permutation l l' ->
  Permutation (tags_of_aggregate (GROUP_CONCAT l))
              (tags_of_aggregate (GROUP_CONCAT l')).
Proof.
  intros P. rewrite !tags_of_aggregate_names.
  destruct (truthy (join_comma l)) eqn:T, (truthy (join_comma l')) eqn:T'.
  - destruct l as [|w r]; [discriminate|]. destruct l' as [|w' r']; [discriminate|].
    rewrite !split_join_pieces by discriminate. now apply Permutation_flat_map.
  - apply truthy_join in T'.
    apply (permutation_of_empty_join l' l (Permutation_sym P)), truthy_join in T'.
    congruence.
  - apply truthy_join in T.
    apply (permutation_of_empty_join l l' P), truthy_join in T. congruence.
  - destruct l, l'; constructor.
Qed.

(** Names without comma, not the empty name alone, are read in the order
    in which the aggregate takes them. *)
Lemma aggregate_in_order (names order : list string) :
  Forall (fun w => has_comma w = false) names ->
  names <> [EmptyString] ->
  Permutation order names ->
  tags_of_aggregate (GROUP_CONCAT order) = order.
Proof.
  intros C E P. apply aggregate_roundtrip. split.
  - rewrite Forall_forall in *. intros w Hw. apply C.
    now apply (Permutation_in w P).
  - intros ->. apply Permutation_length_1_inv in P. contradiction.
Qed.


(** ** Trimming *)

Lemma trim_end_idempotent (s : string) : trim_end (trim_end s) = trim_end s.
Proof.
  induction s as [|c r IH]; [reflexivity|]. simpl.
  destruct (trim_end r) as [|d r'] eqn:E.
  - destruct (is_space c) eqn:Ec; simpl; [reflexivity|now rewrite Ec].
  - simpl. simpl in IH. now rewrite IH.
Qed.

Lemma trim_start_starts (s : string) : starts_with_space (trim_start s) = false.
Proof.
  induction s as [|c r IH]; [reflexivity|]. simpl.
  destruct (is_space c) eqn:E; [exact IH|]. simpl. exact E.
Qed.

Lemma trim_start_none (s : string) :
  starts_with_space s = false -> trim_start s = s.
Proof. destruct s; simpl; [reflexivity|]. now intros ->. Qed.

Lemma trim_end_starts (s : string) :
  starts_with_space s = false -> starts_with_space (trim_end s) = false.
Proof.
  destruct s as [|c r]; [reflexivity|]. simpl. intros H.
  destruct (trim_end r); [rewrite H|]; simpl; exact H.
Qed.

(** A trimmed string has no white space left to trim at either end. *)
Lemma trim_idempotent (s : string) : trim (trim s) = trim s.
Proof.
  unfold trim.
  rewrite (trim_start_none (trim_end (trim_start s))).
  - apply trim_end_idempotent.
  - apply trim_end_starts, trim_start_starts.
Qed.

Lemma trim_start_comma (s : string) :
  has_comma s = false -> has_comma (trim_start s) = false.
Proof.
  induction s as [|c r IH]; [reflexivity|]. simpl. intros H.
  apply orb_false_elim in H as [Hc Hr].
  destruct (is_space c); [now apply IH|]. simpl. now rewrite Hc, Hr.
Qed.

Lemma trim_end_comma (s : string) :
  has_comma s = false -> has_comma (trim_end s) = false.
Proof.
  induction s as [|c r IH]; [reflexivity|]. simpl. intros H.
  apply orb_false_elim in H as [Hc Hr]. specialize (IH Hr).
  destruct (trim_end r).
  - destruct (is_space c); simpl; [reflexivity|now rewrite Hc].
  - simpl in *. now rewrite Hc, IH.
Qed.

(** The tags of the fallback: non-empty, trimmed and without comma. *)
Lemma comma_list_items (s : string) :
  Forall (fun t => truthy t = true /\ trim t = t /\ has_comma t = false)
         (comma_list s).
Proof.
  unfold comma_list. apply Forall_forall. intros t Ht.
  apply filter_In in Ht as [Ht T]. apply in_map_iff in Ht as (w & <- & Hw).
  pose proof (split_comma_pieces s) as P.
  rewrite Forall_forall in P. specialize (P w Hw).
  repeat split; [exact T|apply trim_idempotent|].
  unfold trim. now apply trim_end_comma, trim_start_comma.
Qed.

(** *** The fallback against the words of the specification *)

Lemma is_space_white (c : ascii) : is_space c = is_white c.
Proof. all_ascii c. Qed.

Lemma string_of_list_ascii_app (l l' : list ascii) :
  string_of_list_ascii (l ++ l')
  = (string_of_list_ascii l ++ string_of_list_ascii l')%string.
Proof. induction l as [|c r IH]; [reflexivity|]. simpl. now rewrite IH. Qed.

Lemma append_empty (s : string) : (s ++ EmptyString)%string = s.
Proof. induction s as [|c r IH]; [reflexivity|]. simpl. now rewrite IH. Qed.

(** The scan with a collected piece gives the split of the text, the first
    piece behind what was collected. *)
Lemma pieces_split_comma (l piece : list ascii) :
  pieces piece l
  = match split_comma (string_of_list_ascii l) with
    | h :: t => (string_of_list_ascii (rev piece) ++ h)%string :: t
    | [] => []
    end.
Proof.
  revert piece. induction l as [|c r IH]; intros piece.
  - simpl. now rewrite append_empty.
  - cbn [pieces string_of_list_ascii split_comma].
    change (Ascii.eqb c comma) with (Ascii.eqb c ","%char).
    destruct (Ascii.eqb c ","%char).
    + rewrite append_empty. f_equal. rewrite IH. simpl.
      now destruct (split_comma (string_of_list_ascii r)).
    + rewrite IH.
      destruct (split_comma_cons (string_of_list_ascii r)) as (h & t & E).
      rewrite E. f_equal. cbn [rev]. rewrite string_of_list_ascii_app. simpl.
      generalize (string_of_list_ascii (rev piece)). intros u.
      induction u as [|d u IHu]; [reflexivity|]. simpl. now rewrite IHu.
Qed.

Lemma pieces_of_string (s : string) :
  pieces [] (list_ascii_of_string s) = split_comma s.
Proof.
  rewrite pieces_split_comma, string_of_list_ascii_of_string. simpl.
  now destruct (split_comma s).
Qed.

Lemma trim_start_list (s : string) :
  list_ascii_of_string (trim_start s) = drop_white (list_ascii_of_string s).
Proof.
  induction s as [|c r IH]; [reflexivity|]. simpl.
  rewrite <- is_space_white. now destruct (is_space c).
Qed.

Lemma drop_white_snoc (l : list ascii) (c : ascii) :
  drop_white (l ++ [c])
  = match drop_white l with
    | [] => if is_white c then [] else [c]
    | x :: r => (x :: r) ++ [c]
    end.
Proof.
  induction l as [|x r IH]; [reflexivity|]. simpl.
  now destruct (is_white x).
Qed.

Lemma trim_end_list (s : string) :
  list_ascii_of_string (trim_end s)
  = rev (drop_white (rev (list_ascii_of_string s))).
Proof.
  induction s as [|c r IH]; [reflexivity|].
  cbn [list_ascii_of_string rev trim_end]. rewrite drop_white_snoc.
  rewrite <- is_space_white.
  destruct (drop_white (rev (list_ascii_of_string r))) as [|x l] eqn:E.
  - simpl in IH. destruct (trim_end r); [|discriminate].
    now destruct (is_space c).
  - rewrite rev_app_distr. change (rev [c]) with [c]. cbn [app]. rewrite <- IH.
    destruct (trim_end r) as [|d r'] eqn:T; [|reflexivity].
    simpl in IH. apply (f_equal (@List.length ascii)) in IH.
    rewrite length_app in IH. simpl in IH. lia.
Qed.

(** The trimming of the code is that of the specification. *)
Lemma trim_trimmed (s : string) : trim s = trimmed s.
Proof.
  unfold trim, trimmed. rewrite <- trim_start_list, <- trim_end_list.
  now rewrite string_of_list_ascii_of_string.
Qed.

Lemma truthy_not_empty (t : string) : truthy t = negb (String.eqb t EmptyString).
Proof. now destruct t. Qed.

Lemma comma_list_spec (s : string) : comma_list s = spec_comma_list s.
Proof.
  unfold comma_list, spec_comma_list. rewrite pieces_of_string.
  rewrite (map_ext _ _ trim_trimmed).
  apply filter_ext. intros t. apply truthy_not_empty.
Qed.

Lemma drop_white_head (l : list ascii) (c : ascii) :
  hd_error (drop_white l) = Some c -> is_white c = false.
Proof.
  induction l as [|x r IH]; [discriminate|]. simpl.
  destruct (is_white x) eqn:E; [exact IH|]. simpl. now intros [= <-].
Qed.

Lemma trim_edges (s : string) : no_white_edges (trim s).
Proof.
  split; intros c H.
  - assert (S : starts_with_space (trim s) = false)
      by (unfold trim; apply trim_end_starts, trim_start_starts).
    destruct (trim s) as [|d r]; [discriminate|]. simpl in *.
    injection H as <-. now rewrite <- is_space_white.
  - unfold trim in H. rewrite trim_end_list, rev_involutive in H.
    now apply drop_white_head in H.
Qed.

Lemma in_string_comma (t : string) : in_string ","%char t = has_comma t.
Proof.
  induction t as [|c r IH]; [reflexivity|].
  cbn [in_string has_comma]. rewrite Ascii.eqb_sym, IH. reflexivity.
Qed.

(** C9. The tags field of a create or update request: absent, it gives the
    empty list; when [JSON.parse] fails on it, it is split at the commas,
    each piece trimmed and the empty pieces dropped, the pieces, the trimming
    and the emptiness being those of the specification, so that the tags are
    non-empty, begin and end with no white space and hold no comma; when
    [JSON.parse] succeeds, its value, an array in particular, is taken as it
    is. *)
Theorem parse_tags_cases (JSON_parse : string -> option jsval) (f : form) :
  (f_tags f = None -> parse_tags JSON_parse f = JArr [])
  /\ (forall s, f_tags f = Some s -> JSON_parse s = None ->
        parse_tags JSON_parse f = JArr (comma_list s)
        /\ comma_list s = filter truthy (map trim (split_comma s))
        /\ join_comma (split_comma s) = s
        /\ Forall (fun w => has_comma w = false) (split_comma s)
        /\ Forall (fun t => truthy t = true /\ trim t = t /\ has_comma t = false)
                  (comma_list s)
        /\ comma_list s = spec_comma_list s
        /\ Forall (fun t => t <> EmptyString /\ no_white_edges t
                            /\ in_string ","%char t = false)
                  (comma_list s))
  /\ (forall s v, f_tags f = Some s -> truthy s = true -> JSON_parse s = Some v ->
        parse_tags JSON_parse f = v).
Proof.
  unfold parse_tags. split; [now intros ->|]. split.
  - intros s Hs Hp. rewrite Hs.
    split; [|split; [|split; [|split; [|split; [|split]]]]].
    + destruct (truthy s) eqn:T; [now rewrite Hp|].
      apply truthy_false in T. now subst s.
    + reflexivity.
    + apply join_split_comma.
    + apply split_comma_pieces.
    + apply comma_list_items.
    + apply comma_list_spec.
    + apply Forall_forall. intros t Ht.
      pose proof (comma_list_items s) as I. rewrite Forall_forall in I.
      destruct (I t Ht) as (T & R & C). split; [|split].
      * intros ->. discriminate.
      * rewrite <- R. apply trim_edges.
      * now rewrite in_string_comma.
  - intros s v -> -> ->. reflexivity.
Qed.

(** ** The statements of the tag loop *)

Lemma link_tag_run (post_id : nat) (name : string) (w : world) :
  link_tag post_id name w
  = (Ok tt, mkWorld (link_db (w_db w) post_id name)
                    (w_log w ++ link_log (w_db w) post_id name)).
Proof.
  unfold link_tag, link_db, link_log, bind, db_read, db_write, ret. simpl.
  destruct (select_tag_id (w_db w) name); simpl;
    now rewrite <- !app_assoc.
Qed.

Lemma for_each_link_run (post_id : nat) (names : list string) (w : world) :
  for_each (link_tag post_id) names w
  = (Ok tt, mkWorld (link_all_db (w_db w) post_id names)
                    (w_log w ++ link_all_log (w_db w) post_id names)).
Proof.
  revert w. induction names as [|n r IH]; intros w; simpl.
  - unfold ret. rewrite app_nil_r. now destruct w.
  - unfold bind. rewrite link_tag_run, IH. simpl. now rewrite <- app_assoc.
Qed.

Lemma link_tags_run (post_id : nat) (names : list string) (w : world) :
  link_tags post_id (JArr names) w
  = (Ok tt, mkWorld (link_all_db (w_db w) post_id names)
                    (w_log w ++ link_all_log (w_db w) post_id names)).
Proof.
  destruct names as [|n r].
  - simpl. unfold ret. rewrite app_nil_r. now destruct w.
  - apply for_each_link_run.
Qed.

(** ** The store under the tag loop *)

Lemma next_id_bound (ids : list nat) (i : nat) : In i ids -> i < next_id ids.
Proof.
  unfold next_id. induction ids as [|j r IH]; simpl; [easy|].
  intros [->|H]; [lia|]. specialize (IH H). lia.
Qed.

Lemma next_id_fresh (ids : list nat) : ~ In (next_id ids) ids.
Proof. intros H. apply next_id_bound in H. lia. Qed.

Lemma find_app {A} (f : A -> bool) (l l' : list A) :
  find f (l ++ l') = match find f l with
                     | Some x => Some x
                     | None => find f l'
                     end.
Proof.
  induction l as [|x r IH]; simpl; [reflexivity|].
  now destruct (f x).
Qed.

Lemma select_tag_id_app (d : DB) (name : string) (ext : list tag) (tid : nat) :
  select_tag_id d name = Some tid ->
  select_tag_id (mkDB (posts d) (tags d ++ ext) (post_tags d)) name = Some tid.
Proof.
  unfold select_tag_id. simpl. rewrite find_app.
  now destruct (find _ (tags d)).
Qed.

Lemma select_tag_id_none (d : DB) (name : string) :
  select_tag_id d name = None -> ~ In name (map t_name (tags d)).
Proof.
  unfold select_tag_id. intros H Hin.
  destruct (find _ (tags d)) eqn:F; [discriminate|].
  apply in_map_iff in Hin as (t & <- & Ht).
  pose proof (find_none _ _ F t Ht) as E. simpl in E.
  now rewrite String.eqb_refl in E.
Qed.

Lemma select_tag_id_some (d : DB) (name : string) (tid : nat) :
  select_tag_id d name = Some tid -> In (mkTag tid name) (tags d).
Proof.
  unfold select_tag_id. destruct (find _ (tags d)) as [t|] eqn:F; [|discriminate].
  intros [= <-]. apply find_some in F as [Ht E].
  apply String.eqb_eq in E. subst name. now destruct t.
Qed.

(** The loop body leaves the posts alone, appends one association, for a
    tag that carries the name in the store it leaves, and appends at most
    one tag. *)
Lemma link_db_posts (d : DB) (post_id : nat) (name : string) :
  posts (link_db d post_id name) = posts d.
Proof. unfold link_db. now destruct (select_tag_id d name). Qed.

Lemma link_db_tags (d : DB) (post_id : nat) (name : string) :
  tags (link_db d post_id name)
  = match select_tag_id d name with
    | Some _ => tags d
    | None => tags d ++ [mkTag (next_id (map t_id (tags d))) name]
    end.
Proof. unfold link_db. now destruct (select_tag_id d name). Qed.

Lemma link_db_post_tags (d : DB) (post_id : nat) (name : string) :
  exists tid,
    post_tags (link_db d post_id name) = post_tags d ++ [mkPostTag post_id tid]
    /\ select_tag_id (link_db d post_id name) name = Some tid
    /\ link_log d post_id name
       = SelectTagByName name
         :: match select_tag_id d name with
            | Some _ => []
            | None => [InsertTag name]
            end ++ [InsertPostTag post_id tid].
Proof.
  unfold link_db, link_log. destruct (select_tag_id d name) as [tid|] eqn:E.
  - exists tid. now repeat split.
  - exists (next_id (map t_id (tags d))). repeat split.
    unfold select_tag_id in *. simpl. rewrite find_app.
    destruct (find _ (tags d)); [discriminate|]. simpl.
    now rewrite String.eqb_refl.
Qed.

Lemma link_db_select (d : DB) (post_id : nat) (name other : string) (tid : nat) :
  select_tag_id d other = Some tid ->
  select_tag_id (link_db d post_id name) other = Some tid.
Proof.
  intros H. unfold link_db. destruct (select_tag_id d name); [exact H|].
  now apply (select_tag_id_app d other [_]).
Qed.

Lemma link_all_db_select (d : DB) (post_id : nat) (names : list string)
    (other : string) (tid : nat) :
  select_tag_id d other = Some tid ->
  select_tag_id (link_all_db d post_id names) other = Some tid.
Proof.
  revert d. induction names as [|n r IH]; intros d H; simpl; [exact H|].
  now apply IH, link_db_select.
Qed.

Lemma link_all_db_posts (d : DB) (post_id : nat) (names : list string) :
  posts (link_all_db d post_id names) = posts d.
Proof.
  revert d. induction names as [|n r IH]; intros d; simpl; [reflexivity|].
  now rewrite IH, link_db_posts.
Qed.

Lemma links_of_app (l l' : list stmt) : links_of (l ++ l') = links_of l ++ links_of l'.
Proof.
  induction l as [|s r IH]; simpl; [reflexivity|].
  destruct s; simpl; now rewrite ?IH.
Qed.

(** The loop over the names: one association for each name, in order, each
    for a tag that carries the name in the final store. *)
Lemma link_all_db_post_tags (d : DB) (post_id : nat) (names : list string) :
  exists tids,
    post_tags (link_all_db d post_id names)
    = post_tags d ++ map (mkPostTag post_id) tids
    /\ Forall2 (fun n tid => select_tag_id (link_all_db d post_id names) n = Some tid)
               names tids
    /\ links_of (link_all_log d post_id names) = map (mkPostTag post_id) tids
    /\ forallb tag_stmt (link_all_log d post_id names) = true.
Proof.
  revert d. induction names as [|n r IH]; intros d; simpl.
  - exists []. simpl. rewrite app_nil_r. now repeat split.
  - destruct (link_db_post_tags d post_id n) as (tid & E1 & E2 & E3).
    destruct (IH (link_db d post_id n)) as (tids & I1 & I2 & I3 & I4).
    exists (tid :: tids). repeat split.
    + rewrite I1, E1, <- app_assoc. reflexivity.
    + constructor; [|exact I2]. now apply link_all_db_select.
    + rewrite links_of_app, I3, E3. simpl.
      now destruct (select_tag_id d n).
    + rewrite forallb_app, I4, E3. simpl.
      now destruct (select_tag_id d n).
Qed.

(** *** Keys of the tag table *)

Lemma NoDup_snoc {A} (l : list A) (x : A) : NoDup l -> ~ In x l -> NoDup (l ++ [x]).
Proof.
  intros Hl Hx. apply NoDup_app; [exact Hl|repeat constructor; easy|].
  intros y Hy [<-|[]]. exact (Hx Hy).
Qed.

Lemma link_db_unique_ids (d : DB) (post_id : nat) (name : string) :
  unique_tag_ids d -> unique_tag_ids (link_db d post_id name).
Proof.
  unfold unique_tag_ids. rewrite link_db_tags.
  destruct (select_tag_id d name); [easy|].
  intros H. rewrite map_app. simpl. apply NoDup_snoc; [exact H|apply next_id_fresh].
Qed.

Lemma link_db_unique_names (d : DB) (post_id : nat) (name : string) :
  unique_tag_names d -> unique_tag_names (link_db d post_id name).
Proof.
  unfold unique_tag_names. rewrite link_db_tags.
  destruct (select_tag_id d name) eqn:E; [easy|].
  intros H. rewrite map_app. simpl.
  apply NoDup_snoc; [exact H|now apply select_tag_id_none].
Qed.

Lemma link_all_db_unique_ids (d : DB) (post_id : nat) (names : list string) :
  unique_tag_ids d -> unique_tag_ids (link_all_db d post_id names).
Proof.
  revert d. induction names as [|n r IH]; intros d H; simpl; [exact H|].
  now apply IH, link_db_unique_ids.
Qed.

Lemma link_all_db_unique_names (d : DB) (post_id : nat) (names : list string) :
  unique_tag_names d -> unique_tag_names (link_all_db d post_id names).
Proof.
  revert d. induction names as [|n r IH]; intros d H; simpl; [exact H|].
  now apply IH, link_db_unique_names.
Qed.

Lemma filter_absent_id (l : list tag) (i : nat) :
  ~ In i (map t_id l) -> filter (fun t' => Nat.eqb (t_id t') i) l = [].
Proof.
  induction l as [|x r IH]; [reflexivity|]. simpl. intros H.
  destruct (Nat.eqb_spec (t_id x) i) as [E|E]; [exfalso; auto|].
  apply IH. auto.
Qed.

(** With identifiers as keys, the join on a tag identifier meets one tag. *)
Lemma filter_unique_id (l : list tag) (t : tag) :
  NoDup (map t_id l) -> In t l ->
  filter (fun t' => Nat.eqb (t_id t') (t_id t)) l = [t].
Proof.
  induction l as [|x r IH]; [easy|]. simpl.
  intros H Hin. inversion H as [|? ? Hx Hr]; subst.
  destruct Hin as [->|Hin].
  - rewrite Nat.eqb_refl. f_equal. now apply filter_absent_id.
  - destruct (Nat.eqb_spec (t_id x) (t_id t)) as [E|E].
    + exfalso. apply Hx. rewrite E. now apply in_map.
    + now apply IH.
Qed.

(** The names joined to a post whose associations are the links of a loop
    over [names], behind associations of other posts only. *)
Lemma joined_names_linked (d : DB) (post_id : nat) (old : list post_tag)
    (names : list string) (tids : list nat) :
  unique_tag_ids d ->
  post_tags d = old ++ map (mkPostTag post_id) tids ->
  (forall pt, In pt old -> pt_post_id pt <> post_id) ->
  Forall2 (fun n tid => select_tag_id d n = Some tid) names tids ->
  joined_names d post_id = names.
Proof.
  intros U E Hold F. unfold joined_names. rewrite E, filter_app.
  replace (filter _ old) with (@nil post_tag).
  2:{ symmetry. clear -Hold. induction old as [|x r IH]; [reflexivity|]. simpl.
      destruct (Nat.eqb_spec (pt_post_id x) post_id) as [e|e].
      - exfalso. apply (Hold x); [now left|exact e].
      - apply IH. intros pt H. apply Hold. now right. }
  simpl. clear E. induction F as [|n tid ns ts Hn F IH]; [reflexivity|].
  simpl. rewrite Nat.eqb_refl. simpl. rewrite IH.
  apply select_tag_id_some in Hn.
  pose proof (filter_unique_id (tags d) (mkTag tid n) U Hn) as Q.
  simpl in Q. now rewrite Q.
Qed.

(** ** Reading *)

Lemma insert_desc_perm (r : row) (l : list row) : Permutation (insert_desc r l) (r :: l).
Proof.
  induction l as [|x rest IH]; simpl; [reflexivity|].
  destruct (Nat.ltb _ _); [|reflexivity].
  rewrite IH. apply perm_swap.
Qed.

Lemma order_by_created_desc_perm (l : list row) :
  Permutation (order_by_created_desc l) l.
Proof.
  induction l as [|r rest IH]; simpl; [reflexivity|].
  rewrite insert_desc_perm. now constructor.
Qed.

Lemma insert_desc_sorted (r : row) (l : list row) :
  Sorted desc l -> Sorted desc (insert_desc r l).
Proof.
  induction l as [|x rest IH]; simpl; intros H.
  - repeat constructor.
  - apply Sorted_inv in H as [Hs Hh].
    destruct (Nat.ltb_spec (p_created_at (row_post r)) (p_created_at (row_post x))) as [L|L].
    + constructor; [now apply IH|].
      destruct rest as [|y rest']; simpl.
      * constructor. unfold desc, created. lia.
      * apply HdRel_inv in Hh.
        destruct (Nat.ltb _ _); constructor; [exact Hh|].
        unfold desc, created. lia.
    + constructor; [now constructor|]. constructor. exact L.
Qed.

Lemma order_by_created_desc_sorted (l : list row) :
  Sorted desc (order_by_created_desc l).
Proof.
  induction l as [|r rest IH]; simpl; [constructor|].
  now apply insert_desc_sorted.
Qed.

Lemma Sorted_adjacent {A} (R : A -> A -> Prop) (l1 l2 : list A) (a b : A) :
  Sorted R (l1 ++ a :: b :: l2) -> R a b.
Proof.
  induction l1 as [|x r IH]; simpl; intros H; apply Sorted_inv in H as [Hs Hh].
  - now apply HdRel_inv in Hh.
  - now apply IH.
Qed.

Lemma GET_posts_run (w : world) :
  GET_posts w
  = (mkResponse 200 (JPosts (map with_tags (select_posts (w_db w)))),
     mkWorld (w_db w) (w_log w ++ [SelectPosts])).
Proof. reflexivity. Qed.

Lemma GET_post_by_slug_run (slug : string) (w : world) :
  GET_post_by_slug slug w
  = (match select_post_by_slug (w_db w) slug with
     | Some r => mkResponse 200 (JPost (with_tags r))
     | None => mkResponse 404 (JError "Post not found")
     end,
     mkWorld (w_db w) (w_log w ++ [SelectPostBySlug slug])).
Proof.
  unfold GET_post_by_slug, try_catch, bind, db_read. simpl.
  now destruct (select_post_by_slug (w_db w) slug).
Qed.

Lemma in_select_posts (d : DB) (r : row) :
  In r (select_posts d) <-> exists p, In p (posts d) /\ r = select_row d p.
Proof.
  unfold select_posts. split.
  - intros H. apply (Permutation_in _ (order_by_created_desc_perm _)) in H.
    apply in_map_iff in H as (p & <- & Hp). now exists p.
  - intros (p & Hp & ->).
    apply (Permutation_in _ (Permutation_sym (order_by_created_desc_perm _))).
    now apply in_map.
Qed.

Lemma map_split_adjacent {A B} (f : A -> B) (l : list A) (l1 l2 : list B) (a b : B) :
  map f l = l1 ++ a :: b :: l2 ->
  exists k1 x y k2, l = k1 ++ x :: y :: k2 /\ f x = a /\ f y = b.
Proof.
  revert l. induction l1 as [|z r IH]; intros l H.
  - destruct l as [|x [|y k]]; try discriminate. simpl in H.
    injection H as <- <- _. now exists [], x, y, k.
  - destruct l as [|x k]; [discriminate|]. simpl in H. injection H as _ H.
    destruct (IH _ H) as (k1 & x' & y' & k2 & -> & E1 & E2).
    now exists (x :: k1), x', y', k2.
Qed.

(** C8. The list operation answers with all the posts of the store, in
    descending order of their created timestamp: of two neighbours in the
    array, the first is at least as recent as the second, and more recent
    when the timestamps differ. *)
Theorem GET_posts_ordered (w : world) :
  exists l,
    fst (GET_posts w) = mkResponse 200 (JPosts l)
    /\ Permutation (map j_post l) (posts (w_db w))
    /\ forall l1 a b l2, l = l1 ++ a :: b :: l2 ->
         p_created_at (j_post b) <= p_created_at (j_post a)
         /\ (p_created_at (j_post a) <> p_created_at (j_post b) ->
             p_created_at (j_post b) < p_created_at (j_post a)).
Proof.
  rewrite GET_posts_run. simpl. eexists. split; [reflexivity|]. split.
  - rewrite map_map. simpl. unfold select_posts.
    rewrite (Permutation_map row_post (order_by_created_desc_perm _)).
    rewrite map_map. simpl. now rewrite map_id.
  - intros l1 a b l2 E.
    apply map_split_adjacent in E as (k1 & x & y & k2 & E & <- & <-).
    pose proof (order_by_created_desc_sorted (map (select_row (w_db w)) (posts (w_db w)))) as S.
    fold (select_posts (w_db w)) in S. rewrite E in S.
    apply Sorted_adjacent in S. unfold desc, created in S. simpl. lia.
Qed.

Lemma joined_names_none (d : DB) (id : nat) :
  (forall pt, In pt (post_tags d) -> pt_post_id pt <> id) ->
  joined_names d id = [].
Proof.
  intros H. unfold joined_names.
  replace (filter _ (post_tags d)) with (@nil post_tag); [reflexivity|].
  symmetry. induction (post_tags d) as [|x r IH]; [reflexivity|]. simpl.
  destruct (Nat.eqb_spec (pt_post_id x) id) as [e|e].
  - exfalso. apply (H x); [now left|exact e].
  - apply IH. intros pt Hpt. apply H. now right.
Qed.

(** C4. A post without associations is read with an empty tag list, by the
    list operation and by the by-slug operation: the aggregate of such a post
    is NULL and the split is not applied to it, whereas splitting the empty
    text would give a list holding the empty string. *)
Theorem read_without_tags (w : world) (p : post) :
  In p (posts (w_db w)) ->
  (forall pt, In pt (post_tags (w_db w)) -> pt_post_id pt <> p_id p) ->
  (exists l,
     fst (GET_posts w) = mkResponse 200 (JPosts l)
     /\ In (mkPostJson p []) l
     /\ forall pj, In pj l -> p_id (j_post pj) = p_id p -> j_tags pj = [])
  /\ (exists pj,
        fst (GET_post_by_slug (p_slug p) w) = mkResponse 200 (JPost pj)
        /\ (p_id (j_post pj) = p_id p -> j_tags pj = [])
        /\ (find (fun q => String.eqb (p_slug q) (p_slug p)) (posts (w_db w)) = Some p ->
            pj = mkPostJson p []))
  /\ row_tags (select_row (w_db w) p) = None
  /\ tags_of_aggregate None = []
  /\ split_comma EmptyString = [EmptyString].
Proof.
  intros Hp Hnone.
  assert (R : forall q, p_id q = p_id p -> with_tags (select_row (w_db w) q) = mkPostJson q []).
  { intros q E. unfold with_tags, select_row. simpl.
    now rewrite E, (joined_names_none _ _ Hnone). }
  repeat split.
  - rewrite GET_posts_run. simpl. eexists. split; [reflexivity|]. split.
    + rewrite <- (R p eq_refl). apply in_map, in_select_posts. now exists p.
    + intros pj Hin E. apply in_map_iff in Hin as (r & <- & Hr).
      apply in_select_posts in Hr as (q & _ & ->).
      simpl in E. now rewrite (R q E).
  - rewrite GET_post_by_slug_run. unfold select_post_by_slug. simpl.
    destruct (find _ (posts (w_db w))) as [q|] eqn:F.
    + simpl. eexists. split; [reflexivity|]. split.
      * intros E. now rewrite (R q E).
      * intros [= ->]. now apply R.
    + exfalso. pose proof (find_none _ _ F p Hp) as E. simpl in E.
      now rewrite String.eqb_refl in E.
  - unfold select_row. simpl. now rewrite (joined_names_none _ _ Hnone).
Qed.

Lemma read_without_tags_witness :
  let w := run (POST_posts json_string_array 5 (form_of (Some "Plain post") None) None)
               start in
  let p := mkPost 1 "Plain post" "plain-post" None None None "draft" 5 in
  (In p (posts (w_db w))
   /\ forall pt, In pt (post_tags (w_db w)) -> pt_post_id pt <> p_id p)
  /\ fst (GET_posts w) = mkResponse 200 (JPosts [mkPostJson p []])
  /\ exists pj,
       fst (GET_post_by_slug "plain-post" w) = mkResponse 200 (JPost pj)
       /\ pj = mkPostJson p [].
Proof.
  intros w p.
  assert (Hin : In p (posts (w_db w))) by now left.
  assert (Hno : forall pt, In pt (post_tags (w_db w)) -> pt_post_id pt <> p_id p)
    by now intros pt [].
  split; [now split|]. split; [reflexivity|].
  destruct (read_without_tags w p Hin Hno) as (_ & (pj & E & _ & F) & _).
  exists pj. split; [exact E|]. now apply F.
Defined.

(** Two posts created one after the other are listed the later one first. *)
Example GET_posts_after_two_creates :
  let w1 := run (POST_posts json_string_array 5 (form_of (Some "Older") None) None)
                start in
  let w2 := run (POST_posts json_string_array 8 (form_of (Some "Newer") (Some "x")) None)
                w1 in
  fst (GET_posts w2)
  = mkResponse 200
      (JPosts [mkPostJson (mkPost 2 "Newer" "newer" None None None "draft" 8) ["x"];
               mkPostJson (mkPost 1 "Older" "older" None None None "draft" 5) []]).
Proof. reflexivity. Qed.

(** ** Deleting *)

Lemma filter_other_posts (l : list post) (id : nat) :
  ~ In id (map p_id l) ->
  filter (fun p => negb (Nat.eqb (p_id p) id)) l = l
  /\ filter (fun p => Nat.eqb (p_id p) id) l = [].
Proof.
  induction l as [|x r IH]; [now split|]. simpl. intros H.
  destruct (Nat.eqb_spec (p_id x) id) as [E|E]; [exfalso; auto|].
  destruct IH as [I1 I2]; [auto|]. simpl. now rewrite I1, I2.
Qed.

Lemma filter_this_post (l : list post) (id : nat) :
  In id (map p_id l) ->
  List.length (filter (fun p => Nat.eqb (p_id p) id) l) <> 0.
Proof.
  induction l as [|x r IH]; [easy|]. simpl.
  destruct (Nat.eqb_spec (p_id x) id) as [E|E]; [easy|].
  intros [H|H]; [easy|]. now apply IH.
Qed.

Lemma in_filter_other {A} (key : A -> nat) (id : nat) (l : list A) (x : A) :
  In x (filter (fun y => negb (Nat.eqb (key y) id)) l) <-> In x l /\ key x <> id.
Proof.
  rewrite filter_In, negb_true_iff, Nat.eqb_neq. tauto.
Qed.

Lemma DELETE_post_run (id : nat) (w : world) :
  DELETE_post id w
  = (if Nat.eqb (fst (delete_post (delete_post_tags (w_db w) id) id)) 0
     then mkResponse 404 (JError "Post not found")
     else mkResponse 200 JSuccess,
     mkWorld (snd (delete_post (delete_post_tags (w_db w) id) id))
             (w_log w ++ [DeletePostTags id; DeletePost id])).
Proof.
  unfold DELETE_post, try_catch, bind, db_write, ret. simpl.
  rewrite <- app_assoc. simpl.
  now destruct (Nat.eqb _ 0).
Qed.

(** C5. The delete operation sends the deletion of the associations of the
    post and then the deletion of the post row; the store keeps the
    associations and the rows of the other posts; when the deletion of the
    row affects no row the answer is 404, which is the case for an identifier
    that no post carries, the posts being then what they were; otherwise the
    answer is the acknowledgement. *)
Theorem DELETE_post_spec (id : nat) (w : world) :
  w_log (snd (DELETE_post id w)) = w_log w ++ [DeletePostTags id; DeletePost id]
  /\ w_db (snd (DELETE_post id w))
     = snd (delete_post (delete_post_tags (w_db w) id) id)
  /\ (forall pt, In pt (post_tags (w_db (snd (DELETE_post id w))))
                 <-> In pt (post_tags (w_db w)) /\ pt_post_id pt <> id)
  /\ (forall p, In p (posts (w_db (snd (DELETE_post id w))))
                <-> In p (posts (w_db w)) /\ p_id p <> id)
  /\ (fst (delete_post (delete_post_tags (w_db w) id) id) = 0 ->
      fst (DELETE_post id w) = mkResponse 404 (JError "Post not found"))
  /\ (~ In id (map p_id (posts (w_db w))) ->
      fst (DELETE_post id w) = mkResponse 404 (JError "Post not found")
      /\ posts (w_db (snd (DELETE_post id w))) = posts (w_db w)
      /\ List.length (posts (w_db (snd (DELETE_post id w))))
         = List.length (posts (w_db w)))
  /\ (In id (map p_id (posts (w_db w))) ->
      fst (DELETE_post id w) = mkResponse 200 JSuccess).
Proof.
  rewrite DELETE_post_run.
  cbn [fst snd w_log w_db delete_post delete_post_tags posts post_tags].
  split; [reflexivity|]. split; [reflexivity|].
  split; [intros pt; apply in_filter_other|].
  split; [intros p; apply in_filter_other|].
  split; [now intros ->|]. split.
  - intros H. destruct (filter_other_posts _ _ H) as [E1 E2].
    now rewrite E1, E2.
  - intros H. apply filter_this_post in H. apply Nat.eqb_neq in H.
    now rewrite H.
Qed.

(** ** Creating *)

(** C1. A create request without title, once past the upload middleware,
    is answered with the server error 500: lowercasing the missing title
    throws before any statement is sent, and the handler has no check of the
    title of its own. *)
Theorem POST_posts_missing_title (JSON_parse : string -> option jsval)
    (now : nat) (f : form) (file : option string) (w : world) :
  f_title f = None ->
  POST_posts JSON_parse now f file w
  = (mkResponse 500 (JError "Failed to create post"), w).
Proof.
  intros H. unfold POST_posts, try_catch, bind, throw. now rewrite H.
Qed.

Lemma POST_posts_missing_title_witness :
  f_title (form_of None None) = None
  /\ POST_posts json_string_array 0 (form_of None None) None start
     = (mkResponse 500 (JError "Failed to create post"), start).
Proof.
  split; [reflexivity|].
  apply (POST_posts_missing_title json_string_array 0 (form_of None None) None start).
  reflexivity.
Defined.

(** The update handler checks the title that the create handler does not. *)
Lemma PUT_post_missing_title (JSON_parse : string -> option jsval)
    (id : nat) (f : form) (file : option string) (w : world) :
  field_truthy (f_title f) = false ->
  PUT_post JSON_parse id f file w
  = (mkResponse 400 (JError "Title is required"), w).
Proof.
  intros H. unfold PUT_post, try_catch, ret.
  destruct (f_title f) as [t|]; [|reflexivity].
  simpl in H. now rewrite H.
Qed.

(** ** The write handlers, step by step *)

Lemma link_tags_any (post_id : nat) (v : jsval) (w : world) :
  link_tags post_id v w
  = (match v with JNull => Throw TypeError | _ => Ok tt end,
     mkWorld (link_all_db (w_db w) post_id (items_of v))
             (w_log w ++ link_all_log (w_db w) post_id (items_of v))).
Proof.
  destruct v as [items|s| |].
  - apply link_tags_run.
  - destruct s as [|c r].
    + simpl. unfold ret. rewrite app_nil_r. now destruct w.
    + apply for_each_link_run.
  - simpl. unfold throw. rewrite app_nil_r. now destruct w.
  - simpl. unfold ret. rewrite app_nil_r. now destruct w.
Qed.

Lemma POST_posts_run (JSON_parse : string -> option jsval) (now : nat) (f : form)
    (file : option string) (w : world) (title : string) :
  f_title f = Some title ->
  let v := parse_tags JSON_parse f in
  let slug := slug_of_title title in
  let ins := insert_post (w_db w) now title slug (f_content f) (f_excerpt f)
               (option_map (String.append "/uploads/") file) (status_of f) in
  let d' := link_all_db (snd ins) (fst ins) (items_of v) in
  POST_posts JSON_parse now f file w
  = (answer 201 "Failed to create post" v d' (fst ins),
     mkWorld d' (w_log w ++ InsertPost title slug
                   :: link_all_log (snd ins) (fst ins) (items_of v)
                   ++ refetch_log v (fst ins))).
Proof.
  intros H. unfold POST_posts, try_catch, bind, ret, refetch, db_write, db_read.
  rewrite H. cbn [insert_post fst snd w_db w_log].
  rewrite link_tags_any. cbn [w_db w_log fst snd].
  unfold answer, refetch_log, bind, ret, throw.
  destruct (parse_tags JSON_parse f) as [items|s| |]; cbn [w_db w_log];
    rewrite <- ?app_assoc; cbn [app];
    try (destruct (select_post_by_id _ _); rewrite <- ?app_assoc; reflexivity).
  now rewrite app_nil_r.
Qed.

Lemma PUT_post_run (JSON_parse : string -> option jsval) (id : nat) (f : form)
    (file : option string) (w : world) (title : string) :
  f_title f = Some title -> truthy title = true ->
  let v := parse_tags JSON_parse f in
  let d1 := delete_post_tags
              (update_post (w_db w) id title (f_content f) (f_excerpt f)
                 (status_of f) (option_map (String.append "/uploads/") file)) id in
  let d' := link_all_db d1 id (items_of v) in
  PUT_post JSON_parse id f file w
  = (answer 200 "Failed to update post" v d' id,
     mkWorld d' (w_log w ++ UpdatePost id :: DeletePostTags id
                   :: link_all_log d1 id (items_of v) ++ refetch_log v id)).
Proof.
  intros H T. unfold PUT_post, try_catch, bind, ret, refetch, db_write, db_read.
  rewrite H, T. cbn [fst snd w_db w_log].
  rewrite link_tags_any. cbn [w_db w_log fst snd].
  unfold answer, refetch_log, bind, ret, throw.
  destruct (parse_tags JSON_parse f) as [items|s| |]; cbn [w_db w_log];
    rewrite <- ?app_assoc; cbn [app];
    try (destruct (select_post_by_id _ _); rewrite <- ?app_assoc; reflexivity).
  now rewrite app_nil_r.
Qed.

Lemma with_tags_none (d : DB) (q : post) :
  (forall pt, In pt (post_tags d) -> pt_post_id pt <> p_id q) ->
  with_tags (select_row d q) = mkPostJson q [].
Proof.
  intros H. unfold with_tags, select_row. simpl.
  now rewrite (joined_names_none _ _ H).
Qed.

Lemma find_post_by_id (l : list post) (id : nat) :
  In id (map p_id l) ->
  exists q, find (fun p => Nat.eqb (p_id p) id) l = Some q /\ In q l /\ p_id q = id.
Proof.
  induction l as [|x r IH]; [easy|]. simpl.
  destruct (Nat.eqb_spec (p_id x) id) as [E|E].
  - intros _. exists x. auto.
  - intros [H|H]; [easy|]. destruct (IH H) as (q & F & I & Q).
    exists q. auto.
Qed.

Lemma find_post_by_id_none (l : list post) (id : nat) :
  ~ In id (map p_id l) -> find (fun p => Nat.eqb (p_id p) id) l = None.
Proof.
  induction l as [|x r IH]; [easy|]. simpl. intros H.
  destruct (Nat.eqb_spec (p_id x) id) as [E|E]; [exfalso; auto|].
  apply IH. auto.
Qed.

Lemma update_post_ids (d : DB) (id : nat) (title : string)
    (content excerpt : option string) (status : string) (image : option string) :
  map p_id (posts (update_post d id title content excerpt status image))
  = map p_id (posts d).
Proof.
  simpl. rewrite map_map. apply map_ext. intros p.
  now destruct (Nat.eqb (p_id p) id).
Qed.

(** The UPDATE statement leaves a store without the post as it is. *)
Lemma update_post_absent (d : DB) (id : nat) (title : string)
    (content excerpt : option string) (status : string) (image : option string) :
  ~ In id (map p_id (posts d)) ->
  posts (update_post d id title content excerpt status image) = posts d.
Proof.
  simpl. induction (posts d) as [|x r IH]; [reflexivity|]. simpl. intros H.
  destruct (Nat.eqb_spec (p_id x) id) as [E|E]; [exfalso; auto|].
  f_equal. apply IH. auto.
Qed.

(** ** Updating *)

(** C3. An update request with a title and a list of tag names deletes the
    associations of the post and then inserts one association for each name,
    in order, with a tag of that name; the store keeps the associations of the
    other posts in front of them.  With unique tag identifiers the names
    joined to the post are then the names of the request.  When the list is
    empty no association of the post is left, every later read of the post
    by the list or the by-slug operation carries an empty tag list, and so
    does the answer of the update itself when the post exists. *)
Theorem PUT_post_reconciles (JSON_parse : string -> option jsval) (id : nat)
    (f : form) (file : option string) (w : world) (title : string)
    (names : list string) :
  f_title f = Some title -> truthy title = true ->
  parse_tags JSON_parse f = JArr names ->
  let w' := snd (PUT_post JSON_parse id f file w) in
  (exists tids mid,
      Forall2 (fun n tid => select_tag_id (w_db w') n = Some tid) names tids
      /\ post_tags (w_db w')
         = filter (fun pt => negb (Nat.eqb (pt_post_id pt) id)) (post_tags (w_db w))
           ++ map (mkPostTag id) tids
      /\ w_log w'
         = w_log w ++ UpdatePost id :: DeletePostTags id :: mid ++ [SelectPostById id]
      /\ forallb tag_stmt mid = true
      /\ links_of mid = map (mkPostTag id) tids)
  /\ (unique_tag_ids (w_db w) -> joined_names (w_db w') id = names)
  /\ (names = [] ->
      (forall pt, In pt (post_tags (w_db w')) -> pt_post_id pt <> id)
      /\ (forall l pj, fst (GET_posts w') = mkResponse 200 (JPosts l) ->
            In pj l -> p_id (j_post pj) = id -> j_tags pj = [])
      /\ (forall slug pj,
            fst (GET_post_by_slug slug w') = mkResponse 200 (JPost pj) ->
            p_id (j_post pj) = id -> j_tags pj = [])
      /\ (In id (map p_id (posts (w_db w))) ->
          (exists pj, fst (PUT_post JSON_parse id f file w) = mkResponse 200 (JPost pj)
                      /\ p_id (j_post pj) = id /\ j_tags pj = [])
          /\ (exists l pj, fst (GET_posts w') = mkResponse 200 (JPosts l)
                           /\ In pj l /\ p_id (j_post pj) = id /\ j_tags pj = []))).
Proof.
  intros Ht Tt Hv w'. subst w'.
  rewrite (PUT_post_run JSON_parse id f file w title Ht Tt), Hv.
  cbn [fst snd w_db w_log items_of refetch_log answer].
  set (d1 := delete_post_tags _ id).
  destruct (link_all_db_post_tags d1 id names) as (tids & P1 & P2 & P3 & P4).
  assert (Hold : forall pt, In pt (post_tags d1) -> pt_post_id pt <> id).
  { intros pt H. now apply (in_filter_other pt_post_id) in H. }
  split; [|split].
  - exists tids, (link_all_log d1 id names). now repeat split.
  - intros U.
    apply (joined_names_linked _ id (post_tags d1) names tids); auto.
    apply link_all_db_unique_ids. exact U.
  - intros ->. simpl in *. inversion P2; subst. simpl in P1. rewrite app_nil_r in P1.
    fold d1 in P1.
    assert (R : forall q, p_id q = id -> with_tags (select_row d1 q) = mkPostJson q []).
    { intros q E. apply with_tags_none. now rewrite E. }
    split; [exact Hold|]. split; [|split].
    + intros l pj E Hin Hid.
      injection E as <-. apply in_map_iff in Hin as (r & <- & Hr).
      apply in_select_posts in Hr as (q & _ & ->). now rewrite (R q Hid).
    + intros slug pj E Hid. rewrite GET_post_by_slug_run in E. simpl in E.
      unfold select_post_by_slug in E.
      destruct (find _ (posts d1)) as [q|]; [|discriminate].
      simpl in E. injection E as <-. now rewrite (R q Hid).
    + intros Hin.
      assert (Hin' : In id (map p_id (posts d1))).
      { unfold d1. cbn [delete_post_tags posts]. fold (posts (update_post (w_db w) id title (f_content f) (f_excerpt f) (status_of f) (option_map (String.append "/uploads/") file))).
        now rewrite update_post_ids. }
      destruct (find_post_by_id _ _ Hin') as (q & F & I & Q).
      split.
      * unfold select_post_by_id. rewrite F. simpl.
        eexists. split; [reflexivity|]. rewrite (R q Q). now split.
      * eexists _, (mkPostJson q []).
        split; [reflexivity|]. split; [|now split].
        rewrite <- (R q Q). apply in_map, in_select_posts. now exists q.
Qed.

Lemma PUT_post_reconciles_witness :
  let w0 := run (POST_posts json_string_array 5
                   (form_of (Some "First post") (Some (json_text ["a"; "b"]))) None)
                start in
  let f := form_of (Some "First post, again") (Some "[]") in
  (f_title f = Some "First post, again"
   /\ truthy "First post, again" = true
   /\ parse_tags json_string_array f = JArr [])
  /\ joined_names (w_db w0) 1 = ["a"; "b"]
  /\ (forall pt, In pt (post_tags (w_db (snd (PUT_post json_string_array 1 f None w0)))) ->
      pt_post_id pt <> 1)
  /\ exists pj, fst (PUT_post json_string_array 1 f None w0) = mkResponse 200 (JPost pj)
                /\ p_id (j_post pj) = 1 /\ j_tags pj = [].
Proof.
  intros w0 f.
  split; [repeat split|]. split; [reflexivity|].
  destruct (PUT_post_reconciles json_string_array 1 f None w0
              "First post, again" [] eq_refl eq_refl eq_refl) as (_ & _ & H).
  destruct (H eq_refl) as (H1 & _ & _ & H2).
  split; [exact H1|].
  apply H2. vm_compute. now left.
Defined.

(** C6. An update request with a title, for an identifier that no post
    carries, does not succeed silently: it is answered with the 500 of the
    handler's [catch].  The first statement sent is the UPDATE itself,
    without a read of the post before it; the statement changes no row; the
    deletion and, for a list of tag names, the insertion of the associations
    follow and stay in the store; the re-fetch finds no row, and the handler
    throws on it.  When the tags field is [null] the handler throws earlier,
    between the deletion and the insertions.  The same request in a store
    where a post carries the identifier is answered with 200, unless the
    tags field is [null]. *)
Theorem PUT_post_absent (JSON_parse : string -> option jsval) (id : nat)
    (f : form) (file : option string) (w : world) (title : string) :
  f_title f = Some title -> truthy title = true ->
  ~ In id (map p_id (posts (w_db w))) ->
  let w' := snd (PUT_post JSON_parse id f file w) in
  (exists rest, w_log w' = w_log w ++ UpdatePost id :: DeletePostTags id :: rest)
  /\ posts (update_post (w_db w) id title (f_content f) (f_excerpt f) (status_of f)
              (option_map (String.append "/uploads/") file))
     = posts (w_db w)
  /\ posts (w_db w') = posts (w_db w)
  /\ select_post_by_id (w_db w') id = None
  /\ fst (PUT_post JSON_parse id f file w)
     = mkResponse 500 (JError "Failed to update post")
  /\ (forall names, parse_tags JSON_parse f = JArr names ->
      exists tids mid,
        List.length tids = List.length names
        /\ post_tags (w_db w')
           = filter (fun pt => negb (Nat.eqb (pt_post_id pt) id)) (post_tags (w_db w))
             ++ map (mkPostTag id) tids
        /\ forallb tag_stmt mid = true
        /\ w_log w'
           = w_log w ++ UpdatePost id :: DeletePostTags id :: mid ++ [SelectPostById id])
  /\ (parse_tags JSON_parse f = JNull ->
      w_log w' = w_log w ++ [UpdatePost id; DeletePostTags id]
      /\ post_tags (w_db w')
         = filter (fun pt => negb (Nat.eqb (pt_post_id pt) id)) (post_tags (w_db w)))
  /\ (forall w0, In id (map p_id (posts (w_db w0))) ->
      parse_tags JSON_parse f <> JNull ->
      status (fst (PUT_post JSON_parse id f file w0)) = 200).
Proof.
  intros Ht Tt Hid w'. subst w'.
  rewrite (PUT_post_run JSON_parse id f file w title Ht Tt).
  cbn [fst snd w_db w_log].
  set (d1 := delete_post_tags _ id).
  assert (Hp : posts (link_all_db d1 id (items_of (parse_tags JSON_parse f)))
               = posts (w_db w)).
  { rewrite link_all_db_posts. unfold d1. cbn [delete_post_tags posts].
    now apply update_post_absent. }
  assert (Hs : select_post_by_id
                 (link_all_db d1 id (items_of (parse_tags JSON_parse f))) id = None).
  { unfold select_post_by_id. rewrite Hp.
    now rewrite (find_post_by_id_none _ _ Hid). }
  split; [now eexists|]. split; [now apply update_post_absent|].
  split; [exact Hp|]. split; [exact Hs|].
  split; [|split; [|split]].
  - unfold answer. rewrite Hs. now destruct (parse_tags JSON_parse f).
  - intros names Hv. rewrite Hv. cbn [items_of refetch_log].
    destruct (link_all_db_post_tags d1 id names) as (tids & P1 & P2 & P3 & P4).
    exists tids, (link_all_log d1 id names). repeat split; auto.
    symmetry. exact (Forall2_length P2).
  - intros Hv. rewrite Hv.
    cbn [items_of refetch_log link_all_log link_all_db app]. now split.
  - intros w0 Hin Hv.
    rewrite (PUT_post_run JSON_parse id f file w0 title Ht Tt). cbn [fst].
    unfold answer, select_post_by_id. rewrite link_all_db_posts.
    cbn [delete_post_tags posts].
    fold (posts (update_post (w_db w0) id title (f_content f) (f_excerpt f)
                   (status_of f) (option_map (String.append "/uploads/") file))).
    rewrite <- (update_post_ids (w_db w0) id title (f_content f) (f_excerpt f)
                  (status_of f) (option_map (String.append "/uploads/") file)) in Hin.
    destruct (find_post_by_id _ _ Hin) as (q & -> & _).
    now destruct (parse_tags JSON_parse f).
Qed.

Lemma PUT_post_absent_witness :
  let f := form_of (Some "Nowhere") (Some "x, y") in
  (f_title f = Some "Nowhere" /\ truthy "Nowhere" = true
   /\ ~ In 7 (map p_id (posts (w_db start))))
  /\ PUT_post json_string_array 7 f None start
     = (mkResponse 500 (JError "Failed to update post"),
        mkWorld (mkDB [] [mkTag 1 "x"; mkTag 2 "y"] [mkPostTag 7 1; mkPostTag 7 2])
                [UpdatePost 7; DeletePostTags 7;
                 SelectTagByName "x"; InsertTag "x"; InsertPostTag 7 1;
                 SelectTagByName "y"; InsertTag "y"; InsertPostTag 7 2;
                 SelectPostById 7])
  /\ fst (PUT_post json_string_array 7 f None start)
     = mkResponse 500 (JError "Failed to update post").
Proof.
  intros f. split; [repeat split; now intros []|]. split; [reflexivity|].
  apply (PUT_post_absent json_string_array 7 f None start "Nowhere");
    [reflexivity|reflexivity|now intros []].
Defined.

(** ** The tag store *)

Lemma link_all_db_tags (d : DB) (post_id : nat) (names : list string) :
  extends_tags d (link_all_db d post_id names) names.
Proof.
  revert d. induction names as [|n r IH]; intros d; simpl.
  - exists []. rewrite app_nil_r. repeat split; try easy. constructor.
  - destruct (IH (link_db d post_id n)) as (ext & E & N & O & C).
    rewrite link_db_tags in E, O.
    assert (Hn : In n (map t_name (tags (link_all_db (link_db d post_id n) post_id r)))).
    { destruct (link_db_post_tags d post_id n) as (tid & _ & S & _).
      apply (link_all_db_select _ post_id r) in S.
      apply select_tag_id_some in S. now apply (in_map t_name) in S. }
    destruct (select_tag_id d n) eqn:S.
    + exists ext. repeat split; auto.
      * right. now apply O.
      * now apply O.
      * intros m [<-|Hm]; auto.
    + exists (mkTag (next_id (map t_id (tags d))) n :: ext).
      rewrite <- app_assoc in E. repeat split; auto.
      * simpl. constructor; [|exact N].
        intros Hin. apply in_map_iff in Hin as (t & Et & Ht).
        apply O in Ht as [_ Ht]. apply Ht. rewrite map_app, in_app_iff.
        right. simpl. auto.
      * destruct H as [<-|H]; simpl; [now left|]. right. now apply O.
      * destruct H as [<-|H]; simpl.
        -- now apply select_tag_id_none.
        -- intros Hin. apply O in H as [_ H]. apply H.
           rewrite map_app, in_app_iff. now left.
      * intros m [<-|Hm]; auto.
Qed.

Lemma find_new_post (l : list post) (p : post) (id : nat) :
  id = next_id (map p_id l) -> p_id p = id ->
  find (fun q => Nat.eqb (p_id q) id) (l ++ [p]) = Some p.
Proof.
  intros E <-. rewrite find_app, find_post_by_id_none.
  - simpl. now rewrite Nat.eqb_refl.
  - rewrite E. apply next_id_fresh.
Qed.

(** The reads of a post whose associated names are known up to their
    order, hold no comma and are not the empty name alone. *)
Lemma reads_tags_names (d : DB) (pid : nat) (names ts : list string) :
  Permutation names (joined_names d pid) ->
  Forall (fun n => has_comma n = false) names ->
  names <> [EmptyString] ->
  reads_tags d pid ts ->
  Permutation names ts.
Proof.
  intros J C E (order & P & ->).
  assert (P' : Permutation order names)
    by (eapply Permutation_trans; [exact P|now apply Permutation_sym]).
  rewrite (aggregate_in_order names order C E P'). now apply Permutation_sym.
Qed.

Lemma Permutation_refl_eq (l l' : list string) : l' = l -> Permutation l l'.
Proof. intros ->. apply Permutation_refl. Qed.

Lemma reads_tags_table (d : DB) (pid : nat) :
  reads_tags d pid (tags_of_aggregate (GROUP_CONCAT (joined_names d pid))).
Proof. exists (joined_names d pid). split; [apply Permutation_refl|reflexivity]. Qed.

(** C7, amended. The lookup-or-insert of the create and the update handler
    keeps the tag rows of the store and adds one row for each supplied name
    that the store did not hold, so that unique names stay unique.  A post
    created with distinct tag names is answered and listed with these names
    in some order and without duplicates, in whatever order the aggregate
    of a read takes the names, provided that no name holds a comma, that the
    names are not the empty name alone, that tag identifiers are unique and
    that no association of the store carries the identifier the post
    receives. *)
Theorem tags_lazily_deduplicated (JSON_parse : string -> option jsval)
    (now : nat) (f : form) (file : option string) (w : world) (title : string)
    (names : list string) :
  f_title f = Some title ->
  parse_tags JSON_parse f = JArr names ->
  let w' := snd (POST_posts JSON_parse now f file w) in
  let id := next_id (map p_id (posts (w_db w))) in
  extends_tags (w_db w) (w_db w') names
  /\ (unique_tag_names (w_db w) -> unique_tag_names (w_db w'))
  /\ (forall id' file', truthy title = true ->
        extends_tags (w_db w) (w_db (snd (PUT_post JSON_parse id' f file' w))) names
        /\ (unique_tag_names (w_db w) ->
            unique_tag_names (w_db (snd (PUT_post JSON_parse id' f file' w)))))
  /\ (NoDup names ->
      Forall (fun n => has_comma n = false) names ->
      names <> [EmptyString] ->
      unique_tag_ids (w_db w) ->
      (forall pt, In pt (post_tags (w_db w)) -> pt_post_id pt <> id) ->
      (forall ts, reads_tags (w_db w') id ts -> Permutation names ts /\ NoDup ts)
      /\ exists pj,
          fst (POST_posts JSON_parse now f file w) = mkResponse 201 (JPost pj)
          /\ p_id (j_post pj) = id
          /\ reads_tags (w_db w') id (j_tags pj)
          /\ Permutation names (j_tags pj)
          /\ NoDup (j_tags pj)
          /\ exists l pj',
              fst (GET_posts w') = mkResponse 200 (JPosts l)
              /\ In pj' l
              /\ j_post pj' = j_post pj
              /\ reads_tags (w_db w') id (j_tags pj')
              /\ Permutation names (j_tags pj')
              /\ NoDup (j_tags pj')).
Proof.
  intros Ht Hv w' id. subst w'.
  split; [|split; [|split]].
  - rewrite (POST_posts_run JSON_parse now f file w title Ht), Hv.
    cbn [fst snd w_db items_of].
    apply (link_all_db_tags (snd (insert_post _ _ _ _ _ _ _ _))).
  - rewrite (POST_posts_run JSON_parse now f file w title Ht), Hv.
    cbn [fst snd w_db items_of]. intros U.
    now apply link_all_db_unique_names.
  - intros id' file' Tt.
    rewrite (PUT_post_run JSON_parse id' f file' w title Ht Tt), Hv.
    cbn [fst snd w_db items_of]. split.
    + apply (link_all_db_tags (delete_post_tags (update_post _ _ _ _ _ _ _) _)).
    + intros U. now apply link_all_db_unique_names.
  - intros N C E U O.
    rewrite (POST_posts_run JSON_parse now f file w title Ht), Hv.
    cbn [fst snd w_db w_log items_of answer insert_post].
    fold id.
    set (p := mkPost id title (slug_of_title title) (f_content f) (f_excerpt f)
                (option_map (String.append "/uploads/") file) (status_of f) now).
    set (d1 := mkDB (posts (w_db w) ++ [p]) (tags (w_db w)) (post_tags (w_db w))).
    set (d' := link_all_db d1 id names).
    assert (Hp : posts d' = posts (w_db w) ++ [p]) by apply link_all_db_posts.
    assert (Hj : joined_names d' id = names).
    { destruct (link_all_db_post_tags d1 id names) as (tids & P1 & P2 & _).
      apply (joined_names_linked d' id (post_tags (w_db w)) names tids); auto.
      now apply link_all_db_unique_ids. }
    assert (Hr : with_tags (select_row d' p) = mkPostJson p names).
    { unfold with_tags, select_row. cbn [row_post row_tags p_id p].
      rewrite Hj. f_equal. now apply aggregate_roundtrip. }
    assert (Ha : forall ts, reads_tags d' id ts -> Permutation names ts /\ NoDup ts).
    { intros ts R.
      assert (P : Permutation names ts).
      { apply (reads_tags_names d' id names ts); auto.
        rewrite Hj. apply Permutation_refl. }
      split; [exact P|]. now apply (Permutation_NoDup P). }
    assert (Hn : reads_tags d' id names).
    { pose proof (reads_tags_table d' id) as R. rewrite Hj in R.
      now rewrite (proj2 (aggregate_roundtrip names) (conj C E)) in R. }
    split; [exact Ha|].
    unfold select_post_by_id. rewrite Hp.
    rewrite (find_new_post (posts (w_db w)) p id eq_refl eq_refl). cbn [option_map].
    exists (mkPostJson p names). rewrite Hr. cbn [j_post j_tags p_id p].
    split; [reflexivity|]. split; [reflexivity|]. split; [exact Hn|].
    split; [apply Permutation_refl|]. split; [exact N|].
    rewrite GET_posts_run. cbn [fst w_db].
    eexists. exists (mkPostJson p names). split; [reflexivity|].
    split; [|now repeat split].
    rewrite <- Hr. apply in_map, in_select_posts. exists p. split; [|reflexivity].
    rewrite Hp. apply in_or_app. right. now left.
Qed.

Lemma tags_lazily_deduplicated_witness :
  let w1 := run (POST_posts json_string_array 5
                   (form_of (Some "First post") (Some (json_text ["a"]))) None)
                start in
  let f := form_of (Some "Second post") (Some (json_text ["b"; "a"])) in
  (f_title f = Some "Second post"
   /\ parse_tags json_string_array f = JArr ["b"; "a"])
  /\ tags (w_db w1) = [mkTag 1 "a"]
  /\ tags (w_db (snd (POST_posts json_string_array 6 f None w1)))
     = [mkTag 1 "a"; mkTag 2 "b"]
  /\ (forall ts,
        reads_tags (w_db (snd (POST_posts json_string_array 6 f None w1))) 2 ts ->
        Permutation ["b"; "a"] ts /\ NoDup ts)
  /\ exists pj,
       fst (POST_posts json_string_array 6 f None w1) = mkResponse 201 (JPost pj)
       /\ p_id (j_post pj) = 2
       /\ Permutation ["b"; "a"] (j_tags pj).
Proof.
  intros w1 f. split; [now split|]. split; [reflexivity|]. split; [reflexivity|].
  destruct (tags_lazily_deduplicated json_string_array 6 f None w1
              "Second post" ["b"; "a"] eq_refl eq_refl) as (_ & _ & _ & H).
  destruct H as (R & pj & H1 & H2 & _ & H3 & _).
  - repeat constructor; simpl; intuition discriminate.
  - now repeat constructor.
  - discriminate.
  - vm_compute. repeat constructor. simpl. tauto.
  - vm_compute. intros pt [<-|[]]. simpl. discriminate.
  - split; [exact R|]. exists pj. now repeat split.
Defined.

(** A tag name with a comma comes back as two names: the post created with
    the distinct tags [a,b] and [c] is answered, and read, with three tags. *)
Lemma comma_tag_not_read_back :
  let f := form_of (Some "Release notes") (Some (json_text ["a,b"; "c"])) in
  let w' := snd (POST_posts json_string_array 3 f None start) in
  parse_tags json_string_array f = JArr ["a,b"; "c"]
  /\ NoDup ["a,b"; "c"]
  /\ exists pj,
       fst (POST_posts json_string_array 3 f None start) = mkResponse 201 (JPost pj)
       /\ fst (GET_post_by_slug "release-notes" w') = mkResponse 200 (JPost pj)
       /\ j_tags pj = ["a"; "b"; "c"]
       /\ ~ Permutation ["a,b"; "c"] (j_tags pj).
Proof.
  intros f w'. split; [reflexivity|]. split.
  - repeat constructor; simpl; intuition discriminate.
  - eexists. split; [reflexivity|]. split; [reflexivity|]. split; [reflexivity|].
    intros P. apply Permutation_length in P. discriminate.
Qed.

(** An association written by an update of an identifier that no post
    carries yet is joined to the post that receives the identifier later. *)
Example association_adopted :
  let w1 := run (PUT_post json_string_array 1 (form_of (Some "Nowhere") (Some "x")) None)
                start in
  let f := form_of (Some "First post") (Some (json_text ["a"; "b"])) in
  exists pj,
    fst (POST_posts json_string_array 5 f None w1) = mkResponse 201 (JPost pj)
    /\ p_id (j_post pj) = 1
    /\ j_tags pj = ["x"; "a"; "b"].
Proof. eexists. repeat split. Qed.

(** ** The aggregate of the reads *)



(** X7. A tags field that parses to [null] makes the create handler throw
    after the INSERT of the post: the answer is 500, yet the posts table has
    one row more. *)
Lemma POST_posts_null_tags (JSON_parse : string -> option jsval) (now : nat)
    (f : form) (file : option string) (w : world) (title : string) :
  f_title f = Some title ->
  parse_tags JSON_parse f = JNull ->
  fst (POST_posts JSON_parse now f file w)
  = mkResponse 500 (JError "Failed to create post")
  /\ List.length (posts (w_db (snd (POST_posts JSON_parse now f file w))))
     = S (List.length (posts (w_db w))).
Proof.
  intros Ht Hv. rewrite (POST_posts_run JSON_parse now f file w title Ht), Hv.
  cbn [fst snd w_db items_of answer link_all_db insert_post posts].
  split; [reflexivity|]. rewrite length_app. simpl. lia.
Qed.

(** ** Keys of the tag table under the handlers *)

(** Every handler keeps the identifiers and the names of the tag table
    unique, whatever the request: the assumptions on the keys made above hold
    in every store that the handlers build from the empty one. *)
Lemma empty_db_keys : unique_tag_ids empty_db /\ unique_tag_names empty_db.
Proof. split; constructor. Qed.

Lemma POST_posts_keys (JSON_parse : string -> option jsval) (now : nat) (f : form)
    (file : option string) (w : world) :
  unique_tag_ids (w_db w) /\ unique_tag_names (w_db w) ->
  unique_tag_ids (w_db (snd (POST_posts JSON_parse now f file w)))
  /\ unique_tag_names (w_db (snd (POST_posts JSON_parse now f file w))).
Proof.
  intros [U N]. destruct (f_title f) as [title|] eqn:Ht.
  - rewrite (POST_posts_run JSON_parse now f file w title Ht).
    cbn [snd w_db]. split.
    + now apply link_all_db_unique_ids.
    + now apply link_all_db_unique_names.
  - unfold POST_posts, try_catch, bind, throw. rewrite Ht. now split.
Qed.

Lemma PUT_post_keys (JSON_parse : string -> option jsval) (id : nat) (f : form)
    (file : option string) (w : world) :
  unique_tag_ids (w_db w) /\ unique_tag_names (w_db w) ->
  unique_tag_ids (w_db (snd (PUT_post JSON_parse id f file w)))
  /\ unique_tag_names (w_db (snd (PUT_post JSON_parse id f file w))).
Proof.
  intros [U N]. destruct (field_truthy (f_title f)) eqn:T.
  - destruct (f_title f) as [title|] eqn:Ht; [|discriminate]. simpl in T.
    rewrite (PUT_post_run JSON_parse id f file w title Ht T).
    cbn [snd w_db]. split.
    + now apply link_all_db_unique_ids.
    + now apply link_all_db_unique_names.
  - rewrite (PUT_post_missing_title JSON_parse id f file w T). now split.
Qed.

Lemma DELETE_post_keys (id : nat) (w : world) :
  unique_tag_ids (w_db w) /\ unique_tag_names (w_db w) ->
  unique_tag_ids (w_db (snd (DELETE_post id w)))
  /\ unique_tag_names (w_db (snd (DELETE_post id w))).
Proof. rewrite DELETE_post_run. now intros [U N]. Qed.

(** * Further properties *)

(** ** The slug, continued *)

Lemma lower_char_slug_char (c : ascii) : slug_char c = true -> lower_char c = c.
Proof. all_ascii c. Qed.

Lemma slug_char_cases (c : ascii) :
  slug_char c = true -> is_lower_alnum c = false -> c = hyphen.
Proof.
  unfold slug_char. intros H E. rewrite E in H. now apply Ascii.eqb_eq.
Qed.

Lemma toLowerCase_slug_chars (s : string) :
  all_chars slug_char s = true -> toLowerCase s = s.
Proof.
  induction s as [|c r IH]; [reflexivity|]. simpl. intros H.
  apply andb_prop in H as [Hc Hr].
  now rewrite (lower_char_slug_char c Hc), (IH Hr).
Qed.

(** A string of slug characters without two hyphens in a row has no run
    for the first expression to shorten. *)
Lemma replace_runs_slug_chars (s : string) :
  all_chars slug_char s = true ->
  has_double_hyphen s = false ->
  replace_runs s = s /\ (starts_with_hyphen s = false -> skip_run s = s).
Proof.
  induction s as [|c r IH]; [now split|].
  cbn [all_chars]. rewrite has_double_hyphen_cons. intros H D.
  apply andb_prop in H as [Hc Hr]. apply orb_false_elim in D as [Dc Dr].
  destruct (IH Hr Dr) as [I1 I2]. cbn [replace_runs skip_run starts_with_hyphen].
  destruct (is_lower_alnum c) eqn:E.
  - rewrite I1. now split.
  - pose proof (slug_char_cases c Hc E) as ->.
    rewrite Ascii.eqb_refl in *. cbn [andb] in Dc. rewrite (I2 Dc).
    split; [reflexivity|discriminate].
Qed.

Lemma strip_leading_none (s : string) :
  starts_with_hyphen s = false -> strip_leading_hyphen s = s.
Proof. destruct s as [|c r]; simpl; [reflexivity|]. now intros ->. Qed.

Lemma strip_trailing_none (s : string) :
  ends_with_hyphen s = false -> strip_trailing_hyphen s = s.
Proof.
  induction s as [|c r IH]; [reflexivity|].
  destruct r as [|d r'].
  - simpl. now intros ->.
  - intros H. change (ends_with_hyphen (String d r') = false) in H.
    change (strip_trailing_hyphen (String c (String d r')))
      with (String c (strip_trailing_hyphen (String d r'))).
    now rewrite (IH H).
Qed.

(** X1. The slug of a slug is the slug itself: deriving the slug again from
    a derived slug changes nothing. *)
Theorem slug_of_title_idempotent (title : string) :
  slug_of_title (slug_of_title title) = slug_of_title title.
Proof.
  destruct (slug_shape title) as (C & D & S & E).
  set (s := slug_of_title title) in *.
  unfold slug_of_title at 1, replace_edge_hyphens.
  rewrite (toLowerCase_slug_chars s C).
  destruct (replace_runs_slug_chars s C D) as [-> _].
  now rewrite (strip_leading_none s S), (strip_trailing_none s E).
Qed.

Lemma replace_runs_any_alnum (s : string) :
  any_char is_lower_alnum (replace_runs s) = any_char is_lower_alnum s
  /\ any_char is_lower_alnum (skip_run s) = any_char is_lower_alnum s.
Proof.
  induction s as [|c r [I1 I2]]; [now split|].
  cbn [replace_runs skip_run any_char].
  destruct (is_lower_alnum c) eqn:E; cbn [any_char orb]; rewrite ?E; [now split|].
  split; [|exact I2]. rewrite I2. reflexivity.
Qed.

Lemma strip_leading_any_alnum (s : string) :
  any_char is_lower_alnum (strip_leading_hyphen s) = any_char is_lower_alnum s.
Proof.
  destruct s as [|c r]; [reflexivity|]. simpl.
  destruct (Ascii.eqb_spec c hyphen) as [->|]; reflexivity.
Qed.

Lemma strip_trailing_any_alnum (s : string) :
  any_char is_lower_alnum (strip_trailing_hyphen s) = any_char is_lower_alnum s.
Proof.
  induction s as [|c r IH]; [reflexivity|].
  destruct r as [|d r'].
  - simpl. destruct (Ascii.eqb_spec c hyphen) as [->|]; reflexivity.
  - change (strip_trailing_hyphen (String c (String d r')))
      with (String c (strip_trailing_hyphen (String d r'))).
    cbn [any_char] in *. now rewrite IH.
Qed.

Lemma any_not_all (P : ascii -> bool) (s : string) :
  any_char P s = negb (all_chars (fun c => negb (P c)) s).
Proof.
  induction s as [|c r IH]; [reflexivity|]. simpl.
  rewrite IH. now destruct (P c).
Qed.

Lemma replace_runs_units_any (s : list N) :
  existsb unit_lower_alnum (replace_runs_units s) = existsb unit_lower_alnum s
  /\ existsb unit_lower_alnum (skip_run_units s) = existsb unit_lower_alnum s.
Proof.
  induction s as [|u r [I1 I2]]; [now split|].
  cbn [replace_runs_units skip_run_units existsb].
  destruct (unit_lower_alnum u) eqn:E; cbn [existsb orb]; rewrite ?E; [now split|].
  split; [|exact I2]. rewrite I2. reflexivity.
Qed.

Lemma strip_leading_units_any (s : list N) :
  existsb unit_lower_alnum (strip_leading_hyphen_units s)
  = existsb unit_lower_alnum s.
Proof.
  destruct s as [|u r]; [reflexivity|]. simpl.
  destruct (N.eqb_spec u hyphen_unit) as [->|]; reflexivity.
Qed.

Lemma strip_trailing_units_any (s : list N) :
  existsb unit_lower_alnum (strip_trailing_hyphen_units s)
  = existsb unit_lower_alnum s.
Proof.
  induction s as [|u r IH]; [reflexivity|].
  destruct r as [|v r'].
  - simpl. destruct (N.eqb_spec u hyphen_unit) as [->|]; reflexivity.
  - rewrite strip_trailing_units_cons. cbn [existsb] in *. now rewrite IH.
Qed.

Lemma existsb_not_forallb (P : N -> bool) (s : list N) :
  existsb P s = negb (forallb (fun u => negb (P u)) s).
Proof.
  induction s as [|u r IH]; [reflexivity|]. simpl.
  rewrite IH. now destruct (P u).
Qed.

Lemma slug_unit_cases (u : N) :
  slug_unit u = true -> unit_lower_alnum u = false -> u = hyphen_unit.
Proof.
  unfold slug_unit. intros H E. rewrite E in H. now apply N.eqb_eq.
Qed.

(** X2. The slug is empty exactly when the lowercased title holds no
    character of [[a-z0-9]]: such a title, the empty one included, is stored
    under the empty slug. This is so of a title of 16-bit code units under
    any lowercasing, where a title without ASCII letter or digit can have a
    slug that is not empty (U+212A is lowercased to [k]), and of the titles
    below U+0100 under their lowercasing. *)
Theorem slug_of_title_empty :
  (forall (lower : list N -> list N) (title : list N),
     slug_of_units lower title = []
     <-> forallb (fun u => negb (unit_lower_alnum u)) (lower title) = true)
  /\ (forall title : string,
       slug_of_title title = EmptyString
       <-> all_chars (fun c => negb (is_lower_alnum c)) (toLowerCase title) = true).
Proof.
  split.
  - intros lower title.
    assert (A : existsb unit_lower_alnum (slug_of_units lower title)
                = existsb unit_lower_alnum (lower title)).
    { unfold slug_of_units, replace_edge_hyphens_units.
      rewrite strip_trailing_units_any, strip_leading_units_any.
      now destruct (replace_runs_units_any (lower title)) as [-> _]. }
    rewrite (existsb_not_forallb unit_lower_alnum (lower title)) in A. split.
    + intros E. rewrite E in A. simpl in A.
      now destruct (forallb _ (lower title)).
    + intros H. rewrite H in A. simpl in A.
      destruct (replace_units_shape (lower title)) as (C & _ & S & _).
      fold (slug_of_units lower title) in C, S.
      destruct (slug_of_units lower title) as [|u r]; [reflexivity|].
      exfalso. cbn [forallb existsb starts_with_hyphen_units] in *.
      apply andb_prop in C as [C _]. apply orb_false_elim in A as [A _].
      rewrite (slug_unit_cases u C A) in S. discriminate.
  - intros title.
    assert (A : any_char is_lower_alnum (slug_of_title title)
                = any_char is_lower_alnum (toLowerCase title)).
    { unfold slug_of_title, replace_edge_hyphens.
      rewrite strip_trailing_any_alnum, strip_leading_any_alnum.
      now destruct (replace_runs_any_alnum (toLowerCase title)) as [-> _]. }
    rewrite (any_not_all is_lower_alnum (toLowerCase title)) in A. split.
    + intros E. rewrite E in A. simpl in A.
      now destruct (all_chars _ (toLowerCase title)).
    + intros H. rewrite H in A. simpl in A.
      destruct (slug_shape title) as (C & _ & S & _).
      destruct (slug_of_title title) as [|c r]; [reflexivity|].
      exfalso. cbn [all_chars any_char starts_with_hyphen] in *.
      apply andb_prop in C as [C _]. apply orb_false_elim in A as [A _].
      rewrite (slug_char_cases c C A) in S. discriminate.
Qed.

(** ** Comma-separated tags, continued *)

(** X3. Names that are non-empty, trimmed and free of commas come back
    unchanged from the fallback parse of their comma-joined text. *)
Theorem comma_list_join (names : list string) :
  Forall (fun t => truthy t = true /\ trim t = t /\ has_comma t = false) names ->
  comma_list (join_comma names) = names.
Proof.
  intros H. destruct names as [|n r]; [reflexivity|].
  unfold comma_list. rewrite split_join_comma; [|discriminate|].
  - induction H as [|t l (T & R & _) _ IH]; [reflexivity|].
    simpl. now rewrite R, T, IH.
  - eapply Forall_impl; [|exact H]. now intros t (_ & _ & C).
Qed.

Lemma comma_list_join_witness :
  Forall (fun t => truthy t = true /\ trim t = t /\ has_comma t = false)
         ["news"; "rocq prover"]
  /\ comma_list (join_comma ["news"; "rocq prover"]) = ["news"; "rocq prover"].
Proof.
  assert (H : Forall (fun t => truthy t = true /\ trim t = t /\ has_comma t = false)
                     ["news"; "rocq prover"])
    by (repeat constructor).
  split; [exact H|]. exact (comma_list_join _ H).
Defined.

(** ** Reading by slug *)

Lemma find_slug_none (l : list post) (slug : string) :
  find (fun p => String.eqb (p_slug p) slug) l = None <-> ~ In slug (map p_slug l).
Proof.
  induction l as [|x r IH]; simpl; [tauto|].
  destruct (String.eqb_spec (p_slug x) slug) as [E|E].
  - split; [discriminate|]. intros H. exfalso. auto.
  - rewrite IH. tauto.
Qed.

Lemma find_slug_first (l : list post) (slug : string) (p : post) :
  find (fun q => String.eqb (p_slug q) slug) l = Some p ->
  p_slug p = slug
  /\ exists l1 l2, l = l1 ++ p :: l2 /\ ~ In slug (map p_slug l1).
Proof.
  induction l as [|x r IH]; simpl; [discriminate|].
  destruct (String.eqb_spec (p_slug x) slug) as [E|E].
  - intros [= <-]. split; [exact E|]. now exists [], r.
  - intros H. destruct (IH H) as (Hs & l1 & l2 & -> & Hn).
    split; [exact Hs|]. exists (x :: l1), l2. split; [reflexivity|].
    simpl. tauto.
Qed.

(** X4. The by-slug operation leaves the store as it is; it answers 404
    exactly when no post carries the slug, and otherwise with the first post
    of the table that carries it, later posts with the same slug being
    passed over. *)
Theorem GET_post_by_slug_spec (slug : string) (w : world) :
  w_db (snd (GET_post_by_slug slug w)) = w_db w
  /\ (fst (GET_post_by_slug slug w) = mkResponse 404 (JError "Post not found")
      <-> ~ In slug (map p_slug (posts (w_db w))))
  /\ (In slug (map p_slug (posts (w_db w))) ->
      exists pj l1 l2,
        fst (GET_post_by_slug slug w) = mkResponse 200 (JPost pj)
        /\ p_slug (j_post pj) = slug
        /\ posts (w_db w) = l1 ++ j_post pj :: l2
        /\ ~ In slug (map p_slug l1)).
Proof.
  rewrite GET_post_by_slug_run. cbn [fst snd w_db].
  unfold select_post_by_slug.
  split; [reflexivity|]. split.
  - rewrite <- find_slug_none.
    destruct (find _ (posts (w_db w))); simpl; split; congruence.
  - intros H. destruct (find _ (posts (w_db w))) as [p|] eqn:F.
    + destruct (find_slug_first _ _ _ F) as (Hs & l1 & l2 & E & Hn).
      exists (with_tags (select_row (w_db w) p)), l1, l2. now repeat split.
    + apply find_slug_none in F. contradiction.
Qed.

(** ** Creating, continued *)

Lemma POST_posts_db (JSON_parse : string -> option jsval) (now : nat) (f : form)
    (file : option string) (w : world) (title : string) :
  f_title f = Some title ->
  let p := mkPost (next_id (map p_id (posts (w_db w)))) title (slug_of_title title)
             (f_content f) (f_excerpt f)
             (option_map (String.append "/uploads/") file) (status_of f) now in
  w_db (snd (POST_posts JSON_parse now f file w))
  = link_all_db (mkDB (posts (w_db w) ++ [p]) (tags (w_db w)) (post_tags (w_db w)))
      (p_id p) (items_of (parse_tags JSON_parse f))
  /\ fst (POST_posts JSON_parse now f file w)
     = match parse_tags JSON_parse f with
       | JNull => mkResponse 500 (JError "Failed to create post")
       | _ => mkResponse 201
                (JPost (with_tags
                   (select_row (w_db (snd (POST_posts JSON_parse now f file w))) p)))
       end.
Proof.
  intros Ht p.
  rewrite (POST_posts_run JSON_parse now f file w title Ht).
  cbn [fst snd w_db insert_post]. fold p. split; [reflexivity|].
  unfold answer, select_post_by_id.
  rewrite link_all_db_posts. cbn [posts].
  rewrite (find_new_post (posts (w_db w)) p _ eq_refl eq_refl).
  reflexivity.
Qed.

(** X5. A create request with a title adds one row with a fresh
    identifier at the end of the posts table, with the title, its slug, the
    fields of the form, the path of the uploaded file under [/uploads/] and
    the status of the form or [draft]; the rows, tags and associations that
    were there stay in front of the new ones, and the new associations are
    those of the new post.  Unless the tags field parses to [null], the
    answer is 201 with that row. *)
Theorem POST_posts_appends (JSON_parse : string -> option jsval) (now : nat)
    (f : form) (file : option string) (w : world) (title : string) :
  f_title f = Some title ->
  let w' := snd (POST_posts JSON_parse now f file w) in
  let p := mkPost (next_id (map p_id (posts (w_db w)))) title (slug_of_title title)
             (f_content f) (f_excerpt f)
             (option_map (String.append "/uploads/") file) (status_of f) now in
  posts (w_db w') = posts (w_db w) ++ [p]
  /\ ~ In (p_id p) (map p_id (posts (w_db w)))
  /\ (exists links,
        post_tags (w_db w') = post_tags (w_db w) ++ links
        /\ Forall (fun pt => pt_post_id pt = p_id p) links)
  /\ (exists ext, tags (w_db w') = tags (w_db w) ++ ext)
  /\ (parse_tags JSON_parse f <> JNull ->
      exists names, fst (POST_posts JSON_parse now f file w)
                    = mkResponse 201 (JPost (mkPostJson p names))).
Proof.
  intros Ht w' p. subst w'.
  destruct (POST_posts_db JSON_parse now f file w title Ht) as [Db Ans].
  fold p in Db, Ans.
  set (d1 := mkDB (posts (w_db w) ++ [p]) (tags (w_db w)) (post_tags (w_db w))) in Db.
  split; [rewrite Db; apply (link_all_db_posts d1)|].
  split; [apply next_id_fresh|]. split; [|split].
  - rewrite Db.
    destruct (link_all_db_post_tags d1 (p_id p) (items_of (parse_tags JSON_parse f)))
      as (tids & P1 & _).
    exists (map (mkPostTag (p_id p)) tids). split; [exact P1|].
    apply Forall_forall. intros pt H. apply in_map_iff in H as (t & <- & _).
    reflexivity.
  - rewrite Db.
    destruct (link_all_db_tags d1 (p_id p) (items_of (parse_tags JSON_parse f)))
      as (ext & E & _).
    now exists ext.
  - intros Hv. rewrite Ans.
    exists (j_tags (with_tags
              (select_row (w_db (snd (POST_posts JSON_parse now f file w))) p))).
    now destruct (parse_tags JSON_parse f).
Qed.

Lemma POST_posts_appends_witness :
  let f := mkForm (Some "Hello, World!") (Some "text") None (Some "published")
                  (Some "a, b") in
  f_title f = Some "Hello, World!"
  /\ posts (w_db (snd (POST_posts json_string_array 9 f (Some "17-42.png") start)))
     = [mkPost 1 "Hello, World!" "hello-world" (Some "text") None
               (Some "/uploads/17-42.png") "published" 9].
Proof.
  intros f. split; [reflexivity|].
  exact (proj1 (POST_posts_appends json_string_array 9 f (Some "17-42.png") start
                  "Hello, World!" eq_refl)).
Defined.

(** X6. A post created under a slug that a post of the store already
    carries cannot be fetched by its slug: the by-slug operation still
    answers with the row of the older post. *)
Theorem POST_posts_slug_taken (JSON_parse : string -> option jsval) (now : nat)
    (f : form) (file : option string) (w : world) (title : string) :
  f_title f = Some title ->
  In (slug_of_title title) (map p_slug (posts (w_db w))) ->
  let w' := snd (POST_posts JSON_parse now f file w) in
  exists pj pj',
    fst (GET_post_by_slug (slug_of_title title) w) = mkResponse 200 (JPost pj)
    /\ fst (GET_post_by_slug (slug_of_title title) w') = mkResponse 200 (JPost pj')
    /\ j_post pj' = j_post pj
    /\ In (j_post pj) (posts (w_db w))
    /\ p_id (j_post pj') <> next_id (map p_id (posts (w_db w)))
    /\ List.length (posts (w_db w')) = S (List.length (posts (w_db w))).
Proof.
  intros Ht Hin w'. subst w'.
  destruct (POST_posts_db JSON_parse now f file w title Ht) as [Db _].
  pose proof (f_equal posts Db) as Hp. rewrite link_all_db_posts in Hp.
  cbn [posts] in Hp. clear Db.
  rewrite !GET_post_by_slug_run. cbn [fst w_db]. unfold select_post_by_slug.
  rewrite Hp, find_app.
  destruct (find _ (posts (w_db w))) as [q|] eqn:F.
  - cbn [option_map]. eexists _, _. split; [reflexivity|]. split; [reflexivity|].
    apply find_some in F as [Hq _].
    split; [reflexivity|]. split; [exact Hq|]. split.
    + cbn [with_tags select_row j_post row_post]. intros E.
      apply (next_id_fresh (map p_id (posts (w_db w)))). rewrite <- E.
      now apply in_map.
    + rewrite length_app. simpl. lia.
  - apply find_slug_none in F. contradiction.
Qed.

Lemma POST_posts_slug_taken_witness :
  let w := run (POST_posts json_string_array 5 (form_of (Some "Hello World") None) None)
               start in
  let f := form_of (Some "hello, world!") None in
  (f_title f = Some "hello, world!"
   /\ In (slug_of_title "hello, world!") (map p_slug (posts (w_db w))))
  /\ exists pj pj',
       fst (GET_post_by_slug "hello-world" w) = mkResponse 200 (JPost pj)
       /\ fst (GET_post_by_slug "hello-world"
                 (snd (POST_posts json_string_array 6 f None w)))
          = mkResponse 200 (JPost pj')
       /\ j_post pj' = j_post pj.
Proof.
  intros w f.
  assert (H : In (slug_of_title "hello, world!") (map p_slug (posts (w_db w))))
    by now left.
  split; [now split|].
  destruct (POST_posts_slug_taken json_string_array 6 f None w "hello, world!" eq_refl H)
    as (pj & pj' & E1 & E2 & E3 & _).
  now exists pj, pj'.
Defined.

Lemma POST_posts_null_tags_witness :
  let f := form_of (Some "Half done") (Some "null") in
  (f_title f = Some "Half done" /\ parse_tags json_null_or_array f = JNull)
  /\ POST_posts json_null_or_array 4 f None start
     = (mkResponse 500 (JError "Failed to create post"),
        mkWorld (mkDB [mkPost 1 "Half done" "half-done" None None None "draft" 4] [] [])
                [InsertPost "Half done" "half-done"])
  /\ fst (POST_posts json_null_or_array 4 f None start)
     = mkResponse 500 (JError "Failed to create post").
Proof.
  intros f. split; [now split|]. split; [reflexivity|].
  exact (proj1 (POST_posts_null_tags json_null_or_array 4 f None start "Half done"
                  eq_refl eq_refl)).
Defined.

(** ** Updating, continued *)

(** X8. An update with a title keeps the number and the order of the rows
    of the posts table, and in each row the identifier, the slug and the
    created timestamp: the slug does not follow the new title.  The rows of
    the other posts are untouched; the row of the post takes the title,
    content, excerpt and status of the request, and the image path only when
    a file comes with the request. *)
Theorem PUT_post_keeps_identity (JSON_parse : string -> option jsval) (id : nat)
    (f : form) (file : option string) (w : world) (title : string) :
  f_title f = Some title -> truthy title = true ->
  Forall2 (updated_row id title f file)
          (posts (w_db w))
          (posts (w_db (snd (PUT_post JSON_parse id f file w)))).
Proof.
  intros Ht Tt. rewrite (PUT_post_run JSON_parse id f file w title Ht Tt).
  cbn [snd w_db]. rewrite link_all_db_posts. cbn [delete_post_tags update_post posts].
  induction (posts (w_db w)) as [|p r IH]; simpl; constructor; [|exact IH].
  unfold updated_row. destruct (Nat.eqb_spec (p_id p) id) as [E|E].
  - simpl. repeat split; try easy.
    + now intros ->.
    + now intros name ->.
  - repeat split; try easy.
Qed.

Lemma PUT_post_keeps_identity_witness :
  let w := run (POST_posts json_string_array 5 (form_of (Some "First title") None) None)
               start in
  let f := form_of (Some "Second title") None in
  (f_title f = Some "Second title" /\ truthy "Second title" = true)
  /\ posts (w_db (snd (PUT_post json_string_array 1 f None w)))
     = [mkPost 1 "Second title" "first-title" None None None "draft" 5]
  /\ Forall2 (updated_row 1 "Second title" f None)
             (posts (w_db w))
             (posts (w_db (snd (PUT_post json_string_array 1 f None w)))).
Proof.
  intros w f. split; [now split|]. split; [reflexivity|].
  exact (PUT_post_keeps_identity json_string_array 1 f None w "Second title"
           eq_refl eq_refl).
Defined.

Lemma status_400 (v : jsval) (d : DB) (id code : nat) (failure : string) :
  code <> 400 -> status (answer code failure v d id) <> 400.
Proof.
  intros H. unfold answer.
  destruct v; try destruct (select_post_by_id d id); simpl; congruence.
Qed.

(** X9. The update handler answers 400 exactly when the title is missing
    or empty, and then before any statement: the world is as it was. *)
Theorem PUT_post_bad_request (JSON_parse : string -> option jsval) (id : nat)
    (f : form) (file : option string) (w : world) :
  (status (fst (PUT_post JSON_parse id f file w)) = 400
   <-> field_truthy (f_title f) = false)
  /\ (field_truthy (f_title f) = false ->
      PUT_post JSON_parse id f file w
      = (mkResponse 400 (JError "Title is required"), w)).
Proof.
  split; [|apply PUT_post_missing_title].
  destruct (field_truthy (f_title f)) eqn:T.
  - destruct (f_title f) as [title|] eqn:Ht; [|discriminate]. simpl in T.
    rewrite (PUT_post_run JSON_parse id f file w title Ht T). cbn [fst].
    split; [|discriminate]. intros H. exfalso. revert H.
    apply status_400. discriminate.
  - rewrite (PUT_post_missing_title JSON_parse id f file w T). now split.
Qed.

(** ** The tag table under the handlers *)

(** X10. No handler deletes or changes a tag row: after a create or an
    update the tag table is the old one with new rows behind it, and a delete
    leaves it as it is, the tags of the deleted post included. *)
Theorem handlers_keep_tags (JSON_parse : string -> option jsval) (w : world) :
  (forall now f file,
      exists ext, tags (w_db (snd (POST_posts JSON_parse now f file w)))
                  = tags (w_db w) ++ ext)
  /\ (forall id f file,
        exists ext, tags (w_db (snd (PUT_post JSON_parse id f file w)))
                    = tags (w_db w) ++ ext)
  /\ (forall id, tags (w_db (snd (DELETE_post id w))) = tags (w_db w)).
Proof.
  split; [|split].
  - intros now f file. destruct (f_title f) as [title|] eqn:Ht.
    + rewrite (POST_posts_run JSON_parse now f file w title Ht). cbn [snd w_db].
      destruct (link_all_db_tags
                  (snd (insert_post (w_db w) now title (slug_of_title title)
                          (f_content f) (f_excerpt f)
                          (option_map (String.append "/uploads/") file) (status_of f)))
                  (fst (insert_post (w_db w) now title (slug_of_title title)
                          (f_content f) (f_excerpt f)
                          (option_map (String.append "/uploads/") file) (status_of f)))
                  (items_of (parse_tags JSON_parse f))) as (ext & E & _).
      now exists ext.
    + exists []. unfold POST_posts, try_catch, bind, throw. rewrite Ht. simpl.
      now rewrite app_nil_r.
  - intros id f file. destruct (field_truthy (f_title f)) eqn:T.
    + destruct (f_title f) as [title|] eqn:Ht; [|discriminate]. simpl in T.
      rewrite (PUT_post_run JSON_parse id f file w title Ht T). cbn [snd w_db].
      destruct (link_all_db_tags
                  (delete_post_tags
                     (update_post (w_db w) id title (f_content f) (f_excerpt f)
                        (status_of f) (option_map (String.append "/uploads/") file)) id)
                  id (items_of (parse_tags JSON_parse f))) as (ext & E & _).
      now exists ext.
    + rewrite (PUT_post_missing_title JSON_parse id f file w T). exists [].
      simpl. now rewrite app_nil_r.
  - intros id. now rewrite DELETE_post_run.
Qed.

(** ** Deleting, continued *)

Lemma filter_twice {A} (g : A -> bool) (l : list A) :
  filter g (filter g l) = filter g l.
Proof.
  induction l as [|x r IH]; [reflexivity|]. simpl.
  destruct (g x) eqn:E; simpl; rewrite ?E, IH; reflexivity.
Qed.

Lemma filter_none_left (l : list post) (id : nat) :
  filter (fun p => Nat.eqb (p_id p) id)
         (filter (fun p => negb (Nat.eqb (p_id p) id)) l) = [].
Proof.
  induction l as [|x r IH]; [reflexivity|]. simpl.
  destruct (Nat.eqb (p_id x) id) eqn:E; simpl; rewrite ?E; exact IH.
Qed.

(** X11. Deleting is idempotent on the store: a second delete of the same
    identifier finds no row, answers 404 and leaves the store as the first
    delete left it. *)
Theorem DELETE_post_twice (id : nat) (w : world) :
  fst (DELETE_post id (snd (DELETE_post id w)))
  = mkResponse 404 (JError "Post not found")
  /\ w_db (snd (DELETE_post id (snd (DELETE_post id w))))
     = w_db (snd (DELETE_post id w)).
Proof.
  rewrite !DELETE_post_run.
  cbn [fst snd w_db delete_post delete_post_tags posts tags post_tags].
  rewrite filter_none_left, !filter_twice. now split.
Qed.

(** ** Listing after a delete *)

Lemma insert_desc_head (r : row) (l : list row) :
  Forall (fun x => created x <= created r) l -> insert_desc r l = r :: l.
Proof.
  destruct l as [|x rest]; [reflexivity|]. intros H. inversion H; subst.
  simpl. destruct (Nat.ltb_spec (p_created_at (row_post r)) (p_created_at (row_post x)));
    [unfold created in *; lia|reflexivity].
Qed.

Lemma desc_transitive : Relations_1.Transitive desc.
Proof. intros x y z. unfold desc. lia. Qed.

(** Removing rows from a listing in descending order and inserting a row
    come to the same in either order. *)
Lemma filter_insert_desc (g : row -> bool) (r : row) (l : list row) :
  Sorted desc l ->
  filter g (insert_desc r l)
  = if g r then insert_desc r (filter g l) else filter g l.
Proof.
  induction l as [|x rest IH]; intros S; [reflexivity|].
  pose proof (Sorted_StronglySorted desc_transitive S) as SS.
  apply StronglySorted_inv in SS as [_ Hx].
  apply Sorted_inv in S as [S _]. specialize (IH S).
  cbn [insert_desc].
  destruct (Nat.ltb_spec (p_created_at (row_post r)) (p_created_at (row_post x))) as [L|L].
  - cbn [filter]. rewrite IH. destruct (g x), (g r); try reflexivity.
    cbn [insert_desc].
    destruct (Nat.ltb_spec (p_created_at (row_post r)) (p_created_at (row_post x)));
      [reflexivity|lia].
  - cbn [filter]. destruct (g r); [|reflexivity]. destruct (g x).
    + cbn [insert_desc].
      destruct (Nat.ltb_spec (p_created_at (row_post r)) (p_created_at (row_post x)));
        [lia|reflexivity].
    + symmetry. apply insert_desc_head.
      apply Forall_forall. intros y Hy. apply filter_In in Hy as [Hy _].
      rewrite Forall_forall in Hx. specialize (Hx y Hy).
      unfold desc, created in *. lia.
Qed.

Lemma filter_order_by_created_desc (g : row -> bool) (l : list row) :
  filter g (order_by_created_desc l) = order_by_created_desc (filter g l).
Proof.
  induction l as [|r rest IH]; [reflexivity|]. cbn [order_by_created_desc filter].
  rewrite filter_insert_desc by apply order_by_created_desc_sorted.
  rewrite IH. now destruct (g r).
Qed.

Lemma joined_names_other (d : DB) (id pid : nat) :
  pid <> id ->
  joined_names (snd (delete_post (delete_post_tags d id) id)) pid = joined_names d pid.
Proof.
  intros H. unfold joined_names. cbn [delete_post delete_post_tags snd tags post_tags].
  f_equal. induction (post_tags d) as [|x r IH]; [reflexivity|]. cbn [filter].
  destruct (Nat.eqb_spec (pt_post_id x) id) as [E|E]; cbn [negb filter].
  - destruct (Nat.eqb_spec (pt_post_id x) pid) as [E'|E']; [congruence|exact IH].
  - now rewrite IH.
Qed.

Lemma select_rows_kept (d e : DB) (id : nat) (l : list post) :
  (forall pid, pid <> id -> joined_names e pid = joined_names d pid) ->
  map (select_row e) (filter (fun p => negb (Nat.eqb (p_id p) id)) l)
  = filter (keeps_row id) (map (select_row d) l).
Proof.
  intros H. induction l as [|p r IH]; [reflexivity|]. cbn [filter map].
  unfold keeps_row at 1. cbn [select_row row_post].
  destruct (Nat.eqb_spec (p_id p) id) as [E|E]; cbn [negb map]; [exact IH|].
  rewrite IH. f_equal. unfold select_row. now rewrite (H _ E).
Qed.

(** X12. After a delete the list operation answers with the listing it
    gave before, in the same order and with the same tags, less the entries
    of the deleted identifier. *)
Theorem GET_posts_after_delete (id : nat) (w : world) :
  exists l,
    fst (GET_posts w) = mkResponse 200 (JPosts l)
    /\ fst (GET_posts (snd (DELETE_post id w)))
       = mkResponse 200
           (JPosts (filter (fun pj => negb (Nat.eqb (p_id (j_post pj)) id)) l)).
Proof.
  rewrite DELETE_post_run, !GET_posts_run. cbn [fst snd w_db].
  eexists. split; [reflexivity|]. do 2 f_equal.
  set (d := w_db w). set (d' := snd (delete_post (delete_post_tags d id) id)).
  transitivity (map with_tags (filter (keeps_row id) (select_posts d))).
  - f_equal. unfold select_posts. rewrite filter_order_by_created_desc. f_equal.
    apply select_rows_kept. intros pid H. now apply joined_names_other.
  - induction (select_posts d) as [|r l IH]; [reflexivity|]. cbn [filter map].
    unfold keeps_row at 1. cbn [with_tags j_post].
    destruct (Nat.eqb (p_id (row_post r)) id); cbn [negb map]; now rewrite IH.
Qed.

(** ** Updating twice *)

Lemma DB_eta (d : DB) : mkDB (posts d) (tags d) (post_tags d) = d.
Proof. now destruct d. Qed.

Lemma select_tag_id_tags (d d' : DB) (name : string) :
  tags d = tags d' -> select_tag_id d name = select_tag_id d' name.
Proof. unfold select_tag_id. now intros ->. Qed.

(** When the store holds a tag for each name, the loop inserts no tag. *)
Lemma link_all_db_present (d : DB) (post_id : nat) (names : list string)
    (tids : list nat) :
  Forall2 (fun n tid => select_tag_id d n = Some tid) names tids ->
  link_all_db d post_id names
  = mkDB (posts d) (tags d) (post_tags d ++ map (mkPostTag post_id) tids).
Proof.
  intros F. revert d tids F. induction names as [|n r IH]; intros d tids F.
  - inversion F; subst. simpl. rewrite app_nil_r. symmetry. apply DB_eta.
  - inversion F as [|? tid ? ts Hn Fr]; subst. cbn [link_all_db].
    unfold link_db at 1. rewrite Hn.
    rewrite (IH (insert_post_tag d post_id tid) ts).
    + cbn [insert_post_tag posts tags post_tags map]. now rewrite <- app_assoc.
    + eapply Forall2_impl; [|exact Fr]. intros m t Hm.
      now rewrite <- Hm.
Qed.

Lemma filter_links_out (l : list post_tag) (id : nat) (tids : list nat) :
  filter (fun pt => negb (Nat.eqb (pt_post_id pt) id)) (l ++ map (mkPostTag id) tids)
  = filter (fun pt => negb (Nat.eqb (pt_post_id pt) id)) l.
Proof.
  rewrite filter_app. rewrite <- (app_nil_r (filter _ l)) at 2. f_equal.
  induction tids as [|t r IH]; [reflexivity|]. simpl.
  now rewrite Nat.eqb_refl.
Qed.

Lemma update_row_again (title : string) (content excerpt : option string)
    (status : string) (image : option string) (p : post) :
  update_row title content excerpt status None
    (update_row title content excerpt status image p)
  = update_row title content excerpt status image p.
Proof. unfold update_row. simpl. now destruct image. Qed.

Lemma update_row_image (title : string) (content excerpt : option string)
    (status : string) (image image' : option string) (p : post) :
  without_image
    (update_row title content excerpt status image'
       (update_row title content excerpt status image p))
  = without_image (update_row title content excerpt status image p).
Proof. reflexivity. Qed.

(** The store after the request is sent again, under whatever names the
    files of the two requests are stored. *)
Lemma PUT_post_again (JSON_parse : string -> option jsval) (id : nat)
    (f : form) (file file' : option string) (w : world) (title : string) :
  f_title f = Some title -> truthy title = true ->
  let d1 := w_db (snd (PUT_post JSON_parse id f file w)) in
  let d2 := w_db (snd (PUT_post JSON_parse id f file'
                         (snd (PUT_post JSON_parse id f file w)))) in
  posts d2
  = map (fun p => if Nat.eqb (p_id p) id
                  then update_row title (f_content f) (f_excerpt f) (status_of f)
                         (option_map (String.append "/uploads/") file')
                         (if Nat.eqb (p_id p) id
                          then update_row title (f_content f) (f_excerpt f)
                                 (status_of f)
                                 (option_map (String.append "/uploads/") file) p
                          else p)
                  else p) (posts (w_db w))
  /\ posts d1
     = map (fun p => if Nat.eqb (p_id p) id
                     then update_row title (f_content f) (f_excerpt f) (status_of f)
                            (option_map (String.append "/uploads/") file) p
                     else p) (posts (w_db w))
  /\ tags d2 = tags d1
  /\ post_tags d2 = post_tags d1.
Proof.
  intros Ht T. cbv zeta.
  rewrite !(PUT_post_run JSON_parse id f _ _ title Ht T). cbn [snd w_db].
  set (names := items_of (parse_tags JSON_parse f)).
  set (image := option_map (String.append "/uploads/") file).
  set (image' := option_map (String.append "/uploads/") file').
  set (d0 := delete_post_tags
               (update_post (w_db w) id title (f_content f) (f_excerpt f)
                  (status_of f) image) id).
  destruct (link_all_db_post_tags d0 id names) as (tids & P1 & P2 & _).
  set (d1 := link_all_db d0 id names) in *.
  rewrite (link_all_db_present _ id names tids).
  - cbn [delete_post_tags update_post posts tags post_tags].
    split; [|split; [|split]].
    + unfold d1. rewrite link_all_db_posts. unfold d0.
      cbn [delete_post_tags update_post posts]. rewrite map_map.
      apply map_ext. intros p.
      destruct (Nat.eqb (p_id p) id) eqn:e.
      * cbn [update_row p_id]. now rewrite e.
      * now rewrite e.
    + unfold d1. now rewrite link_all_db_posts.
    + reflexivity.
    + rewrite P1. unfold d0 at 1. cbn [delete_post_tags post_tags].
      now rewrite filter_links_out, filter_twice.
  - eapply Forall2_impl; [|exact P2]. intros n t Hn.
    rewrite <- Hn. now apply select_tag_id_tags.
Qed.

(** X13. The update is idempotent on the store for a request without a
    file: sent again, it leaves the store as the first request left it and
    gets the same answer; this is so even when the first request carried a
    file. A request with a file is stored under a fresh name each time it is
    sent, so that the second request can change the image column; it changes
    nothing else: the tags, the associations and the other columns of the
    posts stay as the first request left them. *)
Theorem PUT_post_twice (JSON_parse : string -> option jsval) (id : nat)
    (f : form) (file : option string) (w : world) :
  let w1 := snd (PUT_post JSON_parse id f file w) in
  w_db (snd (PUT_post JSON_parse id f None w1)) = w_db w1
  /\ fst (PUT_post JSON_parse id f None w1) = fst (PUT_post JSON_parse id f file w)
  /\ (forall file' : option string,
       let w2 := snd (PUT_post JSON_parse id f file' w1) in
       map without_image (posts (w_db w2)) = map without_image (posts (w_db w1))
       /\ tags (w_db w2) = tags (w_db w1)
       /\ post_tags (w_db w2) = post_tags (w_db w1)).
Proof.
  intros w1. subst w1.
  destruct (field_truthy (f_title f)) eqn:T.
  2:{ rewrite !(PUT_post_missing_title JSON_parse id f _ _ T). cbn [snd fst].
      split; [reflexivity|]. split; [reflexivity|]. intros file'.
      rewrite !(PUT_post_missing_title JSON_parse id f _ _ T). now cbn [snd]. }
  destruct (f_title f) as [title|] eqn:Ht; [|discriminate]. simpl in T.
  assert (E : w_db (snd (PUT_post JSON_parse id f None
                           (snd (PUT_post JSON_parse id f file w))))
              = w_db (snd (PUT_post JSON_parse id f file w))).
  { destruct (PUT_post_again JSON_parse id f file None w title Ht T)
      as (P2 & P1 & Tg & Pt).
    rewrite <- (DB_eta (w_db (snd (PUT_post JSON_parse id f None _)))).
    rewrite <- (DB_eta (w_db (snd (PUT_post JSON_parse id f file w)))).
    rewrite Tg, Pt, P2, P1. f_equal. apply map_ext. intros p.
    destruct (Nat.eqb (p_id p) id); [|reflexivity].
    apply update_row_again. }
  split; [exact E|]. split.
  - rewrite (PUT_post_run JSON_parse id f None _ title Ht T). cbn [fst].
    rewrite (PUT_post_run JSON_parse id f None _ title Ht T) in E.
    cbn [snd w_db] in E. rewrite E.
    now rewrite (PUT_post_run JSON_parse id f file w title Ht T).
  - intros file'. cbv zeta.
    destruct (PUT_post_again JSON_parse id f file file' w title Ht T)
      as (P2 & P1 & Tg & Pt).
    split; [|now split]. rewrite P2, P1, !map_map. apply map_ext. intros p.
    destruct (Nat.eqb (p_id p) id); [|reflexivity].
    apply update_row_image.
Qed.

(** ** The tags of the answer to a create *)

(** The answer to a create carries what the read makes of the names that
    the loop has visited, which are the names joined to the new post, when
    tag identifiers are unique and no association of the store carries the
    identifier of the new post. *)
Lemma POST_posts_tags_answer (JSON_parse : string -> option jsval) (now : nat)
    (f : form) (file : option string) (w : world) (title : string) :
  f_title f = Some title ->
  parse_tags JSON_parse f <> JNull ->
  unique_tag_ids (w_db w) ->
  (forall pt, In pt (post_tags (w_db w)) ->
     pt_post_id pt <> next_id (map p_id (posts (w_db w)))) ->
  exists p,
    p_id p = next_id (map p_id (posts (w_db w)))
    /\ joined_names (w_db (snd (POST_posts JSON_parse now f file w))) (p_id p)
       = items_of (parse_tags JSON_parse f)
    /\ fst (POST_posts JSON_parse now f file w)
       = mkResponse 201
           (JPost (mkPostJson p
              (tags_of_aggregate (GROUP_CONCAT (items_of (parse_tags JSON_parse f)))))).
Proof.
  intros Ht Hv U O.
  destruct (POST_posts_db JSON_parse now f file w title Ht) as [Db Ans].
  rewrite Ans, Db. clear Ans Db.
  set (p := mkPost (next_id (map p_id (posts (w_db w)))) title (slug_of_title title)
              (f_content f) (f_excerpt f)
              (option_map (String.append "/uploads/") file) (status_of f) now).
  set (d1 := mkDB (posts (w_db w) ++ [p]) (tags (w_db w)) (post_tags (w_db w))).
  set (names := items_of (parse_tags JSON_parse f)).
  destruct (link_all_db_post_tags d1 (p_id p) names) as (tids & P1 & P2 & _).
  assert (J : joined_names (link_all_db d1 (p_id p) names) (p_id p) = names).
  { apply (joined_names_linked _ (p_id p) (post_tags (w_db w)) names tids); auto.
    now apply link_all_db_unique_ids. }
  exists p. split; [reflexivity|]. split; [exact J|].
  unfold with_tags, select_row. cbn [row_post row_tags]. rewrite J.
  now destruct (parse_tags JSON_parse f).
Qed.

(** The tags of the answer and of any read of the new post, when the names
    of the request are distinct, hold no comma and are not the empty name
    alone. *)
Lemma POST_posts_names_answer (JSON_parse : string -> option jsval) (now : nat)
    (f : form) (file : option string) (w : world) (title : string)
    (names : list string) :
  f_title f = Some title ->
  parse_tags JSON_parse f <> JNull ->
  items_of (parse_tags JSON_parse f) = names ->
  NoDup names ->
  Forall (fun n => has_comma n = false) names ->
  names <> [EmptyString] ->
  unique_tag_ids (w_db w) ->
  (forall pt, In pt (post_tags (w_db w)) ->
     pt_post_id pt <> next_id (map p_id (posts (w_db w)))) ->
  exists p ts,
    fst (POST_posts JSON_parse now f file w)
    = mkResponse 201 (JPost (mkPostJson p ts))
    /\ p_id p = next_id (map p_id (posts (w_db w)))
    /\ Permutation names ts
    /\ NoDup ts
    /\ forall ts',
         reads_tags (w_db (snd (POST_posts JSON_parse now f file w))) (p_id p) ts' ->
         Permutation names ts' /\ NoDup ts'.
Proof.
  intros Ht Hv Hn N C E U O.
  destruct (POST_posts_tags_answer JSON_parse now f file w title Ht Hv U O)
    as (p & Hp & J & A).
  rewrite Hn in J, A.
  exists p, names. rewrite A, (proj2 (aggregate_roundtrip names) (conj C E)).
  split; [reflexivity|]. split; [exact Hp|]. split; [apply Permutation_refl|].
  split; [exact N|]. intros ts' R.
  assert (P : Permutation names ts').
  { apply (reads_tags_names _ (p_id p) names ts' (Permutation_refl_eq _ _ J) C E R). }
  split; [exact P|]. now apply (Permutation_NoDup P).
Qed.

(** X14. A create whose tags field is not JSON is answered with the tags
    of the comma-separated reading of the field, trimmed and without the
    empty pieces, in some order; so is every read of the new post, in
    whatever order the aggregate takes the names. This holds when the pieces
    are distinct, tag identifiers are unique and no association of the store
    carries the identifier of the new post. *)
Theorem POST_posts_comma_tags (JSON_parse : string -> option jsval) (now : nat)
    (f : form) (file : option string) (w : world) (title s : string) :
  f_title f = Some title ->
  f_tags f = Some s ->
  JSON_parse s = None ->
  NoDup (comma_list s) ->
  unique_tag_ids (w_db w) ->
  (forall pt, In pt (post_tags (w_db w)) ->
     pt_post_id pt <> next_id (map p_id (posts (w_db w)))) ->
  exists p ts,
    fst (POST_posts JSON_parse now f file w)
    = mkResponse 201 (JPost (mkPostJson p ts))
    /\ p_id p = next_id (map p_id (posts (w_db w)))
    /\ Permutation (comma_list s) ts
    /\ NoDup ts
    /\ forall ts',
         reads_tags (w_db (snd (POST_posts JSON_parse now f file w))) (p_id p) ts' ->
         Permutation (comma_list s) ts' /\ NoDup ts'.
Proof.
  intros Ht Hs Hp N U O.
  assert (Hv : parse_tags JSON_parse f = JArr (comma_list s)).
  { unfold parse_tags. rewrite Hs. destruct (truthy s) eqn:T; [now rewrite Hp|].
    apply truthy_false in T. now subst s. }
  pose proof (comma_list_items s) as I.
  apply (POST_posts_names_answer JSON_parse now f file w title); auto.
  - rewrite Hv. discriminate.
  - now rewrite Hv.
  - eapply Forall_impl; [|exact I]. now intros t (_ & _ & C).
  - intros E'. rewrite E' in I. inversion I as [|? ? (T & _) _]. discriminate.
Qed.

Lemma POST_posts_comma_tags_witness :
  let f := form_of (Some "Notes") (Some " b, a ,, c") in
  (f_title f = Some "Notes" /\ f_tags f = Some " b, a ,, c"
   /\ json_string_array " b, a ,, c" = None
   /\ comma_list " b, a ,, c" = ["b"; "a"; "c"]
   /\ unique_tag_ids (w_db start))
  /\ exists p ts,
       fst (POST_posts json_string_array 3 f None start)
       = mkResponse 201 (JPost (mkPostJson p ts))
       /\ Permutation ["b"; "a"; "c"] ts.
Proof.
  intros f. split; [repeat split; constructor|].
  destruct (POST_posts_comma_tags json_string_array 3 f None start "Notes"
              " b, a ,, c") as (p & ts & A & _ & P & _); try reflexivity.
  - vm_compute. repeat constructor; simpl; intuition discriminate.
  - constructor.
  - intros pt [].
  - exists p, ts. split; [exact A|exact P].
Defined.

Lemma chars_plain (s : string) :
  has_comma s = false -> Forall (fun w => has_comma w = false) (chars s).
Proof.
  induction s as [|c r IH]; [constructor|]. simpl. intros H.
  apply orb_false_elim in H as [Hc Hr]. constructor; [|now apply IH].
  simpl. now rewrite Hc.
Qed.

(** X15. A tags field that is a JSON string, not an array, is taken
    character by character: the post is created with one tag for each
    character of the string, and answered and read with these, in some
    order, when the characters are distinct and none is a comma (under the
    same provisos on the store). *)
Theorem POST_posts_string_tags (JSON_parse : string -> option jsval) (now : nat)
    (f : form) (file : option string) (w : world) (title s : string) :
  f_title f = Some title ->
  parse_tags JSON_parse f = JStr s ->
  has_comma s = false ->
  NoDup (chars s) ->
  unique_tag_ids (w_db w) ->
  (forall pt, In pt (post_tags (w_db w)) ->
     pt_post_id pt <> next_id (map p_id (posts (w_db w)))) ->
  exists p ts,
    fst (POST_posts JSON_parse now f file w)
    = mkResponse 201 (JPost (mkPostJson p ts))
    /\ p_id p = next_id (map p_id (posts (w_db w)))
    /\ Permutation (chars s) ts
    /\ NoDup ts
    /\ forall ts',
         reads_tags (w_db (snd (POST_posts JSON_parse now f file w))) (p_id p) ts' ->
         Permutation (chars s) ts' /\ NoDup ts'.
Proof.
  intros Ht Hv C N U O.
  apply (POST_posts_names_answer JSON_parse now f file w title); auto.
  - rewrite Hv. discriminate.
  - now rewrite Hv.
  - now apply chars_plain.
  - destruct s as [|c [|d r]]; discriminate.
Qed.

Lemma POST_posts_string_tags_witness :
  let f := form_of (Some "Notes") (Some (quoted "news")) in
  (f_title f = Some "Notes" /\ parse_tags json_null_or_array f = JStr "news"
   /\ has_comma "news" = false /\ unique_tag_ids (w_db start))
  /\ exists p ts,
       fst (POST_posts json_null_or_array 3 f None start)
       = mkResponse 201 (JPost (mkPostJson p ts))
       /\ Permutation ["n"; "e"; "w"; "s"] ts.
Proof.
  intros f. split; [repeat split; constructor|].
  destruct (POST_posts_string_tags json_null_or_array 3 f None start "Notes" "news")
    as (p & ts & A & _ & P & _); try reflexivity.
  - vm_compute. repeat constructor; simpl; intuition discriminate.
  - constructor.
  - intros pt [].
  - exists p, ts. split; [exact A|exact P].
Defined.

(** ** Requests that the upload middleware rejects *)

Lemma POST_posts_status (JSON_parse : string -> option jsval) (now : nat)
    (f : form) (file : option string) (w : world) :
  status (fst (POST_posts JSON_parse now f file w)) <> 400.
Proof.
  destruct (f_title f) as [title|] eqn:Ht.
  - rewrite (POST_posts_run JSON_parse now f file w title Ht). cbn [fst].
    apply status_400. discriminate.
  - unfold POST_posts, try_catch, bind, throw. rewrite Ht. discriminate.
Qed.

(** X16. On the create route a 400 comes from the upload middleware only:
    the answer is 400 exactly when the upload was rejected with a Multer
    error, with the message of the size limit for the code LIMIT_FILE_SIZE;
    any other upload error gives 500; and a rejected request, on the create
    or the update route, never reaches the store. *)
Theorem route_upload_rejected (JSON_parse : string -> option jsval) (now : nat)
    (f : form) (u : upload) (w : world) :
  (status (fst (route_POST_posts JSON_parse now f u w)) = 400
   <-> exists code, u = Rejected (MulterError code))
  /\ (u = Rejected (MulterError "LIMIT_FILE_SIZE") ->
      fst (route_POST_posts JSON_parse now f u w)
      = mkResponse 400 (JError "File size too large. Maximum size is 5MB."))
  /\ (u = Rejected OtherError ->
      status (fst (route_POST_posts JSON_parse now f u w)) = 500)
  /\ (forall err id, u = Rejected err ->
      snd (route_POST_posts JSON_parse now f u w) = w
      /\ snd (route_PUT_post JSON_parse id f u w) = w).
Proof.
  split; [|split; [|split]].
  - destruct u as [file|[code|]]; cbn [route_POST_posts fst].
    + split.
      * intros H. exfalso. revert H. apply POST_posts_status.
      * intros (code & H). discriminate.
    + split; [now exists code|]. intros _. cbn [error_handler].
      now destruct (String.eqb code "LIMIT_FILE_SIZE").
    + split; [discriminate|]. intros (code & H). discriminate.
  - now intros ->.
  - now intros ->.
  - now intros err id ->.
Qed.

(** ** The post page: neighbours of a post *)

Lemma findIndex_from_found {A} (g : A -> bool) (i : Z) (l1 l2 : list A) (p : A) :
  (forall x, In x l1 -> g x = false) -> g p = true ->
  findIndex_from g i (l1 ++ p :: l2) = (i + Z.of_nat (List.length l1))%Z.
Proof.
  revert i. induction l1 as [|x r IH]; intros i H Hp; simpl.
  - rewrite Hp. lia.
  - rewrite (H x (or_introl eq_refl)). rewrite IH; [lia| |exact Hp].
    intros y Hy. apply H. now right.
Qed.

Lemma findIndex_from_none {A} (g : A -> bool) (i : Z) (l : list A) :
  (forall x, In x l -> g x = false) -> findIndex_from g i l = (-1)%Z.
Proof.
  revert i. induction l as [|x r IH]; intros i H; simpl; [reflexivity|].
  rewrite (H x (or_introl eq_refl)). apply IH. intros y Hy. apply H. now right.
Qed.

Lemma nth_error_last {A} (l : list A) :
  nth_error l (List.length l - 1) = hd_error (rev l).
Proof.
  destruct l as [|x r] using rev_ind; [reflexivity|].
  rewrite rev_app_distr, length_app. simpl.
  rewrite nth_error_app2 by lia.
  replace (List.length r + 1 - 1 - List.length r) with 0 by lia. reflexivity.
Qed.

(** X17. On the page of a published post, found in the listing at its
    first place under the slug, [previous] is the published post just before
    it and [next] the published post just after it; each is null at the
    respective end of the listing. *)
Theorem adjacentPosts_found (slug : string) (posts l1 l2 : list post_json)
    (p : post_json) :
  publishedPosts posts = l1 ++ p :: l2 ->
  p_slug (j_post p) = slug ->
  (forall q, In q l1 -> p_slug (j_post q) <> slug) ->
  adjacentPosts slug posts = mkAdjacent (hd_error (rev l1)) (hd_error l2).
Proof.
  intros E Hp Hl. unfold adjacentPosts, currentIndex, findIndex. rewrite E.
  rewrite findIndex_from_found.
  - rewrite length_app. cbn [List.length]. f_equal.
    + destruct (Z.ltb_spec 0 (0 + Z.of_nat (List.length l1))) as [L|L].
      * unfold at_index. destruct (Z.ltb_spec (0 + Z.of_nat (List.length l1) - 1) 0);
          [lia|].
        replace (Z.to_nat (0 + Z.of_nat (List.length l1) - 1))
          with (List.length l1 - 1) by lia.
        rewrite nth_error_app1 by lia. apply nth_error_last.
      * destruct l1; [reflexivity|simpl in L; lia].
    + destruct (Z.ltb_spec (0 + Z.of_nat (List.length l1))
                  (Z.of_nat (List.length l1 + S (List.length l2)) - 1)) as [L|L].
      * unfold at_index.
        destruct (Z.ltb_spec (0 + Z.of_nat (List.length l1) + 1) 0); [lia|].
        replace (Z.to_nat (0 + Z.of_nat (List.length l1) + 1))
          with (List.length l1 + 1) by lia.
        rewrite nth_error_app2 by lia.
        replace (List.length l1 + 1 - List.length l1) with 1 by lia.
        now destruct l2.
      * destruct l2; [reflexivity|simpl in L; lia].
  - intros x Hx. apply String.eqb_neq. now apply Hl.
  - now apply String.eqb_eq.
Qed.

(** X18. On the page of a post that the published listing does not hold,
    a draft for instance, [previous] is null and [next] is the first
    published post of the listing, if there is one. *)
Theorem adjacentPosts_unlisted (slug : string) (posts : list post_json) :
  (forall q, In q (publishedPosts posts) -> p_slug (j_post q) <> slug) ->
  adjacentPosts slug posts = mkAdjacent None (hd_error (publishedPosts posts)).
Proof.
  intros H. unfold adjacentPosts, currentIndex, findIndex.
  rewrite findIndex_from_none.
  - f_equal. destruct (publishedPosts posts) as [|x r]; [reflexivity|].
    cbn [List.length].
    destruct (Z.ltb_spec (-1) (Z.of_nat (S (List.length r)) - 1)); [reflexivity|lia].
  - intros x Hx. apply String.eqb_neq. now apply H.
Qed.

(** ** The post page: related posts *)

Lemma firstn_incl {A} (n : nat) (l : list A) (x : A) : In x (firstn n l) -> In x l.
Proof.
  revert l. induction n as [|n IH]; intros [|y r]; simpl; try easy.
  intros [H|H]; auto.
Qed.

(** X19. Whatever the scores, the related posts are at most three, each a
    published post of the listing under another slug than that of the page. *)
Theorem related_posts (sort_by_relevance : list post_json -> list post_json)
    (slug : string) (posts : list post_json) :
  (forall l, Permutation (sort_by_relevance l) l) ->
  List.length (related sort_by_relevance slug posts) <= 3
  /\ forall p, In p (related sort_by_relevance slug posts) ->
       In p posts
       /\ p_status (j_post p) = "published"
       /\ p_slug (j_post p) <> slug.
Proof.
  intros S. unfold related. split.
  - rewrite length_firstn. lia.
  - intros p H. apply firstn_incl in H.
    apply (Permutation_in _ (S _)) in H.
    apply filter_In in H as [H Hs]. apply filter_In in H as [H Hp].
    split; [exact H|]. split.
    + now apply String.eqb_eq.
    + apply negb_true_iff in Hs. now apply String.eqb_neq.
Qed.

Lemma adjacentPosts_found_witness :
  let entry id slug status := mkPostJson (mkPost id slug slug None None None status 0) [] in
  let posts := [entry 4 "d" "published"; entry 3 "c" "draft";
                entry 2 "b" "published"; entry 1 "a" "published"] in
  (publishedPosts posts
   = [entry 4 "d" "published"] ++ entry 2 "b" "published" :: [entry 1 "a" "published"]
   /\ p_slug (j_post (entry 2 "b" "published")) = "b"
   /\ forall q, In q [entry 4 "d" "published"] -> p_slug (j_post q) <> "b")
  /\ adjacentPosts "b" posts
     = mkAdjacent (Some (entry 4 "d" "published")) (Some (entry 1 "a" "published")).
Proof.
  intros entry posts.
  assert (H : forall q, In q [entry 4 "d" "published"] -> p_slug (j_post q) <> "b")
    by (intros q [<-|[]]; discriminate).
  split; [now repeat split|].
  exact (adjacentPosts_found "b" posts [entry 4 "d" "published"]
           [entry 1 "a" "published"] (entry 2 "b" "published") eq_refl eq_refl H).
Defined.

Lemma adjacentPosts_unlisted_witness :
  let entry id slug status := mkPostJson (mkPost id slug slug None None None status 0) [] in
  let posts := [entry 4 "d" "published"; entry 3 "c" "draft";
                entry 2 "b" "published"] in
  (forall q, In q (publishedPosts posts) -> p_slug (j_post q) <> "c")
  /\ adjacentPosts "c" posts = mkAdjacent None (Some (entry 4 "d" "published")).
Proof.
  intros entry posts.
  assert (H : forall q, In q (publishedPosts posts) -> p_slug (j_post q) <> "c")
    by (intros q [<-|[<-|[]]]; discriminate).
  split; [exact H|]. exact (adjacentPosts_unlisted "c" posts H).
Defined.

Lemma related_posts_witness :
  let entry id slug status := mkPostJson (mkPost id slug slug None None None status 0) [] in
  let posts := [entry 4 "d" "published"; entry 3 "c" "draft";
                entry 2 "b" "published"] in
  (forall l : list post_json, Permutation (@rev post_json l) l)
  /\ related (@rev post_json) "b" posts = [entry 4 "d" "published"]
  /\ List.length (related (@rev post_json) "b" posts) <= 3.
Proof.
  intros entry posts.
  assert (H : forall l : list post_json, Permutation (@rev post_json l) l)
    by (intros l; apply Permutation_sym, Permutation_rev).
  split; [exact H|]. split; [reflexivity|].
  exact (proj1 (related_posts (@rev post_json) "b" posts H)).
Defined.

(** ** The post page: breadcrumbs *)

Section BreadcrumbProperties.

Variable K : Type.
Variable K_eqb : K -> K -> bool.
Variable K_text : K -> string.
Variable categories : list (category K).

Lemma breadcrumbs_loop_ranked (rank : category K -> nat) :
  (forall x y, parent_of K K_eqb categories x = Some y -> rank y < rank x) ->
  forall n c, rank c <= n ->
  exists l,
    lineage K_eqb categories l c
    /\ List.length l <= rank c
    /\ forall fuel acc, rank c < fuel ->
         breadcrumbs_loop K K_eqb K_text categories fuel (Some c) acc
         = Some (map (crumb_of K K_text) (l ++ [c]) ++ acc).
Proof.
  intros R n. induction n as [|n IH]; intros c Hc.
  - destruct (parent_of K K_eqb categories c) as [p|] eqn:P.
    + apply R in P. lia.
    + exists []. split; [now constructor|]. split; [simpl; lia|].
      intros [|fuel] acc Hf; [lia|]. simpl. rewrite P. now destruct fuel.
  - destruct (parent_of K K_eqb categories c) as [p|] eqn:P.
    + pose proof (R _ _ P) as Hr.
      destruct (IH p) as (l & L & Len & Run); [lia|].
      exists (l ++ [p]). split; [now constructor|].
      split; [rewrite length_app; simpl; lia|].
      intros [|fuel] acc Hf; [lia|]. simpl. rewrite P.
      rewrite Run by lia. rewrite !map_app, <- !app_assoc. reflexivity.
    + exists []. split; [now constructor|]. split; [simpl; lia|].
      intros [|fuel] acc Hf; [lia|]. simpl. rewrite P. now destruct fuel.
Qed.

(** X20. When the parent links of the categories go down a rank, so that
    no category is among its own ancestors, the loop of the breadcrumbs ends:
    it gives the crumbs of the ancestors of the category, the root first, and
    of the category itself last, at most one more than its rank. *)
Theorem getCategoryBreadcrumbs_ranked (rank : category K -> nat) (c : category K) :
  (forall x y, parent_of K K_eqb categories x = Some y -> rank y < rank x) ->
  exists l,
    lineage K_eqb categories l c
    /\ List.length l <= rank c
    /\ forall fuel, rank c < fuel ->
         getCategoryBreadcrumbs K K_eqb K_text categories fuel c
         = Some (map (crumb_of K K_text) (l ++ [c])).
Proof.
  intros R.
  destruct (breadcrumbs_loop_ranked rank R (rank c) c (le_n _)) as (l & L & Len & Run).
  exists l. split; [exact L|]. split; [exact Len|].
  intros fuel Hf. unfold getCategoryBreadcrumbs.
  rewrite (Run fuel [] Hf). now rewrite app_nil_r.
Qed.

Lemma breadcrumbs_loop_short (fuel n : nat) (c c' : category K) (acc : list crumb) :
  fuel <= n ->
  nth_parent K K_eqb categories n c = Some c' ->
  breadcrumbs_loop K K_eqb K_text categories fuel (Some c) acc = None.
Proof.
  revert n c acc. induction fuel as [|fuel IH]; intros n c acc Hn Hc; [reflexivity|].
  destruct n as [|n]; [lia|]. simpl in *.
  destruct (parent_of K K_eqb categories c) as [p|]; [|discriminate].
  apply (IH n); [lia|exact Hc].
Qed.

Lemma breadcrumbs_loop_steps (n fuel : nat) (c c' : category K) (acc : list crumb) :
  nth_parent K K_eqb categories n c = Some c' ->
  exists acc',
    breadcrumbs_loop K K_eqb K_text categories (n + fuel) (Some c) acc
    = breadcrumbs_loop K K_eqb K_text categories fuel (Some c') acc'.
Proof.
  revert c acc. induction n as [|n IH]; intros c acc Hc.
  - injection Hc as <-. now exists acc.
  - simpl in *. destruct (parent_of K K_eqb categories c) as [p|]; [|discriminate].
    apply (IH p _ Hc).
Qed.

(** X21. When a category is among its own ancestors, being its own parent
    for instance, the loop of the breadcrumbs does not end, however many
    rounds it is given. *)
Theorem getCategoryBreadcrumbs_cycle (k : nat) (c : category K) :
  nth_parent K K_eqb categories (S k) c = Some c ->
  forall fuel, getCategoryBreadcrumbs K K_eqb K_text categories fuel c = None.
Proof.
  intros Hc fuel. unfold getCategoryBreadcrumbs. generalize (@nil crumb).
  induction fuel as [fuel IH] using lt_wf_ind. intros acc.
  destruct (Nat.le_gt_cases fuel (S k)) as [L|L].
  - now apply (breadcrumbs_loop_short fuel (S k) c c).
  - destruct (breadcrumbs_loop_steps (S k) (fuel - S k) c c acc Hc) as (acc' & E).
    replace (S k + (fuel - S k)) with fuel in E by lia.
    rewrite E. apply IH. lia.
Qed.

End BreadcrumbProperties.

Lemma getCategoryBreadcrumbs_ranked_witness :
  let root := mkCategory "1" "Engineering" None in
  let leaf := mkCategory "2" "Architecture" (Some "1") in
  let cats := [root; leaf] in
  let rank (c : category string) :=
    match c_parent_id c with
    | Some pid => if String.eqb pid "1" then 1 else if String.eqb pid "2" then 2 else 0
    | None => 0
    end in
  (forall x y, parent_of string String.eqb cats x = Some y -> rank y < rank x)
  /\ getCategoryBreadcrumbs string String.eqb (fun s => s) cats 5 leaf
     = Some [mkCrumb "Engineering" "/blog?category=1";
             mkCrumb "Architecture" "/blog?category=2"]
  /\ exists l, lineage String.eqb cats l leaf /\ List.length l <= rank leaf.
Proof.
  intros root leaf cats rank.
  assert (R : forall x y, parent_of string String.eqb cats x = Some y -> rank y < rank x).
  { intros x y. unfold parent_of, rank, cats, root, leaf.
    destruct (c_parent_id x) as [pid|]; [|discriminate].
    cbn [find c_id]. rewrite (String.eqb_sym pid "1"), (String.eqb_sym pid "2").
    destruct (String.eqb "1" pid); [intros [= <-]; cbn [c_parent_id]; lia|].
    destruct (String.eqb "2" pid); [intros [= <-]; simpl; lia|discriminate]. }
  split; [exact R|]. split; [reflexivity|].
  destruct (getCategoryBreadcrumbs_ranked string String.eqb (fun s => s) cats rank leaf R)
    as (l & L & Len & _).
  now exists l.
Defined.

Lemma getCategoryBreadcrumbs_cycle_witness :
  let a := mkCategory "1" "Engineering" (Some "2") in
  let b := mkCategory "2" "Architecture" (Some "1") in
  nth_parent string String.eqb [a; b] 2 b = Some b
  /\ getCategoryBreadcrumbs string String.eqb (fun s => s) [a; b] 1000 b = None.
Proof.
  intros a b. split; [reflexivity|].
  exact (getCategoryBreadcrumbs_cycle string String.eqb (fun s => s) [a; b] 1 b
           eq_refl 1000).
Defined.

(** ** A create followed by a read or a delete *)

(** Two reads of a post give the same tags up to their order, whatever the
    orders in which their aggregates take the names. *)
Lemma reads_tags_permutation (d : DB) (pid : nat) (ts ts' : list string) :
  reads_tags d pid ts -> reads_tags d pid ts' -> Permutation ts ts'.
Proof.
  intros (o & P & ->) (o' & P' & ->). apply aggregate_permutation.
  eapply Permutation_trans; [exact P|now apply Permutation_sym].
Qed.

(** X22. A post created under a slug that no post of the store carries is
    fetched by that slug: the read is answered with the row of the answer to
    the create, and with its tags up to their order, in whatever order the
    aggregates of the two statements take the names. *)
Theorem POST_then_GET_by_slug (JSON_parse : string -> option jsval) (now : nat)
    (f : form) (file : option string) (w : world) (title : string) :
  f_title f = Some title ->
  parse_tags JSON_parse f <> JNull ->
  ~ In (slug_of_title title) (map p_slug (posts (w_db w))) ->
  let w' := snd (POST_posts JSON_parse now f file w) in
  exists pj pj',
    fst (POST_posts JSON_parse now f file w) = mkResponse 201 (JPost pj)
    /\ p_title (j_post pj) = title
    /\ fst (GET_post_by_slug (slug_of_title title) w') = mkResponse 200 (JPost pj')
    /\ j_post pj' = j_post pj
    /\ reads_tags (w_db w') (p_id (j_post pj)) (j_tags pj)
    /\ reads_tags (w_db w') (p_id (j_post pj)) (j_tags pj')
    /\ Permutation (j_tags pj) (j_tags pj')
    /\ forall ts ts',
         reads_tags (w_db w') (p_id (j_post pj)) ts ->
         reads_tags (w_db w') (p_id (j_post pj)) ts' ->
         Permutation ts ts'.
Proof.
  intros Ht Hv Hs w'. subst w'.
  destruct (POST_posts_db JSON_parse now f file w title Ht) as [Db Ans].
  set (p := mkPost (next_id (map p_id (posts (w_db w)))) title (slug_of_title title)
              (f_content f) (f_excerpt f)
              (option_map (String.append "/uploads/") file) (status_of f) now) in *.
  pose proof (f_equal posts Db) as Hp. rewrite link_all_db_posts in Hp.
  cbn [posts] in Hp.
  set (pj := with_tags (select_row (w_db (snd (POST_posts JSON_parse now f file w))) p)).
  exists pj, pj.
  split; [|split; [|split; [|split; [|split; [|split; [|split]]]]]].
  - rewrite Ans. now destruct (parse_tags JSON_parse f).
  - reflexivity.
  - rewrite GET_post_by_slug_run. cbn [fst w_db]. unfold select_post_by_slug.
    rewrite Hp, find_app. apply find_slug_none in Hs. rewrite Hs.
    cbn [find p_slug p]. now rewrite String.eqb_refl.
  - reflexivity.
  - apply reads_tags_table.
  - apply reads_tags_table.
  - apply Permutation_refl.
  - apply reads_tags_permutation.
Qed.

Lemma POST_then_GET_by_slug_witness :
  let f := form_of (Some "Hello, World!") (Some "b, a") in
  (f_title f = Some "Hello, World!"
   /\ parse_tags json_string_array f <> JNull
   /\ ~ In (slug_of_title "Hello, World!") (map p_slug (posts (w_db start))))
  /\ exists pj pj',
       fst (POST_posts json_string_array 3 f None start) = mkResponse 201 (JPost pj)
       /\ fst (GET_post_by_slug "hello-world"
                 (snd (POST_posts json_string_array 3 f None start)))
          = mkResponse 200 (JPost pj')
       /\ j_post pj' = j_post pj
       /\ Permutation (j_tags pj) (j_tags pj').
Proof.
  intros f.
  assert (H1 : parse_tags json_string_array f <> JNull) by discriminate.
  assert (H2 : ~ In (slug_of_title "Hello, World!") (map p_slug (posts (w_db start))))
    by (intros []).
  split; [now repeat split|].
  destruct (POST_then_GET_by_slug json_string_array 3 f None start "Hello, World!"
              eq_refl H1 H2) as (pj & pj' & E1 & _ & E2 & E3 & _ & _ & E4 & _).
  exists pj, pj'. split; [exact E1|]. split; [exact E2|]. split; [exact E3|exact E4].
Defined.

Lemma filter_fresh_out (l : list post) (p : post) :
  ~ In (p_id p) (map p_id l) ->
  filter (fun q => negb (Nat.eqb (p_id q) (p_id p))) (l ++ [p]) = l
  /\ List.length (filter (fun q => Nat.eqb (p_id q) (p_id p)) (l ++ [p])) = 1.
Proof.
  intros H. rewrite !filter_app.
  destruct (filter_other_posts l (p_id p) H) as [-> ->].
  simpl. rewrite Nat.eqb_refl. simpl. now rewrite app_nil_r.
Qed.

(** X23. Deleting the post that a create has just added is answered with
    the acknowledgement and gives back the posts table and the association
    table as they were before the create, less the associations that carried
    the identifier of the new post before; the tags that the create has added
    stay. *)
Theorem POST_then_DELETE (JSON_parse : string -> option jsval) (now : nat)
    (f : form) (file : option string) (w : world) (title : string) :
  f_title f = Some title ->
  let id := next_id (map p_id (posts (w_db w))) in
  let w1 := snd (POST_posts JSON_parse now f file w) in
  fst (DELETE_post id w1) = mkResponse 200 JSuccess
  /\ posts (w_db (snd (DELETE_post id w1))) = posts (w_db w)
  /\ post_tags (w_db (snd (DELETE_post id w1)))
     = filter (fun pt => negb (Nat.eqb (pt_post_id pt) id)) (post_tags (w_db w))
  /\ tags (w_db (snd (DELETE_post id w1))) = tags (w_db w1).
Proof.
  intros Ht id w1. subst w1.
  destruct (POST_posts_db JSON_parse now f file w title Ht) as [Db _].
  set (p := mkPost (next_id (map p_id (posts (w_db w)))) title (slug_of_title title)
              (f_content f) (f_excerpt f)
              (option_map (String.append "/uploads/") file) (status_of f) now) in *.
  set (d1 := mkDB (posts (w_db w) ++ [p]) (tags (w_db w)) (post_tags (w_db w))) in *.
  pose proof (f_equal posts Db) as Hp. rewrite link_all_db_posts in Hp.
  cbn [posts d1] in Hp.
  destruct (link_all_db_post_tags d1 (p_id p) (items_of (parse_tags JSON_parse f)))
    as (tids & P1 & _).
  rewrite <- Db in P1. cbn [post_tags d1] in P1.
  destruct (filter_fresh_out (posts (w_db w)) p (next_id_fresh _)) as [F1 F2].
  rewrite DELETE_post_run.
  cbn [fst snd w_db delete_post delete_post_tags posts tags post_tags].
  rewrite Hp, P1. change id with (p_id p). rewrite F1, F2, filter_links_out.
  now repeat split.
Qed.

Lemma POST_then_DELETE_witness :
  let f := form_of (Some "Hello, World!") (Some "a, b") in
  f_title f = Some "Hello, World!"
  /\ DELETE_post 1 (snd (POST_posts json_string_array 3 f None start))
     = (mkResponse 200 JSuccess,
        mkWorld (mkDB [] [mkTag 1 "a"; mkTag 2 "b"] [])
                [InsertPost "Hello, World!" "hello-world";
                 SelectTagByName "a"; InsertTag "a"; InsertPostTag 1 1;
                 SelectTagByName "b"; InsertTag "b"; InsertPostTag 1 2;
                 SelectPostById 1; DeletePostTags 1; DeletePost 1])
  /\ posts (w_db (snd (DELETE_post 1 (snd (POST_posts json_string_array 3 f None start)))))
     = posts (w_db start).
Proof.
  intros f. split; [reflexivity|]. split; [reflexivity|].
  exact (proj1 (proj2 (POST_then_DELETE json_string_array 3 f None start
                         "Hello, World!" eq_refl))).
Defined.
